(** * libzsync-go: a shallow embedding of the planner, scanner and range source

    The development follows the Go sources:
    - [chunksmapper/chunksmapper.go]  (module [ChunksMapper])
    - the [zsync] package             (module [ZSync])
    - [sources/http_file_source.go]   (module [HttpSource])

    Go's [int64] values are integers of [Z] kept in the signed 64-bit range;
    every arithmetic operation of the source is written with its wrap-around
    ([Int64.add], [Int64.sub], [Int64.mul]).  Maps are [gmap]s, channels are
    the lists of what was sent on them, and a function that can panic
    returns an [outcome]. *)

From Stdlib Require Import ZArith Lia List Bool Ascii String DecimalString.
From Stdlib.Strings Require Import Byte.
From stdpp Require Import base option list sorting gmap strings.

Local Open Scope Z_scope.

(* ===================================================================== *)
(** ** Signed 64-bit integers *)
(* ===================================================================== *)

Module Int64.

Definition min_int : Z := - 2 ^ 63.
Definition max_int : Z := 2 ^ 63 - 1.

(** Two's complement wrap-around of a mathematical integer. *)
Definition wrap (z : Z) : Z := (z + 2 ^ 63) mod 2 ^ 64 - 2 ^ 63.

Definition in_range (z : Z) : Prop := min_int <= z <= max_int.

Definition add (a b : Z) : Z := wrap (a + b).
Definition sub (a b : Z) : Z := wrap (a - b).
Definition mul (a b : Z) : Z := wrap (a * b).

(** Go's [/] on integers truncates toward zero and panics on a zero
    divisor. *)
Definition div (a b : Z) : option Z :=
  if b =? 0 then None else Some (wrap (Z.quot a b)).

End Int64.

(* ===================================================================== *)
(** ** chunks.ChunkInfo *)
(* ===================================================================== *)

(** The [chunks] package declares [ChunkInfo]; the fields below are the ones
    the sources read and write.  [Source] is an [io.ReadSeeker] that every
    producer in these files leaves [nil]. *)
Record ChunkInfo : Type := mkChunkInfo {
  Size : Z;
  Source : option nat;
  SourceOffset : Z;
  TargetOffset : Z;
}.

Definition with_Size (c : ChunkInfo) (s : Z) : ChunkInfo :=
  {| Size := s; Source := Source c;
     SourceOffset := SourceOffset c; TargetOffset := TargetOffset c |}.

(** One past the last target byte of a chunk. *)
Definition TargetEnd (c : ChunkInfo) : Z := TargetOffset c + Size c.

(** One past the last source byte of a chunk. *)
Definition SourceEnd (c : ChunkInfo) : Z := SourceOffset c + Size c.

(* ===================================================================== *)
(** ** chunksmapper.ChunksMapper *)
(* ===================================================================== *)

Module ChunksMapper.

Record t : Type := mk {
  fileSize : Z;
  chunksMap : gmap Z ChunkInfo;
}.

Definition NewFileChunksMapper (fileSize : Z) : t :=
  {| fileSize := fileSize; chunksMap := ∅ |}.

Definition Add (mapper : t) (chunk : ChunkInfo) : t :=
  {| fileSize := fileSize mapper;
     chunksMap := <[TargetOffset chunk := chunk]> (chunksMap mapper) |}.

(** The channel is drained in order; each received chunk is [Add]ed. *)
Definition FillChunksMap (mapper : t) (chunkChannel : list ChunkInfo) : t :=
  fold_left Add chunkChannel mapper.

(** [sort.SliceStable] with the comparison
    [chunkList[i].TargetOffset < chunkList[j].TargetOffset]: a stable
    insertion sort that only ever asks the source's [less]. *)
Definition less (a b : ChunkInfo) : bool := TargetOffset a <? TargetOffset b.

Fixpoint insert_stable (x : ChunkInfo) (l : list ChunkInfo) : list ChunkInfo :=
  match l with
  | [] => [x]
  | y :: l' => if less y x then y :: insert_stable x l' else x :: y :: l'
  end.

Definition SliceStable (l : list ChunkInfo) : list ChunkInfo :=
  foldr insert_stable [] l.

(** [GetMappedChunks] for a given iteration order of the map (Go leaves
    the order of [range] over a map unspecified). *)
Definition GetMappedChunksFrom (order : list ChunkInfo) : list ChunkInfo :=
  SliceStable order.

Definition GetMappedChunks (mapper : t) : list ChunkInfo :=
  GetMappedChunksFrom (snd <$> map_to_list (chunksMap mapper)).

Definition missing (pastChunkEnd upto : Z) : ChunkInfo :=
  {| Size := Int64.sub upto pastChunkEnd; Source := None;
     SourceOffset := pastChunkEnd; TargetOffset := pastChunkEnd |}.

(** The [for _, c := range chunkList] loop of [GetMissingChunks], with
    [pastChunkEnd] threaded through and the final comparison against
    [fileSize] at the end of the list. *)
Fixpoint missing_loop (fileSize pastChunkEnd : Z) (chunkList : list ChunkInfo)
  : list ChunkInfo :=
  match chunkList with
  | [] =>
      if negb (pastChunkEnd =? fileSize)
      then [missing pastChunkEnd fileSize] else []
  | c :: rest =>
      (if negb (pastChunkEnd =? TargetOffset c)
       then [missing pastChunkEnd (TargetOffset c)] else [])
      ++ missing_loop fileSize (Int64.add (TargetOffset c) (Size c)) rest
  end.

Definition GetMissingChunksFrom (fileSize : Z) (chunkList : list ChunkInfo)
  : list ChunkInfo :=
  missing_loop fileSize 0 chunkList.

Definition GetMissingChunks (mapper : t) : list ChunkInfo :=
  GetMissingChunksFrom (fileSize mapper) (GetMappedChunks mapper).

(** *** OptimizeChunks *)

(** [skipList := make(map[int]bool)]; reading a missing key gives [false]. *)
Definition skipped (skipList : gmap nat bool) (i : nat) : bool :=
  default false (skipList !! i).

(** State of the inner [for n := i; ...] loop: the running [end], the
    local copy [chunk] and the shared [skipList]. *)
Definition inner_state : Type := (Z * ChunkInfo * gmap nat bool)%type.

Definition inner_body (chunkList : list ChunkInfo) (minGap : Z)
    (st : inner_state) (n : nat) : inner_state :=
  let '(end_, chunk, skipList) := st in
  if skipped skipList n then st
  else
    match chunkList !! n with
    | None => st
    | Some nextChunk =>
        let nextEnd := Int64.add (SourceOffset nextChunk) (Size nextChunk) in
        if Int64.add end_ minGap >? SourceOffset nextChunk then
          let end' := nextEnd in
          (end', with_Size chunk (Int64.sub end' (SourceOffset chunk)),
           <[n := true]> skipList)
        else st
    end.

(** [for n := i; n < len(chunkList); n++], entered at index [n]. *)
Definition inner_loop (chunkList : list ChunkInfo) (minGap : Z) (n : nat)
    (st : inner_state) : inner_state :=
  fold_left (inner_body chunkList minGap)
            (seq n (length chunkList - n)) st.

(** State of the outer loop: [chunkListOut] and [skipList]. *)
Definition outer_state : Type := (list ChunkInfo * gmap nat bool)%type.

Definition outer_body (chunkList : list ChunkInfo) (minGap : Z)
    (st : outer_state) (i : nat) : outer_state :=
  let '(chunkListOut, skipList) := st in
  if skipped skipList i then st
  else
    match chunkList !! i with
    | None => st
    | Some chunk =>
        let end_ := Int64.add (SourceOffset chunk) (Size chunk) in
        let '(_, chunk', skipList') :=
          inner_loop chunkList minGap i (end_, chunk, skipList) in
        (chunkListOut ++ [chunk'], skipList')
    end.

(** [for i := ...; i < len(chunkList); i++], entered at index [i]. *)
Definition outer_loop (chunkList : list ChunkInfo) (minGap : Z) (i : nat)
    (st : outer_state) : outer_state :=
  fold_left (outer_body chunkList minGap)
            (seq i (length chunkList - i)) st.

Definition OptimizeChunks (chunkList : list ChunkInfo) (minGap : Z)
  : list ChunkInfo :=
  fst (outer_loop chunkList minGap 0 ([], ∅)).

(** *** The plan: reuse chunks and fetch chunks in one list *)

(** Merge of two lists that are each ascending by [TargetOffset]. *)
Fixpoint merge_by_target (xs : list ChunkInfo)
  : list ChunkInfo -> list ChunkInfo :=
  fix go (ys : list ChunkInfo) : list ChunkInfo :=
    match xs, ys with
    | [], _ => ys
    | _, [] => xs
    | x :: xs', y :: ys' =>
        if TargetOffset x <=? TargetOffset y
        then x :: merge_by_target xs' ys
        else y :: go ys'
    end.

Definition PlannedChunks (mapper : t) : list ChunkInfo :=
  merge_by_target (GetMappedChunks mapper) (GetMissingChunks mapper).

(** [l] tiles [[a, b)]: consecutive chunks of positive size, each starting
    where the previous one ends. *)
Fixpoint tiles (a : Z) (l : list ChunkInfo) (b : Z) : Prop :=
  match l with
  | [] => a = b
  | c :: l' => TargetOffset c = a /\ 0 < Size c /\ tiles (TargetEnd c) l' b
  end.

(** A target byte [x] lies in chunk [c]. *)
Definition covers (c : ChunkInfo) (x : Z) : Prop :=
  TargetOffset c <= x < TargetEnd c.

Definition disjoint (c d : ChunkInfo) : Prop :=
  TargetEnd c <= TargetOffset d \/ TargetEnd d <= TargetOffset c.

(** Pairwise disjointness of the chunks at different positions of a list. *)
Definition pairwise_disjoint (l : list ChunkInfo) : Prop :=
  forall (i j : nat) (c d : ChunkInfo),
    i <> j -> l !! i = Some c -> l !! j = Some d -> disjoint c d.

Definition sorted_by_target (l : list ChunkInfo) : Prop :=
  StronglySorted (fun c d => TargetOffset c < TargetOffset d) l.

(** *** Coalescing as the specification words it *)

(** Pass 2 of the planner, following the specification's sentence: if
    [next.begin - current.end < min_gap], extend [current.end] to [next.end]
    and drop [next]; otherwise [current] is finished and [next] becomes the
    current fetch. *)
Fixpoint coalesce_spec (minGap : Z) (current : ChunkInfo)
    (rest : list ChunkInfo) : list ChunkInfo :=
  match rest with
  | [] => [current]
  | next :: rest' =>
      if SourceOffset next - SourceEnd current <? minGap
      then coalesce_spec minGap
             (with_Size current (SourceEnd next - SourceOffset current)) rest'
      else current :: coalesce_spec minGap next rest'
  end.

Definition coalesce_fetches_spec (minGap : Z) (l : list ChunkInfo)
  : list ChunkInfo :=
  match l with
  | [] => []
  | c :: rest => coalesce_spec minGap c rest
  end.

Definition sorted_by_source (l : list ChunkInfo) : Prop :=
  Sorted (fun c d => SourceOffset c <= SourceOffset d) l.

(** Adjacent chunks of [l] are at least [minGap] bytes apart. *)
Fixpoint gaps_at_least (minGap : Z) (l : list ChunkInfo) : Prop :=
  match l with
  | c :: ((d :: _) as l') =>
      minGap <= SourceOffset d - SourceEnd c /\ gaps_at_least minGap l'
  | _ => True
  end.

End ChunksMapper.

(* ===================================================================== *)
(** ** Errors, panics, formatting and the [strings] package *)
(* ===================================================================== *)

(** Go [error] values: the sentinel [io.EOF] and errors made by
    [fmt.Errorf], identified by their message. *)
Inductive error : Type :=
| io_EOF
| Errorf (msg : string).

(** [err.Error()] *)
Definition Error (e : error) : string :=
  match e with
  | io_EOF => "EOF"
  | Errorf msg => msg
  end.

Definition is_EOF (e : option error) : bool :=
  match e with
  | Some io_EOF => true
  | _ => false
  end.

(** A call either returns or panics (division by zero, slice bounds). *)
Inductive outcome (A : Type) : Type :=
| Ret (a : A)
| Panic (msg : string).
Arguments Ret {A} a.
Arguments Panic {A} msg.

(** [%d] and [%v] of an integer: decimal digits with a leading [-]. *)
Definition fmt_d (z : Z) : string := NilZero.string_of_int (Z.to_int z).

Module GoStrings.

(** [strings.HasPrefix(s, prefix)] *)
Definition HasPrefix (s prefix : string) : bool := String.prefix prefix s.

(** [strings.Contains(s, substr)] *)
Fixpoint Contains (s substr : string) : bool :=
  String.prefix substr s ||
  match s with
  | EmptyString => false
  | String _ s' => Contains s' substr
  end.

(** [strings.LastIndex(s, sep)]: index of the last occurrence, or [-1]. *)
Fixpoint LastIndex (s sep : string) : Z :=
  match s with
  | EmptyString => if String.prefix sep s then 0 else -1
  | String _ s' =>
      let r := LastIndex s' sep in
      if 0 <=? r then r + 1
      else if String.prefix sep s then 0 else -1
  end.

(** The slice expression [s[:hi]], which panics out of bounds. *)
Definition slice_to (s : string) (hi : Z) : outcome string :=
  if (hi <? 0) || (Z.of_nat (String.length s) <? hi)
  then Panic "slice bounds out of range"
  else Ret (substring 0 (Z.to_nat hi) s).

End GoStrings.

(* ===================================================================== *)
(** ** Readers and writers ([io]) *)
(* ===================================================================== *)

Definition io_SeekStart : Z := 0.
Definition io_SeekCurrent : Z := 1.
Definition io_SeekEnd : Z := 2.

(** [io.ReadSeeker] over a state of type [S].  [rs_Read s n] stands for
    what a copy loop obtains when it asks for [n] bytes in all: the bytes
    delivered, and the error ([io.EOF] included) that stopped the reading
    when fewer than [n] came. *)
Class ReadSeeker (S : Type) : Type := {
  rs_Seek : S -> Z -> Z -> S * (Z * option error);
  rs_Read : S -> Z -> S * (list byte * option error);
}.

(** [io.WriteSeeker] over a state of type [T]: [ws_Write] returns the number
    of bytes written and the error, if any. *)
Class WriteSeeker (T : Type) : Type := {
  ws_Seek : T -> Z -> Z -> T * (Z * option error);
  ws_Write : T -> list byte -> T * (Z * option error);
}.

Definition len (bs : list byte) : Z := Z.of_nat (length bs).

(** [io.CopyN(dst, src, n)], by the contract of the standard library: it
    copies [n] bytes, or until an error; [written == n] if and only if the
    error is [nil]; an early end of [src] is reported as [io.EOF]. *)
Definition CopyN {T S : Type} `{WriteSeeker T} `{ReadSeeker S}
    (dst : T) (src : S) (n : Z) : T * S * (Z * option error) :=
  let '(src, (bs, rerr)) := rs_Read src n in
  let '(dst, (nw, werr)) :=
    match bs with
    | [] => (dst, (0, None))
    | _ => ws_Write dst bs
    end in
  let written := nw in
  let err :=
    match werr with
    | Some e => Some e
    | None =>
        if negb (nw =? len bs) then Some (Errorf "short write")
        else if is_EOF rerr then None else rerr
    end in
  if written =? n then (dst, src, (n, None))
  else if (written <? n) && negb (bool_decide (is_Some err))
       then (dst, src, (written, Some io_EOF))
       else (dst, src, (written, err)).

(** *** Files held in memory *)

(** A file: its bytes, the position of the handle, and, when the medium is
    damaged, the offset of the first byte that can be neither read nor
    written. *)
Record MemFile : Type := mkMemFile {
  contents : list byte;
  position : Z;
  fault : option Z;
}.

Definition io_error : error := Errorf "input/output error".

(** Bytes of [f] that one can reach from offset [pos] before the end of the
    file or the damaged part. *)
Definition reachable (f : MemFile) (pos : Z) : list byte :=
  let upto :=
    match fault f with
    | Some k => Z.min k (len (contents f))
    | None => len (contents f)
    end in
  take (Z.to_nat (upto - pos)) (drop (Z.to_nat pos) (contents f)).

Definition fault_before (f : MemFile) (upto : Z) : bool :=
  match fault f with
  | Some k => k <? upto
  | None => false
  end.

Definition mem_Seek (f : MemFile) (offset whence : Z)
  : MemFile * (Z * option error) :=
  let abs :=
    if whence =? io_SeekStart then Some offset
    else if whence =? io_SeekCurrent then Some (position f + offset)
    else if whence =? io_SeekEnd then Some (len (contents f) + offset)
    else None in
  match abs with
  | None => (f, (0, Some (Errorf "invalid whence")))
  | Some p =>
      if p <? 0 then (f, (0, Some (Errorf "negative position")))
      else ({| contents := contents f; position := p; fault := fault f |},
            (p, None))
  end.

Definition mem_Read (f : MemFile) (n : Z)
  : MemFile * (list byte * option error) :=
  let bs := take (Z.to_nat n) (reachable f (position f)) in
  let f' := {| contents := contents f; position := position f + len bs;
               fault := fault f |} in
  if n <=? len bs then (f', (bs, None))
  else if fault_before f (len (contents f)) then (f', (bs, Some io_error))
  else (f', (bs, Some io_EOF)).

(** Overwrite at [pos], growing the file (with zero bytes in between when
    [pos] is past the end); writing no byte changes nothing. *)
Definition write_at (data : list byte) (pos : Z) (bs : list byte)
  : list byte :=
  match bs with
  | [] => data
  | _ =>
      let p := Z.to_nat pos in
      take p data ++ repeat x00 (p - length data) ++ bs
      ++ drop (p + length bs) data
  end.

Definition mem_Write (f : MemFile) (bs : list byte)
  : MemFile * (Z * option error) :=
  let room :=
    match fault f with
    | Some k => Z.max 0 (k - position f)
    | None => len bs
    end in
  let done := take (Z.to_nat room) bs in
  let f' := {| contents := write_at (contents f) (position f) done;
               position := position f + len done; fault := fault f |} in
  if len done <? len bs then (f', (len done, Some io_error))
  else (f', (len done, None)).

#[global] Instance MemFile_ReadSeeker : ReadSeeker MemFile :=
  {| rs_Seek := mem_Seek; rs_Read := mem_Read |}.

#[global] Instance MemFile_WriteSeeker : WriteSeeker MemFile :=
  {| ws_Seek := mem_Seek; ws_Write := mem_Write |}.

(* ===================================================================== *)
(** ** The [zsync] package *)
(* ===================================================================== *)

Module ZSync.

(** [chunks.ChunkChecksum]: the scanner reads only [ChunkOffset], the block
    index of the entry. *)
Record ChunkChecksum : Type := mkChunkChecksum {
  ChunkOffset : Z;
  WeakChecksum : list byte;
  StrongChecksum : list byte;
}.

(** [index.ChecksumIndex], through the two methods the scanner calls.  A
    [nil] slice is [None]. *)
Record ChecksumIndex : Type := mkChecksumIndex {
  FindWeakChecksum2 : list byte -> option (list ChunkChecksum);
  FindStrongChecksum2 :
    list byte -> list ChunkChecksum -> option (list ChunkChecksum);
}.

Record t : Type := mk {
  BlockSize : Z;
  ChecksumsIndex : ChecksumIndex;
  RemoteFileUrl : string;
  RemoteFileSize : Z;
  RemoteFileSHA1 : string;
}.

(** [control.Control], as [NewZSync] reads it. *)
Record Control : Type := mkControl {
  c_BlockSize : Z;
  c_ChecksumIndex : ChecksumIndex;
  c_URL : string;
  c_FileLength : Z;
  c_SHA1 : string;
}.

(** *** NewZSync *)

(** The [// Relative URLs] block of [NewZSync]: the value stored back in
    [c.URL]. *)
Definition relative_url (zsyncFileUrl c_URL : string) : outcome string :=
  if negb (GoStrings.HasPrefix c_URL "http" || GoStrings.HasPrefix c_URL "ftp")
  then
    let baseURL := GoStrings.LastIndex zsyncFileUrl "/" in
    match GoStrings.slice_to zsyncFileUrl baseURL with
    | Ret base => Ret (base ++ "/" ++ c_URL)%string
    | Panic msg => Panic msg
    end
  else Ret c_URL.

Section NewZSync.

(** The network and the control-file parser are outside these files. *)
Variable Body : Type.
Variable http_Get : string -> error + Body.
Variable ReadControl : Body -> error + Control.
Variable Close : Body -> option error.

Definition NewZSync (zsyncFileUrl : string) : outcome (error + t) :=
  match http_Get zsyncFileUrl with
  | inl err => Ret (inl err)
  | inr body =>
      match ReadControl body with
      | inl err => Ret (inl err)
      | inr c =>
          match Close body with
          | Some err => Ret (inl err)
          | None =>
              match relative_url zsyncFileUrl (c_URL c) with
              | Panic msg => Panic msg
              | Ret url =>
                  Ret (inr {| BlockSize := Int64.wrap (c_BlockSize c);
                              ChecksumsIndex := c_ChecksumIndex c;
                              RemoteFileUrl := url;
                              RemoteFileSize := c_FileLength c;
                              RemoteFileSHA1 := c_SHA1 c |})
              end
          end
      end
  end.

End NewZSync.

(** *** SearchReusableChunks *)

(** The [(begin, end)] arguments of the workers that [SearchReusableChunks]
    starts, in the order of the loop, for a local file of [inputSize] bytes
    on a machine with [NumCPU] processors.  [Panic] stands for the run-time
    panic of an integer division by zero or of a negative [WaitGroup]
    counter. *)
Definition worker_ranges (BlockSize NumCPU inputSize : Z)
  : outcome (list (Z * Z)) :=
  match Int64.div inputSize BlockSize with
  | None => Panic "integer divide by zero"
  | Some nChunks0 =>
      let nChunks :=
        if Int64.mul nChunks0 BlockSize <? inputSize
        then Int64.add nChunks0 1 else nChunks0 in
      let nWorkers := if NumCPU >? nChunks then nChunks else NumCPU in
      match Int64.div nChunks nWorkers with
      | None => Panic "integer divide by zero"
      | Some nChunksPerWorker =>
          if nWorkers <? 0 then Panic "sync: negative WaitGroup counter"
          else
            Ret (map
                   (fun i : nat =>
                      let begin :=
                        Int64.mul (Int64.mul nChunksPerWorker BlockSize)
                                  (Z.of_nat i) in
                      let end_ :=
                        Int64.add begin
                                  (Int64.mul nChunksPerWorker BlockSize) in
                      (begin, if end_ >? inputSize then inputSize else end_))
                   (seq 0 (Z.to_nat nWorkers)))
      end
  end.

(** [getFileSize] fails when [os.Stat] does; [SearchReusableChunks] then
    returns the error and starts no worker. *)
Definition SearchReusableChunks (zsync : t) (NumCPU : Z)
    (getFileSize : error + Z) : outcome (error + list (Z * Z)) :=
  match getFileSize with
  | inl err => Ret (inl err)
  | inr inputSize =>
      match worker_ranges (BlockSize zsync) NumCPU inputSize with
      | Panic msg => Panic msg
      | Ret ranges => Ret (inr ranges)
      end
  end.

(** *** createChunks *)

Definition createChunk (zsync : t) (offset : Z) (match_ : ChunkChecksum)
  : ChunkInfo :=
  let newChunk :=
    {| Size := BlockSize zsync;
       Source := None;
       SourceOffset := offset;
       TargetOffset :=
         Int64.mul (Int64.wrap (ChunkOffset match_)) (BlockSize zsync) |} in
  if Int64.add (TargetOffset newChunk) (Size newChunk) >? RemoteFileSize zsync
  then with_Size newChunk
         (Int64.sub (RemoteFileSize zsync) (TargetOffset newChunk))
  else newChunk.

(** The chunks sent on [chunksChan], in order. *)
Definition createChunks (zsync : t) (strongMatches : list ChunkChecksum)
    (offset : Z) : list ChunkInfo :=
  map (createChunk zsync offset) strongMatches.

(** *** searchReusableChunksAsync *)

Section Scanner.

(** The local file handle and the [hasedbuffer.HashedRingBuffer] are outside
    these files; the scanner uses them through these operations. *)
Variable File : Type.
Variable Buf : Type.
Variable os_Open : string -> error + File.
Variable file_Seek : File -> Z -> File * option error.
Variable NewHashedBuffer : Z -> Buf.
Variable ReadFull : Buf -> File -> Buf * File * option error.
Variable ReadByte : Buf -> File -> Buf * File * option error.
Variable RollingSum : Buf -> list byte.
Variable CheckSum : Buf -> list byte.

(** The [for i := int64(0); i < nBytes; i++] loop of [consumeBytes]. *)
Fixpoint consume_loop (count : nat) (buf : Buf) (input : File)
  : Buf * File * option error :=
  match count with
  | O => (buf, input, None)
  | S count' =>
      match ReadByte buf input with
      | (buf', input', Some err) => (buf', input', Some err)
      | (buf', input', None) => consume_loop count' buf' input'
      end
  end.

Definition consumeBytes (zsync : t) (buf : Buf) (input : File) (nBytes : Z)
  : Buf * File * option error :=
  if nBytes =? BlockSize zsync then ReadFull buf input
  else consume_loop (Z.to_nat nBytes) buf input.

(** The variables of the scanning loop; [chunksChan] is what has been sent
    on the channel so far. *)
Record scan_state : Type := mkScan {
  off : Z;
  nextStep : Z;
  buf : Buf;
  input : File;
  chunksChan : list ChunkInfo;
}.

Inductive iteration : Type :=
| Break (st : scan_state)
| Continue (st : scan_state).

(** The body of [for off := begin; off < end; off += nextStep]. *)
Definition scan_body (zsync : t) (st : scan_state) : iteration :=
  match consumeBytes zsync (buf st) (input st) (nextStep st) with
  | (buf', input', Some _) =>
      Break {| off := off st; nextStep := nextStep st; buf := buf';
               input := input'; chunksChan := chunksChan st |}
  | (buf', input', None) =>
      let slide :=
        Continue {| off := off st; nextStep := 1; buf := buf';
                    input := input'; chunksChan := chunksChan st |} in
      let weakSum := RollingSum buf' in
      match FindWeakChecksum2 (ChecksumsIndex zsync) weakSum with
      | Some weakMatches =>
          let strongSum := CheckSum buf' in
          match FindStrongChecksum2 (ChecksumsIndex zsync) strongSum
                                    weakMatches with
          | Some strongMatches =>
              Continue {| off := off st; nextStep := BlockSize zsync;
                          buf := buf'; input := input';
                          chunksChan :=
                            chunksChan st
                            ++ createChunks zsync strongMatches (off st) |}
          | None => slide
          end
      | None => slide
      end
  end.

(** The post statement [off += nextStep]. *)
Definition scan_post (st : scan_state) : scan_state :=
  {| off := Int64.add (off st) (nextStep st); nextStep := nextStep st;
     buf := buf st; input := input st; chunksChan := chunksChan st |}.

(** One turn of the loop: the body, then the post statement unless the body
    broke out. *)
Definition scan_iteration (zsync : t) (st : scan_state) : iteration :=
  match scan_body zsync st with
  | Break st' => Break st'
  | Continue st' => Continue (scan_post st')
  end.

(** The loop, bounded by [fuel] turns; [None] when the fuel runs out. *)
Fixpoint scan_loop (fuel : nat) (zsync : t) (end_ : Z) (st : scan_state)
  : option scan_state :=
  if off st <? end_ then
    match fuel with
    | O => None
    | S fuel' =>
        match scan_iteration zsync st with
        | Break st' => Some st'
        | Continue st' => scan_loop fuel' zsync end_ st'
        end
    end
  else Some st.

(** What one worker sends on the channel. *)
Definition searchReusableChunksAsync (fuel : nat) (zsync : t) (path : string)
    (begin end_ : Z) : option (list ChunkInfo) :=
  match os_Open path with
  | inl _ => Some []
  | inr input0 =>
      match file_Seek input0 begin with
      | (_, Some _) => Some []
      | (input1, None) =>
          chunksChan <$>
            scan_loop fuel zsync end_
              {| off := begin; nextStep := BlockSize zsync;
                 buf := NewHashedBuffer (BlockSize zsync);
                 input := input1; chunksChan := [] |}
      end
  end.

End Scanner.

(** *** WriteChunk *)

Definition WriteChunk {S T : Type} `{ReadSeeker S} `{WriteSeeker T}
    (source : S) (target : T) (chunk : ChunkInfo) : S * T * option error :=
  let '(source, (_, err)) :=
    rs_Seek source (SourceOffset chunk) io_SeekStart in
  match err with
  | Some _ =>
      (source, target,
       Some (Errorf ("unable to seek source offset: "
                     ++ fmt_d (SourceOffset chunk))))
  | None =>
      let '(target, (_, err)) :=
        ws_Seek target (TargetOffset chunk) io_SeekStart in
      match err with
      | Some _ =>
          (source, target,
           Some (Errorf ("unable to seek target offset: "
                         ++ fmt_d (TargetOffset chunk))))
      | None =>
          let '(target, source, (n, err)) :=
            CopyN target source (Size chunk) in
          let '(target, err) :=
            if is_EOF err && (n <? Size chunk) then
              let zeros :=
                repeat x00 (Z.to_nat (Int64.sub (Size chunk) n)) in
              let '(target, (_, err)) := ws_Write target zeros in
              (target, err)
            else (target, err) in
          match err with
          | Some e =>
              (source, target,
               Some (Errorf ("unable to copy bytes: " ++ fmt_d n ++ " "
                             ++ Error e)))
          | None => (source, target, None)
          end
      end
  end.

(** *** Sync: what is fetched *)

(** The chunks that [Sync] requests from the remote file, once the reuse
    chunks received from the scan were written and added to the mapper:
    the missing chunks, optimized with a gap of [BlockSize * 64]. *)
Definition Sync_fetches (zsync : t) (reusableChunks : list ChunkInfo)
  : list ChunkInfo :=
  let chunkMapper :=
    fold_left ChunksMapper.Add reusableChunks
      (ChunksMapper.NewFileChunksMapper (RemoteFileSize zsync)) in
  let missingChunks := ChunksMapper.GetMissingChunks chunkMapper in
  ChunksMapper.OptimizeChunks missingChunks (Int64.mul (BlockSize zsync) 64).

End ZSync.

(* ===================================================================== *)
(** ** sources.HttpFileSource *)
(* ===================================================================== *)

Module HttpSource.

(** The character [34], written without a literal quote. *)
Definition dquote : string := String (ascii_of_nat 34) EmptyString.

(** An [http.Request] as [doRangeRequest] builds it: method, URL and the
    headers in the order they were added. *)
Record http_Request : Type := mkRequest {
  Method : string;
  req_URL : string;
  req_Header : list (string * string);
}.

(** An [http.Response]: status code, headers (a key maps to its values),
    and the body as the bytes it delivers followed, possibly, by a read
    error. *)
Record http_Response : Type := mkResponse {
  StatusCode : Z;
  Header : gmap string (list string);
  Body : list byte;
  BodyErr : option error;
}.

(** [Header.Get(key)]: the first value of the key, or the empty string. *)
Definition Header_Get (h : gmap string (list string)) (key : string)
  : string :=
  match h !! key with
  | Some (v :: _) => v
  | _ => EmptyString
  end.

(** The network: [http.NewRequest] rejects some URLs, and [client.Do]
    answers a request with a response or a transport error. *)
Record Transport : Type := mkTransport {
  NewRequest_err : string -> option error;
  Do : http_Request -> error + http_Response;
}.

Inductive http_Client : Type := mk_Client.

Record t : Type := mk {
  URL : string;
  Offset : Z;
  Size : Z;
  cacheBegin : Z;
  cacheEnd : Z;
  readerCache : list byte;
  client : option http_Client;
}.

Definition set_Offset (h : t) (o : Z) : t :=
  {| URL := URL h; Offset := o; Size := Size h; cacheBegin := cacheBegin h;
     cacheEnd := cacheEnd h; readerCache := readerCache h;
     client := client h |}.

Definition set_cache (h : t) (b e : Z) : t :=
  {| URL := URL h; Offset := Offset h; Size := Size h; cacheBegin := b;
     cacheEnd := e; readerCache := readerCache h; client := client h |}.

Definition set_readerCache (h : t) (bs : list byte) : t :=
  {| URL := URL h; Offset := Offset h; Size := Size h;
     cacheBegin := cacheBegin h; cacheEnd := cacheEnd h; readerCache := bs;
     client := client h |}.

Definition set_client (h : t) (c : option http_Client) : t :=
  {| URL := URL h; Offset := Offset h; Size := Size h;
     cacheBegin := cacheBegin h; cacheEnd := cacheEnd h;
     readerCache := readerCache h; client := c |}.

(** *** Seek *)

Definition Seek (h : t) (offset whence : Z) : t * (Z * option error) :=
  if whence =? 0 then (set_Offset h offset, (offset, None))
  else if whence =? 1 then
    (set_Offset h (Int64.add (Offset h) offset), (offset, None))
  else if whence =? 2 then
    (set_Offset h (Int64.add (Size h) offset), (offset, None))
  else
    (h, (-1, Some (Errorf ("Unknown whence value: " ++ fmt_d whence)))).

(** *** doRangeRequest and Request *)

Definition rangeSpecifier (range_start range_end : Z) : string :=
  "bytes=" ++ fmt_d range_start ++ "-" ++ fmt_d (Int64.sub range_end 1).

Definition rangedRequest (h : t) (range_start range_end : Z) : http_Request :=
  {| Method := "GET";
     req_URL := URL h;
     req_Header := [("Range", rangeSpecifier range_start range_end);
                    ("Accept-Encoding", "identity")] |}.

(** The requests sent so far are threaded through as [sent]. *)
Definition doRangeRequest (net : Transport) (h : t)
    (sent : list http_Request) (range_start range_end : Z)
  : t * list http_Request * (error + http_Response) :=
  match NewRequest_err net (URL h) with
  | Some err =>
      (h, sent,
       inl (Errorf ("error creating range request for " ++ dquote ++ URL h
                    ++ dquote ++ ": " ++ Error err)))
  | None =>
      let req := rangedRequest h range_start range_end in
      let h :=
        match client h with
        | None => set_client h (Some mk_Client)
        | Some _ => h
        end in
      match Do net req with
      | inl err =>
          (h, sent ++ [req],
           inl (Errorf ("Error executing request for " ++ dquote ++ URL h
                        ++ dquote ++ ": " ++ Error err)))
      | inr rangedResponse =>
          if StatusCode rangedResponse =? 404 then
            (h, sent ++ [req], inl (Errorf "URL not found"))
          else if negb (StatusCode rangedResponse =? 206) then
            (h, sent ++ [req], inl (Errorf "ranged request not supported"))
          else if GoStrings.Contains
                    (Header_Get (Header rangedResponse) "Content-Encoding")
                    "gzip" then
            (h, sent ++ [req],
             inl (Errorf "response from server was GZiped"))
          else (h, sent ++ [req], inr rangedResponse)
      end
  end.

Definition size_mismatch (n size : Z) : error :=
  Errorf ("Range size mismatch. Got: " ++ fmt_d n ++ ", expected "
          ++ fmt_d size).

Definition Request (net : Transport) (h : t) (sent : list http_Request)
    (size : Z) : t * list http_Request * option error :=
  let h := set_cache h (Offset h) (Int64.add (Offset h) size) in
  match doRangeRequest net h sent (cacheBegin h) (cacheEnd h) with
  | (h, sent, inl err) => (h, sent, Some err)
  | (h, sent, inr resp) =>
      (* [readerCache.ReadFrom(body)] appends what the body delivers *)
      let n := len (Body resp) in
      let h := set_readerCache h (readerCache h ++ Body resp) in
      match BodyErr resp with
      | Some err => (h, sent, Some err)
      | None =>
          if negb (n =? size) then (h, sent, Some (size_mismatch n size))
          else (h, sent, None)
      end
  end.

(** *** Read *)

(** [bytes.Buffer.Read] into a slice of [k] bytes. *)
Definition Buffer_Read (cache : list byte) (k : Z)
  : list byte * (list byte * option error) :=
  match cache with
  | [] => if k =? 0 then ([], ([], None)) else ([], ([], Some io_EOF))
  | _ => (drop (Z.to_nat k) cache, (take (Z.to_nat k) cache, None))
  end.

Definition Read (net : Transport) (h : t) (sent : list http_Request) (k : Z)
  : t * list http_Request * (list byte * option error) :=
  let h :=
    if negb (len (readerCache h) =? 0)
       && ((Offset h <? cacheBegin h)
           || (Int64.add (Offset h) k >? cacheEnd h))
    then set_readerCache h [] else h in
  let '(h, sent, err) :=
    if len (readerCache h) =? 0 then Request net h sent k
    else (h, sent, None) in
  match err with
  | Some e => (h, sent, ([], Some e))
  | None =>
      let '(cache, (bs, err)) := Buffer_Read (readerCache h) k in
      let h := set_readerCache h cache in
      let '(h, _) := Seek h (len bs) 1 in
      (h, sent, (bs, err))
  end.

End HttpSource.

(* ===================================================================== *)
(** ** zsync.Sync *)
(* ===================================================================== *)

Module ZSyncRun.

(** *** HttpFileSource as an io.ReadSeeker *)

(** What a copy of [remaining] bytes obtains from an [HttpFileSource]
    through [Read]: the copier hands [Read] a buffer of
    [copy_buffer remaining] bytes when [remaining] bytes are still to come
    ([io.Copy] over the [io.LimitedReader] of [io.CopyN] takes
    [min(32768, remaining)]), and goes on until all the bytes came or
    [Read] returned an error.  [fuel] bounds the turns: a [Read] into a
    buffer that is not empty returns a byte or an error, so [remaining]
    turns are enough. *)
Fixpoint read_loop (fuel : nat) (net : HttpSource.Transport)
    (copy_buffer : Z -> Z) (h : HttpSource.t)
    (sent : list HttpSource.http_Request) (remaining : Z) (got : list byte)
  : (HttpSource.t * list HttpSource.http_Request)
    * (list byte * option error) :=
  if remaining <=? 0 then ((h, sent), (got, None))
  else
    match fuel with
    | O => ((h, sent), (got, None))
    | S fuel' =>
        let '(h, sent, (bs, err)) :=
          HttpSource.Read net h sent (copy_buffer remaining) in
        match err with
        | Some e => ((h, sent), (got ++ bs, Some e))
        | None =>
            read_loop fuel' net copy_buffer h sent (remaining - len bs)
                      (got ++ bs)
        end
    end.

(** The buffer sizes of [io.Copy]. *)
Definition io_Copy_buffer (remaining : Z) : Z := Z.min 32768 remaining.

(** The source together with the requests sent so far. *)
Definition Http_ReadSeeker (net : HttpSource.Transport)
    (copy_buffer : Z -> Z)
  : ReadSeeker (HttpSource.t * list HttpSource.http_Request) :=
  {| rs_Seek := fun s offset whence =>
       let '(h, r) := HttpSource.Seek s.1 offset whence in ((h, s.2), r);
     rs_Read := fun s n =>
       read_loop (Z.to_nat n) net copy_buffer s.1 s.2 n [] |}.

Section Sync.

Context {S T : Type} `{ReadSeeker S} `{WriteSeeker T}.
Variable net : HttpSource.Transport.
Variable copy_buffer : Z -> Z.

(** The loop [for chunk := range reusableChunks] over the chunks received
    from the channel. *)
Fixpoint reuse_loop (input : S) (output : T) (chunkMapper : ChunksMapper.t)
    (reusableChunks : list ChunkInfo)
  : S * T * ChunksMapper.t * option error :=
  match reusableChunks with
  | [] => (input, output, chunkMapper, None)
  | chunk :: rest =>
      let '(input, output, err) := ZSync.WriteChunk input output chunk in
      match err with
      | Some e => (input, output, chunkMapper, Some e)
      | None =>
          reuse_loop input output (ChunksMapper.Add chunkMapper chunk) rest
      end
  end.

(** The loop [for _, chunk := range missingChunks]. *)
Fixpoint fetch_loop (missingChunksSource : HttpSource.t)
    (sent : list HttpSource.http_Request) (output : T)
    (missingChunks : list ChunkInfo)
  : HttpSource.t * list HttpSource.http_Request * T * option error :=
  match missingChunks with
  | [] => (missingChunksSource, sent, output, None)
  | chunk :: rest =>
      let '(source, (_, err)) :=
        HttpSource.Seek missingChunksSource (SourceOffset chunk)
                        io_SeekStart in
      match err with
      | Some e => (source, sent, output, Some e)
      | None =>
          let '(source, sent, err) :=
            HttpSource.Request net source sent (Size chunk) in
          match err with
          | Some e => (source, sent, output, Some e)
          | None =>
              let '(source_sent, output, err) :=
                @ZSync.WriteChunk _ _ (Http_ReadSeeker net copy_buffer) _
                  (source, sent) output chunk in
              match err with
              | Some e => (source_sent.1, source_sent.2, output, Some e)
              | None => fetch_loop source_sent.1 source_sent.2 output rest
              end
          end
      end
  end.

(** [Sync], for the chunks [reusableChunks] that the workers send on the
    channel, in the order in which they arrive.  [os_Open] is the outcome
    of opening the local file.  The result is the output, the requests
    sent, and the error returned. *)
Definition Sync (zsync : ZSync.t) (NumCPU : Z) (getFileSize : error + Z)
    (reusableChunks : list ChunkInfo) (os_Open : error + S) (output : T)
  : outcome (T * list HttpSource.http_Request * option error) :=
  match ZSync.SearchReusableChunks zsync NumCPU getFileSize with
  | Panic msg => Panic msg
  | Ret (inl err) => Ret (output, [], Some err)
  | Ret (inr _) =>
      match os_Open with
      | inl err => Ret (output, [], Some err)
      | inr input =>
          let chunkMapper :=
            ChunksMapper.NewFileChunksMapper (ZSync.RemoteFileSize zsync) in
          let '(_, output, chunkMapper, err) :=
            reuse_loop input output chunkMapper reusableChunks in
          match err with
          | Some e => Ret (output, [], Some e)
          | None =>
              let missingChunksSource :=
                {| HttpSource.URL := ZSync.RemoteFileUrl zsync;
                   HttpSource.Offset := 0;
                   HttpSource.Size := ZSync.RemoteFileSize zsync;
                   HttpSource.cacheBegin := 0;
                   HttpSource.cacheEnd := 0;
                   HttpSource.readerCache := [];
                   HttpSource.client := None |} in
              let missingChunks :=
                ChunksMapper.GetMissingChunks chunkMapper in
              let missingChunks :=
                ChunksMapper.OptimizeChunks missingChunks
                  (Int64.mul (ZSync.BlockSize zsync) 64) in
              let '(_, sent, output, err) :=
                fetch_loop missingChunksSource [] output missingChunks in
              Ret (output, sent, err)
          end
      end
  end.

End Sync.

End ZSyncRun.

(* ===================================================================== *)
(** * Vocabulary of the properties *)
(* ===================================================================== *)

(** The number of blocks of a file, the last one possibly short. *)
Definition block_count (BlockSize inputSize : Z) : Z :=
  (inputSize + BlockSize - 1) / BlockSize.

(** Offset [x] falls in one of the ranges. *)
Definition in_some_range (ranges : list (Z * Z)) (x : Z) : Prop :=
  exists r, r ∈ ranges /\ r.1 <= x < r.2.

(** The split as the specification states it: [W] workers, with
    [W = min(NumCPU, floor(size / BlockSize))] raised to [1] when it is
    less, whose ranges cover every offset of the file. *)
Definition split_as_specified (zsync : ZSync.t) (NumCPU inputSize : Z)
  : Prop :=
  exists ranges,
    ZSync.SearchReusableChunks zsync NumCPU (inr inputSize)
    = Ret (inr ranges) /\
    Z.of_nat (length ranges)
    = Z.max 1 (Z.min NumCPU (inputSize / ZSync.BlockSize zsync)) /\
    forall x, 0 <= x < inputSize -> in_some_range ranges x.

(** The one request that [Request(size)] sends: a GET of the source's URL
    for the bytes [Offset .. Offset + size - 1]. *)
Definition range_request (h : HttpSource.t) (size : Z)
  : HttpSource.http_Request :=
  {| HttpSource.Method := "GET";
     HttpSource.req_URL := HttpSource.URL h;
     HttpSource.req_Header :=
       [("Range",
         ("bytes=" ++ fmt_d (HttpSource.Offset h) ++ "-"
          ++ fmt_d (HttpSource.Offset h + size - 1))%string);
        ("Accept-Encoding", "identity")] |}.

Definition gzip_coded (resp : HttpSource.http_Response) : bool :=
  GoStrings.Contains
    (HttpSource.Header_Get (HttpSource.Header resp) "Content-Encoding")
    "gzip".

(** [chain p ms R]: the chunks [ms] follow one another from [p] on, without
    overlap, each of positive size, and end by [R]. *)
Fixpoint chain (p : Z) (ms : list ChunkInfo) (R : Z) : Prop :=
  match ms with
  | [] => p <= R
  | c :: ms' => p <= TargetOffset c /\ 0 < Size c /\ chain (TargetEnd c) ms' R
  end.

(** The end of a chunk as [OptimizeChunks] computes it. *)
Definition src_end (c : ChunkInfo) : Z := Int64.add (SourceOffset c) (Size c).

(** The test [end + minGap > nextChunk.SourceOffset]. *)
Definition absorbs (minGap end_ : Z) (next : ChunkInfo) : bool :=
  Int64.add end_ minGap >? SourceOffset next.

(** [chunk] after [end = nextEnd; chunk.Size = end - chunk.SourceOffset]. *)
Definition extend (chunk next : ChunkInfo) : ChunkInfo :=
  with_Size chunk (Int64.sub (src_end next) (SourceOffset chunk)).

(** The inner loop read on the list of the chunks from index [n] on, as long
    as the test succeeds: the final [end] and [chunk], and how many chunks
    were taken in. *)
Fixpoint absorb (minGap end_ : Z) (chunk : ChunkInfo) (rest : list ChunkInfo)
  : Z * ChunkInfo * nat :=
  match rest with
  | [] => (end_, chunk, O)
  | next :: rest' =>
      if absorbs minGap end_ next then
        let '(e, c, k) := absorb minGap (src_end next) (extend chunk next)
                                 rest' in
        (e, c, S k)
      else (end_, chunk, O)
  end.

(** Both loops read on lists: [cur] is the chunk being extended, with its
    running end, and [rest] the chunks not yet looked at. *)
Fixpoint run (minGap : Z) (cur : option (Z * ChunkInfo))
    (rest : list ChunkInfo) : list ChunkInfo :=
  match rest with
  | [] =>
      match cur with
      | Some (_, chunk) => [chunk]
      | None => []
      end
  | next :: rest' =>
      let fresh :=
        if absorbs minGap (src_end next) next
        then run minGap (Some (src_end next, extend next next)) rest'
        else next :: run minGap None rest' in
      match cur with
      | None => fresh
      | Some (e, chunk) =>
          if absorbs minGap e next
          then run minGap (Some (src_end next, extend chunk next)) rest'
          else chunk :: fresh
      end
  end.

Definition starts_from (lo : Z) (cur : option (Z * ChunkInfo)) : Prop :=
  match cur with
  | Some (_, chunk) => lo <= SourceOffset chunk
  | None => True
  end.

(** [settled g l]: no chunk of [l] would take in a later one, and the test
    of a chunk against itself, when it succeeds, leaves the size as it
    is. *)
Fixpoint settled (g : Z) (l : list ChunkInfo) : Prop :=
  match l with
  | [] => True
  | c :: l' =>
      (absorbs g (src_end c) c = true -> extend c c = c) /\
      Forall (fun d => absorbs g (src_end c) d = false) l' /\
      settled g l'
  end.

(** A fetch chunk whose offsets stay clear of overflow when the gap is
    added. *)
Definition fetch_in_range (minGap : Z) (c : ChunkInfo) : Prop :=
  0 <= SourceOffset c /\ 0 <= Size c /\
  SourceOffset c + Size c + minGap <= Int64.max_int.

Definition set_position (f : MemFile) (p : Z) : MemFile :=
  {| contents := contents f; position := p; fault := fault f |}.

(** The bytes a read of [n] bytes at offset [pos] can get. *)
Definition bytes_at (f : MemFile) (pos n : Z) : list byte :=
  take (Z.to_nat n) (drop (Z.to_nat pos) (contents f)).

Definition written_to (f : MemFile) (bs : list byte) : MemFile :=
  {| contents := write_at (contents f) (position f) bs;
     position := position f + len bs; fault := fault f |}.

(** A file is damaged in the bytes [[pos, pos + n)] that are there to be
    read. *)
Definition unreadable (f : MemFile) (pos n : Z) : Prop :=
  exists k, fault f = Some k /\ k < len (contents f) /\ k < pos + n.

(** A file cannot take [n] bytes at [pos]. *)
Definition unwritable (f : MemFile) (pos n : Z) : Prop :=
  exists k, fault f = Some k /\ k < pos + n.

(* ===================================================================== *)
(** * Sample inputs *)
(* ===================================================================== *)

Definition sample_source : HttpSource.t :=
  {| HttpSource.URL := "http://host/file"; HttpSource.Offset := 100;
     HttpSource.Size := 1000; HttpSource.cacheBegin := 0;
     HttpSource.cacheEnd := 0; HttpSource.readerCache := [];
     HttpSource.client := None |}.

Definition sample_index : ZSync.ChecksumIndex :=
  {| ZSync.FindWeakChecksum2 := fun _ => None;
     ZSync.FindStrongChecksum2 := fun _ _ => None |}.

Definition sample_control : ZSync.Control :=
  {| ZSync.c_BlockSize := 16; ZSync.c_ChecksumIndex := sample_index;
     ZSync.c_URL := "file.bin"; ZSync.c_FileLength := 70;
     ZSync.c_SHA1 := "" |}.

Definition sample_zsync : ZSync.t :=
  {| ZSync.BlockSize := 16; ZSync.ChecksumsIndex := sample_index;
     ZSync.RemoteFileUrl := "http://host/dir/file.bin";
     ZSync.RemoteFileSize := 70; ZSync.RemoteFileSHA1 := "" |}.

Definition block (i : Z) : ZSync.ChunkChecksum :=
  {| ZSync.ChunkOffset := i; ZSync.WeakChecksum := [];
     ZSync.StrongChecksum := [] |}.

Definition hit_index : ZSync.ChecksumIndex :=
  {| ZSync.FindWeakChecksum2 := fun _ => Some [block 1];
     ZSync.FindStrongChecksum2 := fun _ wm => Some (wm ++ [block 3]) |}.

Definition hit_zsync : ZSync.t :=
  {| ZSync.BlockSize := 16; ZSync.ChecksumsIndex := hit_index;
     ZSync.RemoteFileUrl := "http://host/dir/file.bin";
     ZSync.RemoteFileSize := 70; ZSync.RemoteFileSHA1 := "" |}.

(** A window that is the last bytes read, over a file that is the list of
    the bytes not yet read. *)
Definition list_ReadFull (b f : list byte)
  : list byte * list byte * option error :=
  if (length f <? 16)%nat then (b, f, Some io_EOF)
  else (take 16 f, drop 16 f, None).

Definition list_ReadByte (b f : list byte)
  : list byte * list byte * option error :=
  match f with
  | [] => (b, f, Some io_EOF)
  | x :: f' => (drop 1 b ++ [x], f', None)
  end.



(** A server that holds 1000 bytes and answers the ranged GET of
    [sample_source] for 50 bytes with status 206 and 50 bytes. *)
Definition partial_content : HttpSource.http_Response :=
  {| HttpSource.StatusCode := 206;
     HttpSource.Header := {[ "Content-Encoding" := ["identity"] ]};
     HttpSource.Body := repeat x01 50;
     HttpSource.BodyErr := None |}.

Definition sample_net : HttpSource.Transport :=
  {| HttpSource.NewRequest_err := fun _ => None;
     HttpSource.Do := fun _ => inr partial_content |}.

Definition reuse (source target size : Z) : ChunkInfo :=
  {| Size := size; Source := None; SourceOffset := source;
     TargetOffset := target |}.

(** Three reuse chunks of a remote file of 70 bytes, as a scan could send
    them: out of order, the last one the short tail. *)
Definition sample_reuse : list ChunkInfo :=
  [reuse 100 48 16; reuse 0 16 16; reuse 5 64 6].

Definition fetch (begin size : Z) : ChunkInfo :=
  {| Size := size; Source := None; SourceOffset := begin;
     TargetOffset := begin |}.

(** The fetches of the coalescing scenario, with two more further on. *)
Definition sample_fetches : list ChunkInfo :=
  [fetch 0 10; fetch 200 100; fetch 2000 5; fetch 2500 1].

(** A local file of 8 bytes, and an output of 64 bytes to which the short
    last block of a remote file of 70 bytes is still to be added. *)
Definition local_file : MemFile :=
  {| contents := [x01; x02; x03; x04; x05; x06; x07; x08];
     position := 0; fault := None |}.

Definition output_file : MemFile :=
  {| contents := repeat xff 64; position := 0; fault := None |}.

(* ===================================================================== *)
(** * Vocabulary of the further properties *)
(* ===================================================================== *)

(** Every chunk of the map sits under its own target offset. *)
Definition keyed_by_target (m : gmap Z ChunkInfo) : Prop :=
  map_Forall (fun k c => TargetOffset c = k) m.

(** [c] is in [cs], and no chunk after it in [cs] has its target offset. *)
Definition last_with_target (cs : list ChunkInfo) (c : ChunkInfo) : Prop :=
  exists i : nat,
    cs !! i = Some c /\
    forall (j : nat) (d : ChunkInfo),
      (i < j)%nat -> cs !! j = Some d -> TargetOffset d <> TargetOffset c.

(** Two chunks for the same block of the target, or for blocks that do not
    overlap. *)
Definition same_or_disjoint (c d : ChunkInfo) : Prop :=
  (TargetOffset c = TargetOffset d /\ Size c = Size d) \/
  ChunksMapper.disjoint c d.

(** A chunk that [createChunks] makes for a block that starts inside the
    remote file. *)
Definition scanned (zsync : ZSync.t) (c : ChunkInfo) : Prop :=
  exists (offset : Z) (m : ZSync.ChunkChecksum),
    c = ZSync.createChunk zsync offset m /\
    0 <= ZSync.ChunkOffset m /\
    ZSync.ChunkOffset m * ZSync.BlockSize zsync < ZSync.RemoteFileSize zsync.

(** What the plan of a mapper is asked to be: ascending, without overlap or
    empty chunk, covering [[0, R)] and nothing else. *)
Definition partitions (R : Z) (plan : list ChunkInfo) : Prop :=
  ChunksMapper.sorted_by_target plan /\
  ChunksMapper.pairwise_disjoint plan /\
  Forall (fun c => 0 < Size c) plan /\
  forall x, 0 <= x < R <-> exists c, c ∈ plan /\ ChunksMapper.covers c x.

(** The scan of a remote file of 70 bytes in blocks of 16 that found block 1
    at two places of the local file, and the short last block once. *)
Definition sample_scan : list ChunkInfo :=
  [ZSync.createChunk sample_zsync 100 (block 1);
   ZSync.createChunk sample_zsync 5 (block 4);
   ZSync.createChunk sample_zsync 0 (block 1)].

(** A scan that found every block of the remote file of 70 bytes. *)
Definition sample_full_scan : list ChunkInfo :=
  [ZSync.createChunk sample_zsync 32 (block 2);
   ZSync.createChunk sample_zsync 0 (block 0);
   ZSync.createChunk sample_zsync 64 (block 4);
   ZSync.createChunk sample_zsync 16 (block 1);
   ZSync.createChunk sample_zsync 48 (block 3)].

(** Chunks in a row by source offset: each ends before the next starts. *)
Fixpoint in_a_row (l : list ChunkInfo) : Prop :=
  match l with
  | c :: ((d :: _) as l') => SourceEnd c <= SourceOffset d /\ in_a_row l'
  | _ => True
  end.

(** The source bytes of [c] are among those of some chunk of [out]. *)
Definition inside (out : list ChunkInfo) (c : ChunkInfo) : Prop :=
  exists c', c' ∈ out /\
    SourceOffset c' <= SourceOffset c /\ SourceEnd c <= SourceEnd c'.

(** What [OptimizeChunks] keeps of a chunk whatever it merges into it. *)
Definition offsets (c : ChunkInfo) : Z * Z * option nat :=
  (SourceOffset c, TargetOffset c, Source c).

(** A block checksum that the index gave as a strong match. *)
Definition from_index (zsync : ZSync.t) (m : ZSync.ChunkChecksum) : Prop :=
  exists strongSum weakMatches strongMatches,
    ZSync.FindStrongChecksum2 (ZSync.ChecksumsIndex zsync) strongSum
                              weakMatches = Some strongMatches /\
    m ∈ strongMatches.

(** A chunk that a worker scanning [[begin, end_)] made from a match. *)
Definition sent_by_scan (zsync : ZSync.t) (begin end_ : Z) (c : ChunkInfo)
  : Prop :=
  begin <= SourceOffset c < end_ /\
  exists m, from_index zsync m /\
            c = ZSync.createChunk zsync (SourceOffset c) m.

(** Two chunks read from the same window of the local file, or from
    windows of [B] bytes that do not overlap, the first one before. *)
Definition same_or_apart (B : Z) (c d : ChunkInfo) : Prop :=
  SourceOffset c = SourceOffset d \/ SourceOffset c + B <= SourceOffset d.

(** A local file of 40 bytes for the scanner over lists. *)
Definition list_Open (path : string) : error + list byte :=
  inr (repeat x01 40).

Definition list_Seek (f : list byte) (offset : Z)
  : list byte * option error :=
  (drop (Z.to_nat offset) f, None).

(** The server answers [req] with status 206, no gzip coding, and the
    bytes [body], read to their end. *)
Definition serves (net : HttpSource.Transport)
    (req : HttpSource.http_Request) (body : list byte) : Prop :=
  exists resp,
    HttpSource.Do net req = inr resp /\
    HttpSource.StatusCode resp = 206 /\ gzip_coded resp = false /\
    HttpSource.BodyErr resp = None /\ HttpSource.Body resp = body.

(** [doRangeRequest] makes a client when the source has none. *)
Definition with_client (h : HttpSource.t) : HttpSource.t :=
  match HttpSource.client h with
  | None => HttpSource.set_client h (Some HttpSource.mk_Client)
  | Some _ => h
  end.

(** The source after [Request(size)] read [body] into the cache. *)
Definition requested (h : HttpSource.t) (size : Z) (body : list byte)
  : HttpSource.t :=
  HttpSource.set_readerCache
    (with_client
       (HttpSource.set_cache h (HttpSource.Offset h)
                             (HttpSource.Offset h + size)))
    (HttpSource.readerCache h ++ body).

(** The request is not for bytes of the cached window. *)
Definition outside_window (h : HttpSource.t) (k : Z) : Prop :=
  HttpSource.readerCache h = [] \/
  HttpSource.Offset h < HttpSource.cacheBegin h \/
  HttpSource.cacheEnd h < HttpSource.Offset h + k.

(** [sample_source] with the 50 bytes from offset 100 in its cache. *)
Definition cached_source : HttpSource.t :=
  {| HttpSource.URL := "http://host/file"; HttpSource.Offset := 100;
     HttpSource.Size := 1000; HttpSource.cacheBegin := 100;
     HttpSource.cacheEnd := 150; HttpSource.readerCache := repeat x01 50;
     HttpSource.client := Some HttpSource.mk_Client |}.

(** A network that is down. *)
Definition no_net : HttpSource.Transport :=
  {| HttpSource.NewRequest_err := fun _ => None;
     HttpSource.Do := fun _ => inl (Errorf "connection refused") |}.

(** A server that answers with status 206 and 20 bytes, whatever the
    range asked for. *)
Definition short_net : HttpSource.Transport :=
  {| HttpSource.NewRequest_err := fun _ => None;
     HttpSource.Do := fun _ =>
       inr {| HttpSource.StatusCode := 206;
              HttpSource.Header := ∅;
              HttpSource.Body := repeat x02 20;
              HttpSource.BodyErr := None |} |}.

(** The request that [Sync] sends for a fetch chunk. *)
Definition fetch_request (url : string) (c : ChunkInfo)
  : HttpSource.http_Request :=
  {| HttpSource.Method := "GET";
     HttpSource.req_URL := url;
     HttpSource.req_Header :=
       [("Range",
         ("bytes=" ++ fmt_d (SourceOffset c) ++ "-"
          ++ fmt_d (SourceOffset c + Size c - 1))%string);
        ("Accept-Encoding", "identity")] |}.

(** The bytes that [WriteChunk] writes for a reuse chunk [c] of the local
    file [local]: those of the source, and zeros up to [Size]. *)
Definition reused (local : list byte) (c : ChunkInfo) : list byte :=
  let got :=
    take (Z.to_nat (Size c)) (drop (Z.to_nat (SourceOffset c)) local) in
  got ++ repeat x00 (Z.to_nat (Size c - len got)).

(** The bytes of the remote file in the target range of [c]. *)
Definition slice (remote : list byte) (c : ChunkInfo) : list byte :=
  take (Z.to_nat (Size c)) (drop (Z.to_nat (TargetOffset c)) remote).

(** A copier that never hands [Read] an empty buffer, nor one larger than
    what is still to come. *)
Definition never_empty (copy_buffer : Z -> Z) : Prop :=
  forall r, 0 < r -> 0 < copy_buffer r <= r.

(** A sequence of writes [(pos, bytes)] applied to the bytes of a file. *)
Definition writes (ws : list (Z * list byte)) (data : list byte)
  : list byte :=
  fold_left (fun d w => write_at d w.1 w.2) ws data.

(** A remote file of 70 bytes, a server that answers every request with
    these 70 bytes, an old local copy of 40 bytes and an output file that
    is empty. *)
Definition remote_file : list byte := repeat x01 70.

Definition whole_file_net : HttpSource.Transport :=
  {| HttpSource.NewRequest_err := fun _ => None;
     HttpSource.Do := fun _ =>
       inr {| HttpSource.StatusCode := 206;
              HttpSource.Header := ∅;
              HttpSource.Body := remote_file;
              HttpSource.BodyErr := None |} |}.

Definition old_file : MemFile :=
  {| contents := repeat x01 40; position := 0; fault := None |}.

Definition new_file : MemFile :=
  {| contents := []; position := 0; fault := None |}.

(** The error of [doRangeRequest] for a status that is not 206. *)
Definition refusal (status : Z) : error :=
  if status =? 404 then Errorf "URL not found"
  else Errorf "ranged request not supported".

(** A server that answers every request with status 404. *)
Definition not_found_net : HttpSource.Transport :=
  {| HttpSource.NewRequest_err := fun _ => None;
     HttpSource.Do := fun _ =>
       inr {| HttpSource.StatusCode := 404;
              HttpSource.Header := ∅;
              HttpSource.Body := [];
              HttpSource.BodyErr := None |} |}.

(** An output medium that fails from offset 20 on. *)
Definition full_disk : MemFile :=
  {| contents := []; position := 0; fault := Some 20 |}.

(** A write of bytes of [remote] at their place. *)
Definition in_place (remote : list byte) (w : Z * list byte) : Prop :=
  0 <= w.1 /\ w.2 <> [] /\ w.1 + len w.2 <= len remote /\
  w.2 = take (length w.2) (drop (Z.to_nat w.1) remote).

(* ===================================================================== *)
(** * Properties *)
(* ===================================================================== *)

(** ** Arithmetic of [int64] *)

Lemma wrap_in_range z : Int64.in_range (Int64.wrap z).
Proof.
  unfold Int64.in_range, Int64.wrap, Int64.min_int, Int64.max_int.
  pose proof (Z.mod_pos_bound (z + 2 ^ 63) (2 ^ 64) ltac:(lia)). lia.
Qed.

Lemma wrap_id z : Int64.in_range z -> Int64.wrap z = z.
Proof.
  unfold Int64.in_range, Int64.wrap, Int64.min_int, Int64.max_int.
  intros Hz. rewrite Z.mod_small; lia.
Qed.

Lemma wrap_add_l a b : Int64.wrap (Int64.wrap a + b) = Int64.wrap (a + b).
Proof.
  unfold Int64.wrap.
  replace ((a + 2 ^ 63) mod 2 ^ 64 - 2 ^ 63 + b + 2 ^ 63)
    with ((a + 2 ^ 63) mod 2 ^ 64 + b) by lia.
  rewrite Zplus_mod_idemp_l. do 2 f_equal. lia.
Qed.

Lemma wrap_add_r a b : Int64.wrap (a + Int64.wrap b) = Int64.wrap (a + b).
Proof. rewrite Z.add_comm, wrap_add_l. f_equal. lia. Qed.

(** [(b + s) - b] is [s] again, whatever wrapped on the way. *)
Lemma sub_add_cancel b s :
  Int64.sub (Int64.add b s) b = Int64.wrap s.
Proof.
  unfold Int64.sub, Int64.add.
  replace (Int64.wrap (b + s) - b) with (Int64.wrap (b + s) + (- b)) by lia.
  rewrite wrap_add_l. f_equal. lia.
Qed.

(** [b + (e - b)] is [e] again for every [e] that is an [int64]. *)
Lemma add_sub_cancel b e :
  Int64.in_range e -> Int64.add b (Int64.sub e b) = e.
Proof.
  intros He. unfold Int64.sub, Int64.add. rewrite wrap_add_r.
  replace (b + (e - b)) with e by lia. by apply wrap_id.
Qed.

Lemma add_exact a b : Int64.in_range (a + b) -> Int64.add a b = a + b.
Proof. apply wrap_id. Qed.

Lemma sub_exact a b : Int64.in_range (a - b) -> Int64.sub a b = a - b.
Proof. apply wrap_id. Qed.

Lemma mul_exact a b : Int64.in_range (a * b) -> Int64.mul a b = a * b.
Proof. apply wrap_id. Qed.

Ltac int64 :=
  unfold Int64.in_range, Int64.min_int, Int64.max_int in *; try lia.

(** ** HttpFileSource.Seek *)

(** C9.  For the whence values 0, 1 and 2, [Seek] sets [Offset] to
    [offset], [Offset + offset] and [Size + offset] (in [int64] arithmetic,
    which is the exact sum whenever that sum is an [int64]) and returns the
    [offset] argument itself, not the position reached; for every other
    whence it returns [-1] with an error and leaves the source as it was. *)
Theorem Seek_whence_cases (h : HttpSource.t) (offset whence : Z) :
  let '(h', (ret, err)) := HttpSource.Seek h offset whence in
  (whence = 0 ->
     HttpSource.Offset h' = offset /\ ret = offset /\ err = None) /\
  (whence = 1 ->
     HttpSource.Offset h' = Int64.add (HttpSource.Offset h) offset /\
     (Int64.in_range (HttpSource.Offset h + offset) ->
      HttpSource.Offset h' = HttpSource.Offset h + offset) /\
     ret = offset /\ err = None) /\
  (whence = 2 ->
     HttpSource.Offset h' = Int64.add (HttpSource.Size h) offset /\
     (Int64.in_range (HttpSource.Size h + offset) ->
      HttpSource.Offset h' = HttpSource.Size h + offset) /\
     ret = offset /\ err = None) /\
  (whence <> 0 -> whence <> 1 -> whence <> 2 ->
     h' = h /\ ret = -1 /\ is_Some err).
Proof.
  unfold HttpSource.Seek.
  destruct (Z.eqb_spec whence 0) as [->|H0]; [cbn; repeat split; done|].
  destruct (Z.eqb_spec whence 1) as [->|H1].
  { cbn. repeat split; try done. intros. by apply add_exact. }
  destruct (Z.eqb_spec whence 2) as [->|H2].
  { cbn. repeat split; try done. intros. by apply add_exact. }
  repeat split; first [done | by eexists].
Qed.

Lemma Seek_whence_cases_witness :
  HttpSource.Offset (HttpSource.Seek sample_source 7 1).1 = 107 /\
  (HttpSource.Seek sample_source 7 1).2 = (7, None) /\
  (HttpSource.Seek sample_source 7 3).2.1 = -1.
Proof.
  pose proof (Seek_whence_cases sample_source 7 1) as H1.
  pose proof (Seek_whence_cases sample_source 7 3) as H3.
  destruct (HttpSource.Seek sample_source 7 1) as [h1 [r1 e1]].
  destruct (HttpSource.Seek sample_source 7 3) as [h3 [r3 e3]].
  destruct H1 as (_ & H1 & _). destruct H3 as (_ & _ & _ & H3).
  destruct (H1 eq_refl) as (_ & Ho & -> & ->).
  destruct (H3 ltac:(lia) ltac:(lia) ltac:(lia)) as (_ & -> & _).
  cbn. split; [|done]. apply Ho. cbn. int64.
Defined.

(** ** NewZSync: relative URLs *)

Lemma LastIndex_absent (s : string) :
  GoStrings.Contains s "/" = false -> GoStrings.LastIndex s "/" = -1.
Proof.
  induction s as [|c s IH]; [done|].
  cbn [GoStrings.Contains GoStrings.LastIndex].
  intros [Hp Hs]%orb_false_iff. rewrite (IH Hs). cbn [Z.leb Z.compare].
  by rewrite Hp.
Qed.

Lemma LastIndex_nonneg_bound (s sep : string) :
  -1 <= GoStrings.LastIndex s sep <= Z.of_nat (String.length s).
Proof.
  induction s as [|c s IH]; cbn [GoStrings.LastIndex String.length].
  - destruct (String.prefix sep ""); lia.
  - destruct (Z.leb_spec 0 (GoStrings.LastIndex s sep)); [lia|].
    destruct (String.prefix sep (String c s)); lia.
Qed.

Lemma append_nil_l (s : string) : ("" ++ s)%string = s.
Proof. reflexivity. Qed.

Lemma append_cons (c : ascii) (a b : string) :
  (String c a ++ b)%string = String c (a ++ b).
Proof. reflexivity. Qed.

(** The last ["/"] of [base/last] is the one written between them. *)
Lemma LastIndex_segment (base last : string) :
  GoStrings.Contains last "/" = false ->
  GoStrings.LastIndex (base ++ "/" ++ last) "/"
  = Z.of_nat (String.length base).
Proof.
  intros Hlast. induction base as [|c base IH].
  - rewrite append_nil_l, append_cons, append_nil_l.
    cbn [GoStrings.LastIndex String.length].
    rewrite (LastIndex_absent _ Hlast). by destruct last.
  - rewrite append_cons. cbn [GoStrings.LastIndex String.length].
    rewrite IH. destruct (Z.leb_spec 0 (Z.of_nat (String.length base))); lia.
Qed.

Lemma substring_prefix (base rest : string) :
  substring 0 (String.length base) (base ++ rest) = base.
Proof.
  induction base as [|c base IH].
  - rewrite append_nil_l. by destruct rest.
  - rewrite append_cons. cbn [String.length substring]. by rewrite IH.
Qed.

Lemma length_append (a b : string) :
  String.length (a ++ b) = (String.length a + String.length b)%nat.
Proof.
  induction a as [|c a IH]; [done|].
  rewrite append_cons. cbn [String.length]. by rewrite IH.
Qed.

Lemma slice_to_prefix (base rest : string) :
  GoStrings.slice_to (base ++ rest) (Z.of_nat (String.length base))
  = Ret base.
Proof.
  unfold GoStrings.slice_to. rewrite length_append, Nat2Z.id.
  destruct (Z.ltb_spec (Z.of_nat (String.length base)) 0); [lia|].
  destruct (Z.ltb_spec
              (Z.of_nat (String.length base + String.length rest))
              (Z.of_nat (String.length base))); [lia|].
  cbn [orb]. by rewrite substring_prefix.
Qed.

Lemma relative_url_absolute (zsyncFileUrl c_URL : string) :
  GoStrings.HasPrefix c_URL "http" = true \/
  GoStrings.HasPrefix c_URL "ftp" = true ->
  ZSync.relative_url zsyncFileUrl c_URL = Ret c_URL.
Proof.
  unfold ZSync.relative_url. by intros [-> | ->]; rewrite ?orb_true_r.
Qed.

Lemma relative_url_segment (base last c_URL : string) :
  GoStrings.HasPrefix c_URL "http" = false ->
  GoStrings.HasPrefix c_URL "ftp" = false ->
  GoStrings.Contains last "/" = false ->
  ZSync.relative_url (base ++ "/" ++ last) c_URL
  = Ret (base ++ "/" ++ c_URL)%string.
Proof.
  intros Hh Hf Hlast. unfold ZSync.relative_url. rewrite Hh, Hf. cbn [orb negb].
  rewrite (LastIndex_segment _ _ Hlast). by rewrite slice_to_prefix.
Qed.

Section NewZSync_facts.

Variable Body : Type.
Variable http_Get : string -> error + Body.
Variable ReadControl : Body -> error + ZSync.Control.
Variable Close : Body -> option error.

(** C8.  When the control file was fetched and parsed, and its URL
    [base/last] is cut at its last ["/"] ([last] holds none): a control URL
    that starts with neither ["http"] nor ["ftp"] becomes [base/url], and
    one that starts with ["http"] or ["ftp"] is kept as it is. *)
Theorem NewZSync_relative_url (base last : string) (body : Body)
    (c : ZSync.Control) :
  GoStrings.Contains last "/" = false ->
  http_Get (base ++ "/" ++ last) = inr body ->
  ReadControl body = inr c ->
  Close body = None ->
  exists z : ZSync.t,
    ZSync.NewZSync Body http_Get ReadControl Close (base ++ "/" ++ last)
    = Ret (inr z) /\
    (GoStrings.HasPrefix (ZSync.c_URL c) "http" = false ->
     GoStrings.HasPrefix (ZSync.c_URL c) "ftp" = false ->
     ZSync.RemoteFileUrl z = (base ++ "/" ++ ZSync.c_URL c)%string) /\
    (GoStrings.HasPrefix (ZSync.c_URL c) "http" = true \/
     GoStrings.HasPrefix (ZSync.c_URL c) "ftp" = true ->
     ZSync.RemoteFileUrl z = ZSync.c_URL c).
Proof.
  intros Hlast Hget Hread Hclose. unfold ZSync.NewZSync.
  rewrite Hget, Hread, Hclose.
  destruct (GoStrings.HasPrefix (ZSync.c_URL c) "http") eqn:Hh.
  { rewrite relative_url_absolute by (left; done).
    eexists. split; [done|]. cbn. split; [done|]. by intros _. }
  destruct (GoStrings.HasPrefix (ZSync.c_URL c) "ftp") eqn:Hf.
  { rewrite relative_url_absolute by (right; done).
    eexists. split; [done|]. cbn. split; [done|]. by intros _. }
  rewrite relative_url_segment by done.
  eexists. split; [done|]. cbn. split; [done|]. by intros [?|?].
Qed.

End NewZSync_facts.

Lemma NewZSync_relative_url_witness :
  exists z : ZSync.t,
    ZSync.NewZSync unit (fun _ => inr tt) (fun _ => inr sample_control)
      (fun _ => None) "http://host/dir/file.zsync" = Ret (inr z) /\
    ZSync.RemoteFileUrl z = "http://host/dir/file.bin".
Proof.
  destruct (NewZSync_relative_url unit (fun _ => inr tt)
              (fun _ => inr sample_control) (fun _ => None)
              "http://host/dir" "file.zsync" tt sample_control
              eq_refl eq_refl eq_refl eq_refl) as (z & Hz & Hrel & _).
  exists z. split; [exact Hz|]. exact (Hrel eq_refl eq_refl).
Defined.

(** ** createChunks *)

Lemma createChunk_fields (zsync : ZSync.t) (offset : Z)
    (m : ZSync.ChunkChecksum) :
  let B := ZSync.BlockSize zsync in
  let R := ZSync.RemoteFileSize zsync in
  let T := ZSync.ChunkOffset m * B in
  0 <= ZSync.ChunkOffset m -> 0 < B -> T + B <= Int64.max_int ->
  0 <= R <= Int64.max_int ->
  let c := ZSync.createChunk zsync offset m in
  SourceOffset c = offset /\ TargetOffset c = T /\
  (T + B <= R -> Size c = B) /\
  (R < T + B -> Size c = R - T) /\
  TargetOffset c + Size c <= R.
Proof.
  intros B R T Hm HB HT HR. unfold ZSync.createChunk. cbn [TargetOffset Size].
  fold B R.
  assert (0 <= T) by (unfold T; nia).
  assert (ZSync.ChunkOffset m <= T + B) by (unfold T; nia).
  rewrite (wrap_id (ZSync.ChunkOffset m)) by int64.
  rewrite (mul_exact _ B) by (fold T; int64). fold T.
  rewrite (add_exact T B) by int64.
  rewrite (sub_exact R T) by int64.
  destruct (Z.gtb_spec (T + B) R); cbn; repeat split; lia.
Qed.

(** C5.  Each chunk that [createChunks] sends has [Size = BlockSize],
    unless [TargetOffset + BlockSize] exceeds the remote size, in which case
    [Size = RemoteFileSize - TargetOffset]; so [TargetOffset + Size] never
    exceeds the remote size.  (Block indices are non-negative, the block
    size is positive and [index * BlockSize + BlockSize] fits an [int64].) *)
Theorem createChunks_size (zsync : ZSync.t)
    (strongMatches : list ZSync.ChunkChecksum) (offset : Z) :
  0 < ZSync.BlockSize zsync ->
  0 <= ZSync.RemoteFileSize zsync <= Int64.max_int ->
  Forall (fun m => 0 <= ZSync.ChunkOffset m /\
                   ZSync.ChunkOffset m * ZSync.BlockSize zsync
                   + ZSync.BlockSize zsync <= Int64.max_int) strongMatches ->
  Forall (fun c =>
            (TargetOffset c + ZSync.BlockSize zsync
             <= ZSync.RemoteFileSize zsync ->
             Size c = ZSync.BlockSize zsync) /\
            (ZSync.RemoteFileSize zsync
             < TargetOffset c + ZSync.BlockSize zsync ->
             Size c = ZSync.RemoteFileSize zsync - TargetOffset c) /\
            TargetOffset c + Size c <= ZSync.RemoteFileSize zsync)
         (ZSync.createChunks zsync strongMatches offset).
Proof.
  intros HB HR Hms. unfold ZSync.createChunks. apply Forall_fmap.
  eapply Forall_impl; [exact Hms|]. intros m [Hm Hfit]. cbn.
  destruct (createChunk_fields zsync offset m Hm HB Hfit HR)
    as (_ & -> & Hfull & Hcut & Hend).
  repeat split; assumption.
Qed.

Lemma createChunks_size_witness :
  Size <$> ZSync.createChunks sample_zsync [block 1; block 4] 100 = [16; 6] /\
  Forall (fun c => TargetOffset c + Size c <= 70)
         (ZSync.createChunks sample_zsync [block 1; block 4] 100).
Proof.
  split; [reflexivity|].
  eapply Forall_impl.
  - apply (createChunks_size sample_zsync [block 1; block 4] 100).
    + cbn. lia.
    + cbn. int64.
    + repeat constructor; cbn; int64.
  - cbn. intros c (_ & _ & H). exact H.
Defined.

(** ** The sliding-window loop *)

Section Scanner_facts.

Variable File : Type.
Variable Buf : Type.
Variable ReadFull : Buf -> File -> Buf * File * option error.
Variable ReadByte : Buf -> File -> Buf * File * option error.
Variable RollingSum : Buf -> list byte.
Variable CheckSum : Buf -> list byte.

Local Abbreviation scan_state := (ZSync.scan_state File Buf).
Local Abbreviation scan_iteration :=
  (ZSync.scan_iteration File Buf ReadFull ReadByte RollingSum CheckSum).
Local Abbreviation scan_loop :=
  (ZSync.scan_loop File Buf ReadFull ReadByte RollingSum CheckSum).
Local Abbreviation consumeBytes :=
  (ZSync.consumeBytes File Buf ReadFull ReadByte).
Local Abbreviation off := (ZSync.off File Buf).
Local Abbreviation nextStep := (ZSync.nextStep File Buf).
Local Abbreviation chunksChan := (ZSync.chunksChan File Buf).

(** Every chunk of [createChunks] is a match at the offset given. *)
Lemma createChunks_at (zsync : ZSync.t) (ms : list ZSync.ChunkChecksum)
    (offset : Z) :
  length (ZSync.createChunks zsync ms offset) = length ms /\
  Forall (fun c => SourceOffset c = offset)
         (ZSync.createChunks zsync ms offset).
Proof.
  unfold ZSync.createChunks. split; [apply length_fmap|].
  apply Forall_fmap, Forall_true. intros m. unfold ZSync.createChunk. cbn.
  by case_match.
Qed.


Lemma consumeBytes_one (zsync : ZSync.t) (b : Buf) (f : File) :
  ZSync.BlockSize zsync <> 1 ->
  consumeBytes zsync b f 1 = ReadByte b f.
Proof.
  intros HB. unfold ZSync.consumeBytes.
  destruct (Z.eqb_spec 1 (ZSync.BlockSize zsync)); [congruence|].
  change (Z.to_nat 1) with 1%nat. cbn [ZSync.consume_loop].
  by destruct (ReadByte b f) as [[b' f'] [e|]].
Qed.



(** A turn that continues moves the offset forward by [1] or by
    [BlockSize]. *)
Lemma scan_iteration_progress (zsync : ZSync.t) (st st' : scan_state) :
  scan_iteration zsync st = ZSync.Continue File Buf st' ->
  off st' = Int64.add (off st) 1 \/
  off st' = Int64.add (off st) (ZSync.BlockSize zsync).
Proof.
  unfold ZSync.scan_iteration, ZSync.scan_body.
  destruct (consumeBytes _ _ _ _) as [[b i] [e|]]; [done|].
  destruct (ZSync.FindWeakChecksum2 _ _) as [wm|];
    [destruct (ZSync.FindStrongChecksum2 _ _ _) as [sm|]|];
    intros [= <-]; cbn; auto.
Qed.

(** The loop ends: with a positive block size and no overflow before
    [end], [end - off] turns are enough. *)
Lemma scan_loop_terminates (zsync : ZSync.t) (end_ : Z) (fuel : nat)
    (st : scan_state) :
  0 < ZSync.BlockSize zsync ->
  end_ + ZSync.BlockSize zsync <= Int64.max_int ->
  Int64.min_int <= off st ->
  end_ - off st <= Z.of_nat fuel ->
  is_Some (scan_loop fuel zsync end_ st).
Proof.
  intros HB Hend. revert st.
  induction fuel as [|fuel IH]; intros st Hlo Hfuel; cbn [ZSync.scan_loop].
  - destruct (Z.ltb_spec (off st) end_); [lia|by eexists].
  - destruct (Z.ltb_spec (off st) end_) as [Hlt|]; [|by eexists].
    destruct (scan_iteration zsync st) as [st'|st'] eqn:Hit; [by eexists|].
    apply scan_iteration_progress in Hit.
    rewrite !add_exact in Hit by int64.
    apply IH; int64.
Qed.

End Scanner_facts.


(** ** SearchReusableChunks: the split among workers *)

Lemma div_exact (a b : Z) :
  0 <= a <= Int64.max_int -> 0 < b -> Int64.div a b = Some (a / b).
Proof.
  intros Ha Hb. unfold Int64.div.
  destruct (Z.eqb_spec b 0); [lia|].
  rewrite Z.quot_div_nonneg by lia.
  pose proof (Z.div_pos a b ltac:(lia) Hb).
  pose proof (Z.div_le_upper_bound a b a Hb ltac:(nia)).
  rewrite wrap_id; [done|int64].
Qed.

(** The rounding up that [nChunks++] performs. *)
Lemma block_count_round_up (B n : Z) :
  0 < B -> 0 <= n ->
  block_count B n = if n / B * B <? n then n / B + 1 else n / B.
Proof.
  intros HB Hn. unfold block_count.
  pose proof (Z.div_mod n B ltac:(lia)) as Hdm.
  pose proof (Z.mod_pos_bound n B HB) as Hm.
  destruct (Z.ltb_spec (n / B * B) n).
  - symmetry. apply Z.div_unique with (r := n mod B - 1); lia.
  - symmetry. apply Z.div_unique with (r := B - 1); lia.
Qed.

Lemma block_count_bounds (B n : Z) :
  0 < B -> 0 < n ->
  1 <= block_count B n /\ n <= block_count B n * B < n + B.
Proof.
  intros HB Hn. unfold block_count.
  pose proof (Z.div_mod (n + B - 1) B ltac:(lia)) as Hdm.
  pose proof (Z.mod_pos_bound (n + B - 1) B HB) as Hm.
  assert (1 <= (n + B - 1) / B) by (apply Z.div_le_lower_bound; lia).
  lia.
Qed.

(** What [worker_ranges] computes for a file that is not empty. *)
Lemma worker_ranges_nonempty (B NumCPU n : Z) :
  0 < B -> 1 <= NumCPU <= Int64.max_int -> 0 < n ->
  n + B <= Int64.max_int ->
  let W := Z.min NumCPU (block_count B n) in
  let k := block_count B n / W in
  ZSync.worker_ranges B NumCPU n
  = Ret (map (fun i : nat =>
                (k * B * Z.of_nat i,
                 Z.min (k * B * Z.of_nat i + k * B) n))
             (seq 0 (Z.to_nat W))).
Proof.
  intros HB HCPU Hn Hfit W k.
  destruct (block_count_bounds B n HB Hn) as [Hc1 Hc2].
  assert (1 <= W) as HW by (unfold W; lia).
  assert (W <= block_count B n) as HWc by (unfold W; lia).
  assert (block_count B n <= n) as Hcn by nia.
  pose proof (Z.div_mod (block_count B n) W ltac:(lia)) as Hdm.
  pose proof (Z.mod_pos_bound (block_count B n) W ltac:(lia)) as Hm.
  fold k in Hdm.
  assert (1 <= k) as Hk by (unfold k; apply Z.div_le_lower_bound; lia).
  assert (W * k <= block_count B n) as HWk by lia.
  unfold ZSync.worker_ranges.
  rewrite div_exact by int64.
  pose proof (Z.div_mod n B ltac:(lia)) as Hdn.
  pose proof (Z.mod_pos_bound n B HB) as Hmn.
  assert (0 <= n / B) by (apply Z.div_pos; lia).
  rewrite (mul_exact (n / B) B) by (int64; nia).
  rewrite (add_exact (n / B) 1) by (int64; nia).
  rewrite <- (block_count_round_up B n) by lia.
  replace (if NumCPU >? block_count B n then block_count B n else NumCPU)
    with W by (unfold W; destruct (Z.gtb_spec NumCPU (block_count B n)); lia).
  rewrite div_exact by int64. fold k.
  destruct (Z.ltb_spec W 0); [lia|].
  f_equal. apply map_ext_in. intros i Hi%in_seq.
  assert (0 <= Z.of_nat i < W) as HiW by lia.
  assert (k * B * Z.of_nat i + k * B <= block_count B n * B) as Hend.
  { transitivity (W * k * B); [nia|]. apply Z.mul_le_mono_nonneg_r; lia. }
  assert (0 <= k * B * Z.of_nat i) by nia.
  assert (0 < k * B) by nia.
  rewrite (mul_exact k B) by int64.
  rewrite (mul_exact (k * B) (Z.of_nat i)) by int64.
  rewrite add_exact by int64.
  f_equal. destruct (Z.gtb_spec (k * B * Z.of_nat i + k * B) n); lia.
Qed.

(** C3, as amended.  For a local file that is not empty,
    [SearchReusableChunks] starts [W = min(NumCPU, ceil(size / BlockSize))]
    workers, [W] is at least 1, worker [i] gets the range that starts at
    [i * k * BlockSize] and is [k * BlockSize] bytes long, cut at the end of
    the file, with [k = floor(blocks / W)]; and when [W] divides the number
    of blocks these ranges cover every offset of the file. *)
Theorem SearchReusableChunks_split (zsync : ZSync.t) (NumCPU inputSize : Z) :
  0 < ZSync.BlockSize zsync -> 1 <= NumCPU <= Int64.max_int ->
  0 < inputSize -> inputSize + ZSync.BlockSize zsync <= Int64.max_int ->
  let blocks := block_count (ZSync.BlockSize zsync) inputSize in
  let W := Z.min NumCPU blocks in
  let k := blocks / W in
  exists ranges,
    ZSync.SearchReusableChunks zsync NumCPU (inr inputSize)
    = Ret (inr ranges) /\
    Z.of_nat (length ranges) = W /\ 1 <= W /\
    (forall i : nat,
       Z.of_nat i < W ->
       ranges !! i
       = Some (Z.of_nat i * k * ZSync.BlockSize zsync,
               Z.min ((Z.of_nat i + 1) * k * ZSync.BlockSize zsync)
                     inputSize)) /\
    (blocks mod W = 0 ->
     forall x, 0 <= x < inputSize -> in_some_range ranges x).
Proof.
  intros HB HCPU Hn Hfit blocks W k. set (B := ZSync.BlockSize zsync) in *.
  destruct (block_count_bounds B inputSize HB Hn) as [Hc1 Hc2].
  fold blocks in Hc1, Hc2.
  assert (1 <= W) as HW by (unfold W; lia).
  unfold ZSync.SearchReusableChunks. fold B.
  rewrite worker_ranges_nonempty by done. fold blocks. fold W. fold k.
  eexists. split; [reflexivity|].
  assert (forall i : nat,
            Z.of_nat i < W ->
            map (fun i : nat =>
                   (k * B * Z.of_nat i,
                    Z.min (k * B * Z.of_nat i + k * B) inputSize))
                (seq 0 (Z.to_nat W)) !! i
            = Some (Z.of_nat i * k * B,
                    Z.min ((Z.of_nat i + 1) * k * B) inputSize))
    as Hlookup.
  { intros i Hi.
    change (map ?f ?l) with (f <$> l). rewrite list_lookup_fmap.
    rewrite lookup_seq_lt by lia. cbn. do 2 f_equal; lia. }
  split; [rewrite length_map, length_seq; lia|].
  split; [done|]. split; [exact Hlookup|].
  intros Hdiv x Hx.
  pose proof (Z.div_mod blocks W ltac:(lia)) as Hdm.
  fold k in Hdm. rewrite Hdiv in Hdm.
  assert (1 <= k) as Hk by nia.
  assert (0 < k * B) as HkB by nia.
  pose proof (Z.div_mod x (k * B) ltac:(lia)) as Hxd.
  pose proof (Z.mod_pos_bound x (k * B) HkB) as Hxm.
  assert (0 <= x / (k * B)) as Hq by (apply Z.div_pos; lia).
  assert (x / (k * B) < W) as HqW.
  { apply Z.div_lt_upper_bound; [lia|]. nia. }
  exists (Z.of_nat (Z.to_nat (x / (k * B))) * k * B,
          Z.min ((Z.of_nat (Z.to_nat (x / (k * B))) + 1) * k * B) inputSize).
  split.
  - apply list_elem_of_lookup. exists (Z.to_nat (x / (k * B))).
    apply Hlookup. lia.
  - rewrite Z2Nat.id by lia. cbn. nia.
Qed.

Lemma SearchReusableChunks_split_witness :
  exists ranges,
    ZSync.SearchReusableChunks sample_zsync 4 (inr 120) = Ret (inr ranges) /\
    Z.of_nat (length ranges) = 4 /\
    ranges !! 3%nat = Some (96, 120) /\
    forall x, 0 <= x < 120 -> in_some_range ranges x.
Proof.
  destruct (SearchReusableChunks_split sample_zsync 4 120)
    as (ranges & Hr & Hlen & _ & Hi & Hc); [cbn; int64 ..|].
  exists ranges. split; [exact Hr|]. split; [exact Hlen|].
  split; [apply (Hi 3%nat); reflexivity|].
  apply Hc. reflexivity.
Defined.

(** C3 as stated fails: a file of 24 bytes in blocks of 16 on 4 processors
    is given to 2 workers, one per block and the short block included,
    where [min(NumCPU, floor(24 / 16))] is 1. *)
Lemma SearchReusableChunks_not_floor : ~ split_as_specified sample_zsync 4 24.
Proof.
  intros (ranges & Hr & Hlen & _).
  vm_compute in Hr. injection Hr as <-. vm_compute in Hlen. discriminate.
Qed.

(** Two more departures from the stated split, both outside the amended
    statement: an empty file stops [SearchReusableChunks] with a division
    by zero, and a block count that [W] does not divide leaves the end of
    the file to no worker. *)
Lemma SearchReusableChunks_empty_file :
  ZSync.SearchReusableChunks sample_zsync 4 (inr 0)
  = Panic "integer divide by zero".
Proof. reflexivity. Qed.

Lemma SearchReusableChunks_uncovered_tail :
  ZSync.SearchReusableChunks sample_zsync 4 (inr 80)
  = Ret (inr [(0, 16); (16, 32); (32, 48); (48, 64)]) /\
  ~ in_some_range [(0, 16); (16, 32); (32, 48); (48, 64)] 70.
Proof.
  split; [reflexivity|].
  intros (r & Hin & Hr).
  repeat (apply elem_of_cons in Hin as [-> | Hin]; [cbn in Hr; lia|]).
  by apply elem_of_nil in Hin.
Qed.

(** ** HttpFileSource.Request *)

Lemma rangedRequest_range (h : HttpSource.t) (size : Z) :
  Int64.in_range (HttpSource.Offset h + size) ->
  Int64.in_range (HttpSource.Offset h + size - 1) ->
  let h1 := HttpSource.set_cache h (HttpSource.Offset h)
              (Int64.add (HttpSource.Offset h) size) in
  HttpSource.rangedRequest h1 (HttpSource.cacheBegin h1)
    (HttpSource.cacheEnd h1)
  = range_request h size.
Proof.
  intros H1 H2. unfold HttpSource.rangedRequest, range_request,
    HttpSource.rangeSpecifier. cbn.
  by rewrite add_exact, sub_exact.
Qed.



(* ===================================================================== *)
(** ** The planner: mapped and missing chunks *)
(* ===================================================================== *)

Section Planner.

Import ChunksMapper.

Local Abbreviation le_target :=
  (fun c d : ChunkInfo => TargetOffset c <= TargetOffset d).

(** [ends_before c d]: chunk [c] is over where [d] starts. *)
Local Abbreviation ends_before :=
  (fun c d : ChunkInfo => TargetEnd c <= TargetOffset d).

(** *** The stable sort *)

Lemma insert_stable_perm (x : ChunkInfo) (l : list ChunkInfo) :
  insert_stable x l ≡ₚ x :: l.
Proof.
  induction l as [|y l IH]; cbn; [done|].
  destruct (less y x); [|done]. rewrite IH. apply Permutation_swap.
Qed.

Lemma SliceStable_perm (l : list ChunkInfo) : SliceStable l ≡ₚ l.
Proof.
  induction l as [|x l IH]; cbn; [done|].
  fold (SliceStable l). by rewrite insert_stable_perm, IH.
Qed.

Lemma insert_stable_sorted (x : ChunkInfo) (l : list ChunkInfo) :
  StronglySorted le_target l -> StronglySorted le_target (insert_stable x l).
Proof.
  induction 1 as [|y l Hl IH Hy]; cbn.
  - repeat constructor.
  - unfold less. destruct (Z.ltb_spec (TargetOffset y) (TargetOffset x)).
    + constructor; [done|]. rewrite insert_stable_perm.
      constructor; [lia|done].
    + constructor; [by constructor|]. constructor; [done|].
      eapply Forall_impl; [exact Hy|]. cbn. lia.
Qed.

Lemma SliceStable_sorted (l : list ChunkInfo) :
  StronglySorted le_target (SliceStable l).
Proof.
  induction l as [|x l IH]; cbn; [constructor|].
  by apply insert_stable_sorted.
Qed.

(** *** The map after the chunks were added *)

Lemma FillChunksMap_fileSize (cs : list ChunkInfo) (m : t) :
  fileSize (FillChunksMap m cs) = fileSize m.
Proof.
  revert m. induction cs as [|c cs IH]; intros m; [done|].
  cbn. unfold FillChunksMap in IH. by rewrite IH.
Qed.

Lemma FillChunksMap_values (cs : list ChunkInfo) (m : t) :
  NoDup (TargetOffset <$> cs) ->
  Forall (fun c => chunksMap m !! TargetOffset c = None) cs ->
  (snd <$> map_to_list (chunksMap (FillChunksMap m cs)))
  ≡ₚ (snd <$> map_to_list (chunksMap m)) ++ cs.
Proof.
  revert m. induction cs as [|c cs IH]; intros m Hnd Hfresh.
  - by rewrite app_nil_r.
  - apply NoDup_cons in Hnd as [Hc Hnd].
    apply Forall_cons in Hfresh as [Hcm Hfresh].
    change (FillChunksMap m (c :: cs)) with (FillChunksMap (Add m c) cs).
    rewrite IH; [|done|].
    + cbn [Add chunksMap]. rewrite map_to_list_insert by done. cbn.
      by rewrite Permutation_middle.
    + cbn [Add chunksMap]. apply Forall_forall. intros d Hd.
      rewrite lookup_insert_ne.
      * by eapply Forall_forall in Hfresh.
      * intros Heq. apply Hc. rewrite Heq. by apply list_elem_of_fmap_2.
Qed.

Lemma missing_source_is_target (R p : Z) (ms : list ChunkInfo) :
  Forall (fun c => SourceOffset c = TargetOffset c) (missing_loop R p ms).
Proof.
  revert p. induction ms as [|c ms IH]; intros p; cbn.
  - destruct (negb _); by repeat constructor.
  - apply Forall_app. split; [|apply IH].
    destruct (negb _); by repeat constructor.
Qed.

(** *** Reuse chunks in a row *)

Lemma chain_of_sorted (p R : Z) (ms : list ChunkInfo) :
  StronglySorted ends_before ms ->
  Forall (fun c => p <= TargetOffset c /\ 0 < Size c /\ TargetEnd c <= R) ms ->
  p <= R -> chain p ms R.
Proof.
  intros Hs. revert p. induction Hs as [|c ms Hs IH Hc]; intros p Hb Hp.
  - done.
  - apply Forall_cons in Hb as [(Hpc & Hsz & HR) Hb]. cbn.
    split; [done|]. split; [done|]. apply IH; [|done].
    apply Forall_forall. intros d Hd.
    pose proof (proj1 (Forall_forall _ _) Hb d Hd) as (_ & ? & ?).
    pose proof (proj1 (Forall_forall _ _) Hc d Hd). cbn in *. auto.
Qed.

Lemma chain_le (p R : Z) (ms : list ChunkInfo) : chain p ms R -> p <= R.
Proof.
  revert p. induction ms as [|c ms IH]; intros p; cbn; [done|].
  intros (? & ? & Hc%IH). unfold TargetEnd in Hc. lia.
Qed.

(** Chunks that are pairwise disjoint and of positive size, once sorted by
    target offset, end before the next one starts. *)
Lemma sorted_disjoint_ends_before (ms : list ChunkInfo) :
  StronglySorted le_target ms ->
  NoDup ms ->
  (forall c d, c ∈ ms -> d ∈ ms -> c <> d -> disjoint c d) ->
  Forall (fun c => 0 < Size c) ms ->
  StronglySorted ends_before ms.
Proof.
  induction 1 as [|c ms Hs IH Hc]; intros Hnd Hdis Hpos; constructor.
  - apply IH.
    + by apply NoDup_cons in Hnd as [_ ?].
    + intros a b Ha Hb. apply Hdis; by apply list_elem_of_further.
    + by apply Forall_cons in Hpos as [_ ?].
  - apply Forall_forall. intros d Hd.
    apply NoDup_cons in Hnd as [Hnc _].
    pose proof (proj1 (Forall_forall _ _) Hc d Hd) as Hle. cbn in Hle.
    pose proof (proj1 (Forall_forall _ _) Hpos d
                  (list_elem_of_further _ _ _ Hd) : 0 < Size d) as Hd0.
    assert (c <> d) as Hne by (intros ->; done).
    destruct (Hdis c d (list_elem_of_here _ _)
                (list_elem_of_further _ _ _ Hd) Hne) as [?|Hrev]; [done|].
    unfold TargetEnd in Hrev. lia.
Qed.

(** *** Merging the two lists *)

Lemma merge_nil_l (ys : list ChunkInfo) : merge_by_target [] ys = ys.
Proof. by destruct ys. Qed.

Lemma merge_nil_r (xs : list ChunkInfo) : merge_by_target xs [] = xs.
Proof. by destruct xs. Qed.

Lemma merge_cons_cons (x y : ChunkInfo) (xs ys : list ChunkInfo) :
  merge_by_target (x :: xs) (y :: ys)
  = if TargetOffset x <=? TargetOffset y
    then x :: merge_by_target xs (y :: ys)
    else y :: merge_by_target (x :: xs) ys.
Proof. reflexivity. Qed.

Lemma merge_first (x : ChunkInfo) (xs ys : list ChunkInfo) :
  Forall (fun y => TargetOffset x <= TargetOffset y) ys ->
  merge_by_target (x :: xs) ys = x :: merge_by_target xs ys.
Proof.
  destruct ys as [|y ys]; [by rewrite !merge_nil_r|].
  intros [Hy _]%Forall_cons. rewrite merge_cons_cons.
  destruct (Z.leb_spec (TargetOffset x) (TargetOffset y)); [done|lia].
Qed.

(** The missing chunks computed from cursor [p] on start at [p] or later. *)
Lemma missing_loop_from (R p : Z) (ms : list ChunkInfo) :
  R <= Int64.max_int -> 0 <= p -> chain p ms R ->
  Forall (fun y => p <= TargetOffset y) (missing_loop R p ms).
Proof.
  intros HR. revert p. induction ms as [|c ms IH]; intros p Hp Hch; cbn.
  - destruct (negb _); by repeat constructor.
  - destruct Hch as (Hpc & Hsz & Hch).
    pose proof (chain_le _ _ _ Hch) as Hend. unfold TargetEnd in *.
    rewrite add_exact by int64.
    apply Forall_app. split.
    + destruct (negb _); by repeat constructor.
    + eapply Forall_impl; [apply IH; [lia|done]|]. cbn. lia.
Qed.

(** The plan tiles the file: merged, the reuse chunks and the gaps between
    them follow one another from the cursor to the end of the file. *)
Lemma merge_missing_tiles (R p : Z) (ms : list ChunkInfo) :
  R <= Int64.max_int -> 0 <= p -> chain p ms R ->
  tiles p (merge_by_target ms (missing_loop R p ms)) R.
Proof.
  intros HR. revert p. induction ms as [|c ms IH]; intros p Hp Hch.
  - cbn in Hch. cbn [missing_loop]. rewrite merge_nil_l.
    destruct (Z.eqb_spec p R) as [->|Hne]; cbn; [done|].
    unfold TargetEnd. cbn. rewrite sub_exact by int64. lia.
  - destruct Hch as (Hpc & Hsz & Hch).
    pose proof (chain_le _ _ _ Hch) as Hend.
    pose proof (missing_loop_from R (TargetEnd c) ms HR
                  ltac:(unfold TargetEnd; lia) Hch) as Hlow.
    specialize (IH (TargetEnd c) ltac:(unfold TargetEnd; lia) Hch).
    cbn [missing_loop]. unfold TargetEnd in *.
    rewrite add_exact by int64.
    assert (merge_by_target (c :: ms)
              (missing_loop R (TargetOffset c + Size c) ms)
            = c :: merge_by_target ms
                     (missing_loop R (TargetOffset c + Size c) ms)) as Hc.
    { apply merge_first. eapply Forall_impl; [exact Hlow|]. cbn. lia. }
    destruct (Z.eqb_spec p (TargetOffset c)) as [->|Hne]; cbn [negb app].
    + rewrite Hc. cbn. auto.
    + rewrite merge_cons_cons. cbn [missing TargetOffset].
      destruct (Z.leb_spec (TargetOffset c) p); [lia|].
      rewrite Hc. cbn [tiles]. unfold TargetEnd.
      cbn [missing Size TargetOffset]. rewrite !sub_exact by int64.
      repeat split; try lia. exact IH.
Qed.

(** *** What a tiling gives *)

Lemma tiles_bounds (a b : Z) (l : list ChunkInfo) :
  tiles a l b ->
  a <= b /\
  Forall (fun c => a <= TargetOffset c /\ 0 < Size c /\ TargetEnd c <= b) l.
Proof.
  revert a. induction l as [|c l IH]; intros a; cbn.
  - intros ->. split; [lia|constructor].
  - intros (<- & Hsz & [Hle Hl]%IH). unfold TargetEnd in *.
    split; [lia|]. constructor; [lia|].
    eapply Forall_impl; [exact Hl|]. cbn. lia.
Qed.

Lemma tiles_ends_before (a b : Z) (l : list ChunkInfo) :
  tiles a l b -> StronglySorted ends_before l.
Proof.
  revert a. induction l as [|c l IH]; intros a; cbn; [constructor|].
  intros (<- & Hsz & Hl). constructor; [by eapply IH|].
  apply tiles_bounds in Hl as [_ Hl].
  eapply Forall_impl; [exact Hl|]. cbn. lia.
Qed.

Lemma tiles_covers (a b : Z) (l : list ChunkInfo) (x : Z) :
  tiles a l b -> (a <= x < b <-> exists c, c ∈ l /\ covers c x).
Proof.
  revert a. induction l as [|c l IH]; intros a; cbn.
  - intros ->. split; [lia|]. intros (c & Hc & _). by apply elem_of_nil in Hc.
  - intros (<- & Hsz & Hl). pose proof (tiles_bounds _ _ _ Hl) as [Hle _].
    specialize (IH _ Hl). unfold covers, TargetEnd in *. split.
    + intros Hx. destruct (Z.lt_ge_cases x (TargetOffset c + Size c)).
      * exists c. split; [apply list_elem_of_here|lia].
      * destruct (proj1 IH ltac:(lia)) as (d & Hd & Hdx).
        exists d. split; [by apply list_elem_of_further|done].
    + intros (d & [->|Hd]%elem_of_cons & Hdx); [lia|].
      assert (TargetOffset c + Size c <= x < b); [|lia].
      apply IH. by exists d.
Qed.

Lemma StronglySorted_lookup_lt {A : Type} (R : relation A) (l : list A)
    (i j : nat) (x y : A) :
  StronglySorted R l -> (i < j)%nat ->
  l !! i = Some x -> l !! j = Some y -> R x y.
Proof.
  intros Hs. revert i j. induction Hs as [|a l Hs IH Ha]; intros i j Hij.
  - by rewrite lookup_nil.
  - destruct j as [|j]; [lia|]. destruct i as [|i]; cbn.
    + intros [= ->] Hy. eapply Forall_forall in Ha; [done|].
      by eapply list_elem_of_lookup_2.
    + apply IH. lia.
Qed.

Lemma ends_before_disjoint (l : list ChunkInfo) :
  StronglySorted ends_before l -> pairwise_disjoint l.
Proof.
  intros Hs i j c d Hij Hc Hd. unfold disjoint.
  destruct (Nat.lt_ge_cases i j).
  - left. exact (StronglySorted_lookup_lt _ l i j c d Hs H Hc Hd).
  - right.
    exact (StronglySorted_lookup_lt _ l j i d c Hs ltac:(lia) Hd Hc).
Qed.

Lemma tiles_sorted (a b : Z) (l : list ChunkInfo) :
  tiles a l b -> sorted_by_target l.
Proof.
  revert a. induction l as [|c l IH]; intros a; cbn; [constructor|].
  intros (<- & Hsz & Hl). constructor; [by eapply IH|].
  apply tiles_bounds in Hl as [_ Hl].
  eapply Forall_impl; [exact Hl|]. unfold TargetEnd. cbn. lia.
Qed.

(** *** Chunks as they were added *)

Lemma disjoint_distinct_targets (cs : list ChunkInfo) :
  Forall (fun c => 0 < Size c) cs -> pairwise_disjoint cs ->
  NoDup (TargetOffset <$> cs).
Proof.
  intros Hpos Hdis. apply NoDup_alt. intros i j x.
  rewrite !list_lookup_fmap.
  destruct (cs !! i) as [c|] eqn:Hc; [|done].
  destruct (cs !! j) as [d|] eqn:Hd; [|done].
  cbn. intros [= <-] [= Heq].
  destruct (decide (i = j)) as [|Hne]; [done|exfalso].
  pose proof (proj1 (Forall_forall _ _) Hpos c
                (list_elem_of_lookup_2 _ _ _ Hc)) as Hc0.
  pose proof (proj1 (Forall_forall _ _) Hpos d
                (list_elem_of_lookup_2 _ _ _ Hd)) as Hd0.
  destruct (Hdis i j c d Hne Hc Hd) as [H|H]; unfold TargetEnd in H;
    cbn in *; lia.
Qed.

Lemma disjoint_elements (cs : list ChunkInfo) :
  pairwise_disjoint cs ->
  forall c d, c ∈ cs -> d ∈ cs -> c <> d -> disjoint c d.
Proof.
  intros Hdis c d [i Hi]%list_elem_of_lookup_1 [j Hj]%list_elem_of_lookup_1 Hne.
  apply (Hdis i j); [|done..]. intros ->. congruence.
Qed.

(** The missing chunks are fetch chunks in ascending order, inside the
    file. *)
Lemma missing_loop_fetches (R p : Z) (ms : list ChunkInfo) :
  R <= Int64.max_int -> 0 <= p -> chain p ms R ->
  StronglySorted (fun c d => SourceOffset c <= SourceOffset d)
                 (missing_loop R p ms) /\
  Forall (fun y => p <= SourceOffset y /\ 0 < Size y /\
                   SourceOffset y + Size y <= R)
         (missing_loop R p ms).
Proof.
  intros HR. revert p. induction ms as [|c ms IH]; intros p Hp Hch.
  - cbn in Hch. cbn [missing_loop].
    destruct (Z.eqb_spec p R) as [->|Hne]; cbn [negb].
    + split; constructor.
    + split; [repeat constructor|].
      constructor; [|done]. cbn. rewrite sub_exact by int64. lia.
  - destruct Hch as (Hpc & Hsz & Hch).
    pose proof (chain_le _ _ _ Hch) as Hend. unfold TargetEnd in *.
    cbn [missing_loop]. rewrite add_exact by int64.
    destruct (IH (TargetOffset c + Size c) ltac:(lia) Hch) as [IHs IHb].
    clear IH.
    assert (Forall (fun y => p <= SourceOffset y /\ 0 < Size y /\
                             SourceOffset y + Size y <= R)
                   (missing_loop R (TargetOffset c + Size c) ms)) as Hb.
    { eapply Forall_impl; [exact IHb|]. cbn. lia. }
    destruct (Z.eqb_spec p (TargetOffset c)) as [->|Hne]; cbn [negb app].
    + by split.
    + split.
      * constructor; [done|]. cbn.
        eapply Forall_impl; [exact IHb|]. cbn. lia.
      * constructor; [|done]. cbn. rewrite sub_exact by int64. lia.
Qed.

Lemma GetMappedChunks_chain (R : Z) (cs : list ChunkInfo) :
  Forall (fun c => 0 < Size c /\ 0 <= TargetOffset c /\ TargetEnd c <= R) cs ->
  pairwise_disjoint cs -> 0 <= R ->
  let mapper := FillChunksMap (NewFileChunksMapper R) cs in
  GetMappedChunks mapper ≡ₚ cs /\ chain 0 (GetMappedChunks mapper) R.
Proof.
  intros Hcs Hdis HR mapper.
  assert (Forall (fun c => 0 < Size c) cs) as Hpos.
  { eapply Forall_impl; [exact Hcs|]. cbn. tauto. }
  pose proof (disjoint_distinct_targets cs Hpos Hdis) as Hnd.
  assert (GetMappedChunks mapper ≡ₚ cs) as Hperm.
  { unfold GetMappedChunks, GetMappedChunksFrom. rewrite SliceStable_perm.
    unfold mapper. rewrite FillChunksMap_values; [|done|].
    - cbn. by rewrite map_to_list_empty.
    - apply Forall_true. intros c. cbn. apply lookup_empty. }
  split; [done|].
  apply chain_of_sorted; [| |done].
  - apply sorted_disjoint_ends_before.
    + apply SliceStable_sorted.
    + rewrite Hperm. by eapply NoDup_fmap_1.
    + intros c d Hc Hd. rewrite Hperm in Hc, Hd.
      by apply (disjoint_elements cs).
    + by rewrite Hperm.
  - rewrite Hperm. eapply Forall_impl; [exact Hcs|]. cbn. tauto.
Qed.

End Planner.

(** C1.  Reuse chunks that are pairwise disjoint, of positive size and
    within [[0, R)] are added to a mapper for a remote file of [R] bytes.
    Then the mapped and the missing chunks, merged by target offset, are
    sorted ascending by target offset, pairwise disjoint, without a chunk of
    size zero, and cover exactly the offsets of [[0, R)]; and every missing
    chunk has its source offset equal to its target offset. *)
Theorem planned_chunks_partition (R : Z) (cs : list ChunkInfo) :
  0 <= R <= Int64.max_int ->
  Forall (fun c => 0 < Size c /\ 0 <= TargetOffset c /\ TargetEnd c <= R) cs ->
  ChunksMapper.pairwise_disjoint cs ->
  let mapper :=
    ChunksMapper.FillChunksMap (ChunksMapper.NewFileChunksMapper R) cs in
  let plan := ChunksMapper.PlannedChunks mapper in
  ChunksMapper.sorted_by_target plan /\
  ChunksMapper.pairwise_disjoint plan /\
  Forall (fun c => Size c <> 0) plan /\
  (forall x, 0 <= x < R <-> exists c, c ∈ plan /\ ChunksMapper.covers c x) /\
  Forall (fun c => SourceOffset c = TargetOffset c)
         (ChunksMapper.GetMissingChunks mapper).
Proof.
  intros HR Hcs Hdis mapper plan.
  destruct (GetMappedChunks_chain R cs Hcs Hdis ltac:(lia)) as [_ Hchain].
  fold mapper in Hchain.
  assert (ChunksMapper.tiles 0 plan R) as Htiles.
  { unfold plan, ChunksMapper.PlannedChunks, ChunksMapper.GetMissingChunks,
      ChunksMapper.GetMissingChunksFrom.
    unfold mapper at 2. rewrite FillChunksMap_fileSize. cbn.
    apply merge_missing_tiles; [lia|lia|done]. }
  split; [by eapply tiles_sorted|].
  split; [by eapply ends_before_disjoint, tiles_ends_before|].
  split.
  { apply tiles_bounds in Htiles as [_ Hb].
    eapply Forall_impl; [exact Hb|]. cbn. lia. }
  split; [intros x; by apply tiles_covers|].
  apply missing_source_is_target.
Qed.

Lemma sample_reuse_disjoint : ChunksMapper.pairwise_disjoint sample_reuse.
Proof.
  intros i j c d Hij Hc Hd. unfold ChunksMapper.disjoint, TargetEnd.
  destruct i as [|[|[|i]]]; destruct j as [|[|[|j]]];
    cbn in Hc, Hd; try done;
    injection Hc as <-; injection Hd as <-; cbn; lia.
Qed.

Lemma planned_chunks_partition_witness :
  TargetOffset <$> ChunksMapper.PlannedChunks
    (ChunksMapper.FillChunksMap (ChunksMapper.NewFileChunksMapper 70)
       sample_reuse)
  = [0; 16; 32; 48; 64] /\
  Size <$> ChunksMapper.PlannedChunks
    (ChunksMapper.FillChunksMap (ChunksMapper.NewFileChunksMapper 70)
       sample_reuse)
  = [16; 16; 16; 16; 6] /\
  ChunksMapper.sorted_by_target
    (ChunksMapper.PlannedChunks
       (ChunksMapper.FillChunksMap (ChunksMapper.NewFileChunksMapper 70)
          sample_reuse)) /\
  Forall (fun c => SourceOffset c = TargetOffset c)
    (ChunksMapper.GetMissingChunks
       (ChunksMapper.FillChunksMap (ChunksMapper.NewFileChunksMapper 70)
          sample_reuse)).
Proof.
  destruct (planned_chunks_partition 70 sample_reuse) as (Hs & _ & _ & _ & Hm).
  - int64.
  - unfold sample_reuse, TargetEnd.
    repeat (apply Forall_cons_2; [cbn; lia|]). apply Forall_nil_2.
  - exact sample_reuse_disjoint.
  - split; [reflexivity|]. split; [reflexivity|]. split; [exact Hs|exact Hm].
Defined.

(** The order in which Go ranges over the map does not show in the result:
    the keys are the target offsets, so the sort has no ties to keep. *)
Lemma NoDup_fmap_eq {A B : Type} (f : A -> B) (l : list A) (x y : A) :
  NoDup (f <$> l) -> x ∈ l -> y ∈ l -> f x = f y -> x = y.
Proof.
  induction l as [|a l IH]; cbn; [by intros _ ?%elem_of_nil|].
  intros [Ha Hl]%NoDup_cons [->|Hx]%elem_of_cons [->|Hy]%elem_of_cons Hf;
    [done| | |by apply IH].
  - exfalso. apply Ha. rewrite Hf. by apply list_elem_of_fmap_2.
  - exfalso. apply Ha. rewrite <- Hf. by apply list_elem_of_fmap_2.
Qed.

Lemma GetMappedChunksFrom_any_order (o1 o2 : list ChunkInfo) :
  o1 ≡ₚ o2 -> NoDup (TargetOffset <$> o1) ->
  ChunksMapper.GetMappedChunksFrom o1 = ChunksMapper.GetMappedChunksFrom o2.
Proof.
  intros Hperm Hnd. unfold ChunksMapper.GetMappedChunksFrom.
  apply (StronglySorted_unique_strong
           (fun c d => TargetOffset c <= TargetOffset d)).
  - intros x y Hx Hy Hxy Hyx.
    rewrite SliceStable_perm in Hx. rewrite SliceStable_perm, <- Hperm in Hy.
    apply (NoDup_fmap_eq TargetOffset o1); [done..|lia].
  - apply SliceStable_sorted.
  - apply SliceStable_sorted.
  - by rewrite !SliceStable_perm.
Qed.

(* ===================================================================== *)
(** ** OptimizeChunks *)
(* ===================================================================== *)

Lemma run_absorb (g e : Z) (chunk : ChunkInfo) (rest : list ChunkInfo) :
  run g (Some (e, chunk)) rest
  = let '(_, c, k) := absorb g e chunk rest in c :: run g None (drop k rest).
Proof.
  revert e chunk. induction rest as [|next rest IH]; intros e chunk; [done|].
  cbn [run absorb]. destruct (absorbs g e next); [|done].
  rewrite IH. by destruct (absorb g (src_end next) (extend chunk next) rest)
    as [[e' c'] k].
Qed.

Lemma run_fresh (g : Z) (c : ChunkInfo) (rest : list ChunkInfo) :
  run g None (c :: rest)
  = let '(_, c', k) := absorb g (src_end c) c (c :: rest) in
    c' :: run g None (drop (k - 1) rest).
Proof.
  cbn [run absorb]. destruct (absorbs g (src_end c) c); [|done].
  rewrite run_absorb.
  destruct (absorb g (src_end c) (extend c c) rest) as [[e' c'] k].
  cbn. by rewrite Nat.sub_0_r.
Qed.

Local Abbreviation le_source :=
  (fun c d : ChunkInfo => SourceOffset c <= SourceOffset d).

Lemma sorted_by_source_strongly (l : list ChunkInfo) :
  ChunksMapper.sorted_by_source l -> StronglySorted le_source l.
Proof.
  apply Sorted.Sorted_StronglySorted. intros x y z. cbn. lia.
Qed.

Lemma StronglySorted_drop {A : Type} (R : relation A) (l : list A) (n : nat) :
  StronglySorted R l -> StronglySorted R (drop n l).
Proof.
  intros Hl. rewrite <- (take_drop n l) in Hl.
  by apply StronglySorted_app_1_r in Hl.
Qed.

Lemma drop_cons_inv {A : Type} (l : list A) (j : nat) (x : A) (rest : list A) :
  drop j l = x :: rest ->
  l !! j = Some x /\ drop (S j) l = rest /\ (j < length l)%nat.
Proof.
  intros Hd.
  assert (l !! j = Some x) as Hj.
  { rewrite <- (Nat.add_0_r j), <- lookup_drop. by rewrite Hd. }
  split; [done|]. split; [|by eapply lookup_lt_Some].
  rewrite (drop_S _ _ _ Hj) in Hd. by injection Hd.
Qed.

Section OptimizeChunks_loops.

Variable chunkList : list ChunkInfo.
Variable minGap : Z.
Hypothesis chunkList_sorted : StronglySorted le_source chunkList.

Local Abbreviation skipped := ChunksMapper.skipped.

Local Abbreviation inner_from := (ChunksMapper.inner_loop chunkList minGap).
Local Abbreviation outer_from := (ChunksMapper.outer_loop chunkList minGap).

Lemma seq_to_length (j : nat) :
  (j < length chunkList)%nat ->
  seq j (length chunkList - j) = j :: seq (S j) (length chunkList - S j).
Proof.
  intros Hj. replace (length chunkList - j)%nat
    with (S (length chunkList - S j)) by lia. done.
Qed.

Lemma inner_from_step (j : nat) (st : ChunksMapper.inner_state) :
  (j < length chunkList)%nat ->
  inner_from j st
  = inner_from (S j) (ChunksMapper.inner_body chunkList minGap st j).
Proof.
  intros Hj. unfold ChunksMapper.inner_loop. by rewrite seq_to_length.
Qed.

Lemma inner_from_end (j : nat) (st : ChunksMapper.inner_state) :
  drop j chunkList = [] -> inner_from j st = st.
Proof.
  intros Hd%drop_nil_inv. unfold ChunksMapper.inner_loop.
  by replace (length chunkList - j)%nat with O by lia.
Qed.

Lemma outer_from_step (i : nat) (st : ChunksMapper.outer_state) :
  (i < length chunkList)%nat ->
  outer_from i st
  = outer_from (S i) (ChunksMapper.outer_body chunkList minGap st i).
Proof.
  intros Hi. unfold ChunksMapper.outer_loop. by rewrite seq_to_length.
Qed.

Lemma skipped_insert (skipList : gmap nat bool) (j n : nat) :
  skipped (<[j := true]> skipList) n = true
  <-> skipped skipList n = true \/ n = j.
Proof.
  unfold ChunksMapper.skipped. destruct (decide (j = n)) as [->|Hne].
  - rewrite lookup_insert_eq. cbn. tauto.
  - rewrite lookup_insert_ne by done. split; [tauto|]. intros [?|?]; [done|lia].
Qed.

(** Once the test fails for the chunks that are left, the inner loop leaves
    its state as it is. *)
Lemma inner_all_fail (rest : list ChunkInfo) (j : nat) (e : Z)
    (c : ChunkInfo) (skipList : gmap nat bool) :
  drop j chunkList = rest ->
  Forall (fun d => absorbs minGap e d = false) rest ->
  inner_from j (e, c, skipList) = (e, c, skipList).
Proof.
  revert j. induction rest as [|d rest IH]; intros j Hd Hfail.
  - by apply inner_from_end.
  - apply drop_cons_inv in Hd as (Hj & Hd & Hlt).
    apply Forall_cons in Hfail as [Hf Hfail].
    rewrite inner_from_step by done.
    replace (ChunksMapper.inner_body chunkList minGap (e, c, skipList) j)
      with (e, c, skipList); [by apply IH|].
    unfold ChunksMapper.inner_body. rewrite Hj.
    destruct (ChunksMapper.skipped skipList j); [done|].
    unfold absorbs in Hf. by rewrite Hf.
Qed.

(** On chunks sorted by source offset, none of them skipped yet, the inner
    loop is [absorb], and it marks the chunks it took in. *)
Lemma inner_from_absorb (rest : list ChunkInfo) (j : nat) (e : Z)
    (c : ChunkInfo) (skipList : gmap nat bool) :
  drop j chunkList = rest ->
  StronglySorted le_source rest ->
  (forall n, (j <= n)%nat -> skipped skipList n = false) ->
  let '(e', c', k) := absorb minGap e c rest in
  exists skipList',
    inner_from j (e, c, skipList) = (e', c', skipList') /\
    forall n, skipped skipList' n = true
              <-> skipped skipList n = true \/ (j <= n < j + k)%nat.
Proof.
  revert j e c skipList.
  induction rest as [|d rest IH]; intros j e c skipList Hd Hs Hclean.
  - cbn. exists skipList. split; [by apply inner_from_end|].
    intros n. intuition lia.
  - pose proof Hd as (Hj & Hd' & Hlt)%drop_cons_inv.
    apply StronglySorted_cons in Hs as [Hdle Hs].
    cbn [absorb]. destruct (absorbs minGap e d) eqn:Habs.
    + specialize (IH (S j) (src_end d) (extend c d) (<[j := true]> skipList)
                     Hd' Hs).
      destruct (absorb minGap (src_end d) (extend c d) rest) as [[e' c'] k].
      destruct IH as (skipList' & Hrun & Hmarks).
      { intros n Hn. apply not_true_is_false. rewrite skipped_insert.
        rewrite (Hclean n) by lia. intros [?|?]; [done|lia]. }
      exists skipList'. split.
      * rewrite inner_from_step by done. rewrite <- Hrun. f_equal.
        unfold ChunksMapper.inner_body. rewrite Hj, (Hclean j) by lia.
        unfold absorbs in Habs. by rewrite Habs.
      * intros n. rewrite Hmarks, skipped_insert. intuition lia.
    + exists skipList. split; [|intros n; intuition lia].
      apply (inner_all_fail (d :: rest)); [done|].
      constructor; [done|].
      eapply Forall_impl; [exact Hdle|]. cbn. intros d' Hle.
      unfold absorbs in *.
      destruct (Z.gtb_spec (Int64.add e minGap) (SourceOffset d)); [done|].
      destruct (Z.gtb_spec (Int64.add e minGap) (SourceOffset d')); [lia|done].
Qed.

(** The outer loop from index [i] on, when the chunks skipped from [i] on
    are the next [m] ones. *)
Lemma outer_from_run (fuel i m : nat) (out : list ChunkInfo)
    (skipList : gmap nat bool) :
  (length chunkList - i <= fuel)%nat ->
  (forall n, (i <= n)%nat -> skipped skipList n = true <-> (n < i + m)%nat) ->
  (outer_from i (out, skipList)).1
  = out ++ run minGap None (drop (i + m) chunkList).
Proof.
  revert i m out skipList.
  induction fuel as [|fuel IH]; intros i m out skipList Hfuel Hskip.
  { unfold ChunksMapper.outer_loop.
    replace (length chunkList - i)%nat with O by lia.
    rewrite drop_ge by lia. cbn. by rewrite app_nil_r. }
  destruct (decide (i < length chunkList)%nat) as [Hi|Hi].
  2:{ unfold ChunksMapper.outer_loop.
      replace (length chunkList - i)%nat with O by lia.
      rewrite drop_ge by lia. cbn. by rewrite app_nil_r. }
  rewrite outer_from_step by done.
  destruct (lookup_lt_is_Some_2 chunkList i Hi) as [c Hc].
  unfold ChunksMapper.outer_body at 1.
  destruct (ChunksMapper.skipped skipList i) eqn:Hsk.
  - (* the chunk was taken in by an earlier one *)
    assert (0 < m)%nat by (apply Hskip in Hsk; lia).
    rewrite (IH (S i) (m - 1)%nat); [|lia|].
    + do 3 f_equal. lia.
    + intros n Hn. rewrite Hskip by lia. intuition lia.
  - (* the chunk starts a new output chunk *)
    assert (m = O) as ->.
    { destruct m; [done|]. assert (skipped skipList i = true) as Ht
        by (apply Hskip; lia). congruence. }
    rewrite Hc. fold (src_end c).
    pose proof (inner_from_absorb (drop i chunkList) i (src_end c) c skipList
                  eq_refl (StronglySorted_drop _ _ _ chunkList_sorted)) as Hin.
    rewrite Nat.add_0_r. rewrite (drop_S _ _ _ Hc) in Hin |- *.
    rewrite run_fresh.
    destruct (absorb minGap (src_end c) c (c :: drop (S i) chunkList))
      as [[e' c'] k].
    destruct Hin as (skipList' & -> & Hmarks).
    { intros n Hn. apply not_true_is_false. rewrite Hskip by done. lia. }
    rewrite (IH (S i) (k - 1)%nat); [|lia|].
    + rewrite <- app_assoc. cbn. do 3 f_equal.
      rewrite drop_drop. f_equal; lia.
    + intros n Hn. rewrite Hmarks, Hskip by lia. intuition lia.
Qed.

(** On a list sorted by source offset, [OptimizeChunks] is [run]. *)
Lemma OptimizeChunks_run :
  ChunksMapper.OptimizeChunks chunkList minGap = run minGap None chunkList.
Proof.
  unfold ChunksMapper.OptimizeChunks.
  rewrite (outer_from_run (length chunkList) O O [] ∅ ltac:(lia)); [done|].
  intros n _. unfold ChunksMapper.skipped. rewrite lookup_empty. cbn.
  split; [done|lia].
Qed.

End OptimizeChunks_loops.

(** *** Facts about [run] *)

Lemma run_cons_none (g : Z) (next : ChunkInfo) (rest : list ChunkInfo) :
  run g None (next :: rest)
  = if absorbs g (src_end next) next
    then run g (Some (src_end next, extend next next)) rest
    else next :: run g None rest.
Proof. reflexivity. Qed.

Lemma run_cons_some (g e : Z) (chunk next : ChunkInfo)
    (rest : list ChunkInfo) :
  run g (Some (e, chunk)) (next :: rest)
  = if absorbs g e next
    then run g (Some (src_end next, extend chunk next)) rest
    else chunk :: run g None (next :: rest).
Proof. reflexivity. Qed.

Lemma extend_offsets (c d : ChunkInfo) :
  SourceOffset (extend c d) = SourceOffset c /\
  TargetOffset (extend c d) = TargetOffset c.
Proof. done. Qed.

Lemma with_Size_same (c : ChunkInfo) : with_Size c (Size c) = c.
Proof. by destruct c. Qed.

(** A test that fails for a chunk fails for every chunk that starts later:
    this is where the order of the list is used. *)
Lemma absorbs_false_later (g e : Z) (c d : ChunkInfo) :
  absorbs g e c = false -> SourceOffset c <= SourceOffset d ->
  absorbs g e d = false.
Proof.
  unfold absorbs. intros Hc Hle.
  destruct (Z.gtb_spec (Int64.add e g) (SourceOffset c)); [done|].
  destruct (Z.gtb_spec (Int64.add e g) (SourceOffset d)); [lia|done].
Qed.

(** The chunks that come out start where chunks that went in start. *)
Lemma run_starts_from (g lo : Z) (cur : option (Z * ChunkInfo))
    (rest : list ChunkInfo) :
  starts_from lo cur ->
  Forall (fun d => lo <= SourceOffset d) rest ->
  Forall (fun d => lo <= SourceOffset d) (run g cur rest).
Proof.
  revert cur. induction rest as [|next rest IH]; intros cur Hcur Hrest.
  - destruct cur as [[e c]|]; cbn; by repeat constructor.
  - apply Forall_cons in Hrest as [Hnext Hrest].
    assert (Forall (fun d => lo <= SourceOffset d)
              (run g None (next :: rest))) as Hfresh.
    { rewrite run_cons_none. destruct (absorbs g (src_end next) next).
      - by apply IH.
      - constructor; [done|]. by apply IH. }
    destruct cur as [[e c]|]; [|done].
    rewrite run_cons_some. destruct (absorbs g e next); [by apply IH|].
    by constructor.
Qed.

Lemma run_sorted (g : Z) (cur : option (Z * ChunkInfo))
    (rest : list ChunkInfo) :
  StronglySorted le_source rest ->
  match cur with
  | Some (_, chunk) =>
      Forall (fun d => SourceOffset chunk <= SourceOffset d) rest
  | None => True
  end ->
  StronglySorted le_source (run g cur rest).
Proof.
  intros Hs. revert cur.
  induction Hs as [|next rest Hs IH Hnext]; intros cur Hcur.
  - destruct cur as [[e c]|]; cbn; by repeat constructor.
  - assert (StronglySorted le_source (run g None (next :: rest))) as Hfresh.
    { rewrite run_cons_none. destruct (absorbs g (src_end next) next).
      - by apply IH.
      - constructor; [by apply IH|]. by apply run_starts_from. }
    destruct cur as [[e c]|]; [|done].
    apply Forall_cons in Hcur as [Hcn Hcur].
    rewrite run_cons_some. destruct (absorbs g e next); [by apply IH|].
    constructor; [done|].
    apply (run_starts_from g (SourceOffset c) None); [done|by constructor].
Qed.

(** When no chunk that is left passes the test, the current chunk comes out
    as it is. *)
Lemma run_no_absorb (g e : Z) (chunk : ChunkInfo) (rest : list ChunkInfo) :
  Forall (fun d => absorbs g e d = false) rest ->
  run g (Some (e, chunk)) rest = chunk :: run g None rest.
Proof.
  destruct rest as [|next rest]; [done|].
  intros [Hn _]%Forall_cons. by rewrite run_cons_some, Hn.
Qed.

Lemma run_settled_id (g : Z) (l : list ChunkInfo) :
  settled g l -> run g None l = l.
Proof.
  induction l as [|c l IH]; [done|]. intros (Hself & Hnone & Hl).
  rewrite run_cons_none. destruct (absorbs g (src_end c) c).
  - rewrite Hself by done. rewrite run_no_absorb by done. by rewrite IH.
  - by rewrite IH.
Qed.

Lemma extend_self_in_range (c : ChunkInfo) :
  Int64.in_range (Size c) -> extend c c = c.
Proof.
  intros Hc. unfold extend, src_end. rewrite sub_add_cancel, wrap_id by done.
  apply with_Size_same.
Qed.

Lemma run_output_settled (g : Z) (rest : list ChunkInfo) :
  StronglySorted le_source rest ->
  settled g (run g None rest) /\
  forall e chunk,
    src_end chunk = e -> Int64.in_range (Size chunk) ->
    settled g (run g (Some (e, chunk)) rest).
Proof.
  induction 1 as [|next rest Hs [IHnone IHsome] Hnext].
  - split; [done|]. intros e c He Hc. cbn.
    split; [intros _; by apply extend_self_in_range|done].
  - assert (settled g (run g None (next :: rest))) as Hfresh.
    { rewrite run_cons_none.
      destruct (absorbs g (src_end next) next) eqn:Hself.
      - apply IHsome.
        + unfold src_end at 1. unfold extend. cbn.
          apply add_sub_cancel, wrap_in_range.
        + apply wrap_in_range.
      - cbn. split; [congruence|]. split; [|done].
        eapply Forall_impl.
        + apply (run_starts_from g (SourceOffset next) None); [done|].
          exact Hnext.
        + cbn. intros d Hd. by eapply absorbs_false_later. }
    split; [done|]. intros e c He Hc.
    rewrite run_cons_some. destruct (absorbs g e next) eqn:Habs.
    + apply IHsome; [|apply wrap_in_range].
      unfold src_end at 1. unfold extend. cbn.
      apply add_sub_cancel, wrap_in_range.
    + cbn [settled]. split; [intros _; by apply extend_self_in_range|].
      split; [|done].
      eapply Forall_impl.
      * apply (run_starts_from g (SourceOffset next) None); [done|].
        by constructor.
      * cbn. intros d Hd. rewrite He. by eapply absorbs_false_later.
Qed.

(** *** Idempotence *)

Lemma OptimizeChunks_idempotent_sorted (chunkList : list ChunkInfo)
    (minGap : Z) :
  StronglySorted le_source chunkList ->
  ChunksMapper.OptimizeChunks
    (ChunksMapper.OptimizeChunks chunkList minGap) minGap
  = ChunksMapper.OptimizeChunks chunkList minGap.
Proof.
  intros Hs. rewrite (OptimizeChunks_run chunkList minGap Hs).
  rewrite OptimizeChunks_run by (by apply run_sorted).
  apply run_settled_id. by apply run_output_settled.
Qed.

(** C10.  On a list sorted ascending by source offset, and for a gap that
    is not negative, optimizing the optimized list gives the optimized list
    again. *)
Theorem OptimizeChunks_idempotent (chunkList : list ChunkInfo) (minGap : Z) :
  ChunksMapper.sorted_by_source chunkList -> 0 <= minGap ->
  ChunksMapper.OptimizeChunks
    (ChunksMapper.OptimizeChunks chunkList minGap) minGap
  = ChunksMapper.OptimizeChunks chunkList minGap.
Proof.
  intros Hs _. by apply OptimizeChunks_idempotent_sorted,
    sorted_by_source_strongly.
Qed.

Lemma sample_fetches_sorted : ChunksMapper.sorted_by_source sample_fetches.
Proof. repeat constructor; cbn; lia. Qed.

Lemma OptimizeChunks_idempotent_witness :
  ChunksMapper.OptimizeChunks sample_fetches 1024
  = [fetch 0 300; fetch 2000 501] /\
  ChunksMapper.OptimizeChunks
    (ChunksMapper.OptimizeChunks sample_fetches 1024) 1024
  = ChunksMapper.OptimizeChunks sample_fetches 1024.
Proof.
  split; [reflexivity|].
  apply (OptimizeChunks_idempotent sample_fetches 1024).
  - exact sample_fetches_sorted.
  - lia.
Defined.

(** *** Coalescing as specified *)

Lemma coalesce_spec_head (g : Z) (c : ChunkInfo) (rest : list ChunkInfo) :
  exists c' tl,
    ChunksMapper.coalesce_spec g c rest = c' :: tl /\
    SourceOffset c' = SourceOffset c.
Proof.
  revert c. induction rest as [|next rest IH]; intros c; cbn.
  - by exists c, [].
  - destruct (_ <? g); [|by eexists _, _].
    destruct (IH (with_Size c (SourceEnd next - SourceOffset c)))
      as (c' & tl & -> & Hc'). by exists c', tl.
Qed.

Lemma coalesce_spec_gaps (g : Z) (c : ChunkInfo) (rest : list ChunkInfo) :
  ChunksMapper.gaps_at_least g (ChunksMapper.coalesce_spec g c rest).
Proof.
  revert c. induction rest as [|next rest IH]; intros c; cbn; [done|].
  destruct (Z.ltb_spec (SourceOffset next - SourceEnd c) g) as [|Hgap];
    [apply IH|].
  specialize (IH next).
  destruct (coalesce_spec_head g next rest) as (c' & tl & Heq & Hc').
  rewrite Heq in IH |- *. cbn. split; [lia|exact IH].
Qed.

Lemma coalesce_spec_preserves (P : ChunkInfo -> Prop) (g : Z)
    (c : ChunkInfo) (rest : list ChunkInfo) :
  (forall c s, P c -> P (with_Size c s)) ->
  P c -> Forall P rest -> Forall P (ChunksMapper.coalesce_spec g c rest).
Proof.
  intros HP. revert c. induction rest as [|next rest IH]; intros c Hc Hrest.
  - cbn. by repeat constructor.
  - apply Forall_cons in Hrest as [Hn Hrest]. cbn.
    destruct (_ <? g); [apply IH; auto|].
    constructor; [done|]. by apply IH.
Qed.

(** Without overflow, on a sorted list, [run] is the coalescing of the
    specification. *)
Lemma run_is_coalesce_spec (g : Z) (rest : list ChunkInfo) :
  0 <= g ->
  StronglySorted le_source rest ->
  Forall (fetch_in_range g) rest ->
  run g None rest = ChunksMapper.coalesce_fetches_spec g rest /\
  forall e chunk,
    e = SourceEnd chunk -> 0 <= e -> e + g <= Int64.max_int ->
    0 <= SourceOffset chunk <= Int64.max_int ->
    run g (Some (e, chunk)) rest = ChunksMapper.coalesce_spec g chunk rest.
Proof.
  intros Hg Hs. induction Hs as [|next rest Hs IH Hnext]; intros Hfit.
  - split; [done|]. by intros e c _ _ _ _.
  - apply Forall_cons in Hfit as [(Hb & Hsz & Hmax) Hfit].
    destruct (IH Hfit) as [IHnone IHsome]. clear IH.
    assert (src_end next = SourceEnd next) as Hend.
    { unfold src_end, SourceEnd. apply add_exact. int64. }
    assert (run g None (next :: rest)
            = ChunksMapper.coalesce_spec g next rest) as Hfresh.
    { rewrite run_cons_none. unfold absorbs. rewrite Hend.
      unfold SourceEnd at 1. rewrite add_exact by int64.
      destruct (Z.gtb_spec (SourceOffset next + Size next + g)
                           (SourceOffset next)) as [Hself|Hself].
      - rewrite extend_self_in_range by int64.
        apply IHsome; unfold SourceEnd; int64.
      - (* an empty chunk and no gap: nothing can be taken in *)
        rewrite IHnone. destruct rest as [|d rest]; [done|].
        apply Forall_cons in Hnext as [Hd _]. cbn.
        unfold SourceEnd at 1.
        destruct (Z.ltb_spec (SourceOffset d
                              - (SourceOffset next + Size next)) g);
          [lia|done]. }
    split; [exact Hfresh|].
    intros e c -> He0 Hemax Hc.
    rewrite run_cons_some. unfold absorbs.
    rewrite add_exact by int64. cbn [ChunksMapper.coalesce_spec].
    destruct (Z.gtb_spec (SourceEnd c + g) (SourceOffset next));
      destruct (Z.ltb_spec (SourceOffset next - SourceEnd c) g); try lia.
    + unfold extend. rewrite Hend.
      unfold SourceEnd in Hemax, He0 |- *.
      rewrite sub_exact by int64.
      apply IHsome; unfold SourceEnd; cbn; int64.
    + by rewrite Hfresh.
Qed.

(** C2.  Fetch chunks sorted ascending by source offset, with source offset
    equal to target offset, and a gap that is not negative (offsets, sizes
    and gap without overflow).  [OptimizeChunks] is the coalescing of the
    specification: it takes a later chunk into the current one exactly when
    that chunk's begin minus the current end, as extended so far, is less
    than the gap, and then moves the current end to that chunk's end and
    drops the chunk.  So in the output adjacent chunks are at least the gap
    apart, and each still has its source offset equal to its target
    offset. *)
Theorem OptimizeChunks_coalesces (chunkList : list ChunkInfo) (minGap : Z) :
  0 <= minGap ->
  ChunksMapper.sorted_by_source chunkList ->
  Forall (fun c => SourceOffset c = TargetOffset c) chunkList ->
  Forall (fetch_in_range minGap) chunkList ->
  ChunksMapper.OptimizeChunks chunkList minGap
  = ChunksMapper.coalesce_fetches_spec minGap chunkList /\
  ChunksMapper.gaps_at_least minGap
    (ChunksMapper.OptimizeChunks chunkList minGap) /\
  Forall (fun c => SourceOffset c = TargetOffset c)
         (ChunksMapper.OptimizeChunks chunkList minGap).
Proof.
  intros Hg Hs%sorted_by_source_strongly Hst Hfit.
  rewrite (OptimizeChunks_run chunkList minGap Hs).
  destruct (run_is_coalesce_spec minGap chunkList Hg Hs Hfit) as [-> _].
  destruct chunkList as [|c rest]; [by repeat split|].
  apply Forall_cons in Hst as [Hc Hrest]. cbn.
  split; [done|]. split; [apply coalesce_spec_gaps|].
  by apply coalesce_spec_preserves.
Qed.

Lemma OptimizeChunks_coalesces_witness :
  ChunksMapper.OptimizeChunks [fetch 0 10; fetch 200 100] (16 * 64)
  = [fetch 0 300] /\
  ChunksMapper.gaps_at_least 1024
    (ChunksMapper.OptimizeChunks sample_fetches 1024).
Proof.
  split; [reflexivity|].
  apply (OptimizeChunks_coalesces sample_fetches 1024).
  - lia.
  - exact sample_fetches_sorted.
  - repeat (apply Forall_cons_2; [reflexivity|]). apply Forall_nil_2.
  - unfold sample_fetches, fetch_in_range.
    repeat (apply Forall_cons_2; [cbn; int64|]). apply Forall_nil_2.
Defined.

(** What [Sync] fetches: the missing chunks meet what the coalescing asks
    of its input, so the requests of one [Sync] are at least
    [64 * BlockSize] bytes apart. *)
Lemma Sync_fetches_apart (zsync : ZSync.t) (cs : list ChunkInfo) :
  0 <= ZSync.BlockSize zsync ->
  0 <= ZSync.RemoteFileSize zsync ->
  ZSync.RemoteFileSize zsync + 64 * ZSync.BlockSize zsync <= Int64.max_int ->
  Forall (fun c => 0 < Size c /\ 0 <= TargetOffset c /\
                   TargetEnd c <= ZSync.RemoteFileSize zsync) cs ->
  ChunksMapper.pairwise_disjoint cs ->
  ChunksMapper.gaps_at_least (64 * ZSync.BlockSize zsync)
    (ZSync.Sync_fetches zsync cs).
Proof.
  intros HB HR Hfit Hcs Hdis. unfold ZSync.Sync_fetches. cbn zeta.
  change (fold_left ChunksMapper.Add cs ?m)
    with (ChunksMapper.FillChunksMap m cs).
  rewrite mul_exact by int64. rewrite (Z.mul_comm _ 64).
  destruct (GetMappedChunks_chain _ cs Hcs Hdis HR) as [_ Hchain].
  unfold ChunksMapper.GetMissingChunks, ChunksMapper.GetMissingChunksFrom.
  rewrite FillChunksMap_fileSize. cbn [ChunksMapper.fileSize
    ChunksMapper.NewFileChunksMapper].
  destruct (missing_loop_fetches (ZSync.RemoteFileSize zsync) 0 _
              ltac:(lia) ltac:(lia) Hchain) as [Hs Hb].
  rewrite (OptimizeChunks_run _ _ Hs).
  destruct (run_is_coalesce_spec (64 * ZSync.BlockSize zsync) _
              ltac:(lia) Hs) as [-> _].
  - eapply Forall_impl; [exact Hb|]. unfold fetch_in_range. cbn. int64.
  - destruct (ChunksMapper.missing_loop _ _ _); [done|].
    apply coalesce_spec_gaps.
Qed.

(* ===================================================================== *)
(** ** WriteChunk *)
(* ===================================================================== *)

Lemma mem_Seek_start (f : MemFile) (offset : Z) :
  0 <= offset ->
  mem_Seek f offset io_SeekStart = (set_position f offset, (offset, None)).
Proof.
  intros Ho. unfold mem_Seek. cbn.
  destruct (Z.ltb_spec offset 0); [lia|done].
Qed.

Lemma mem_Seek_start_negative (f : MemFile) (offset : Z) :
  offset < 0 -> is_Some (mem_Seek f offset io_SeekStart).2.2.
Proof.
  intros Ho. unfold mem_Seek. cbn.
  destruct (Z.ltb_spec offset 0); [by eexists|lia].
Qed.

Lemma len_nonneg (bs : list byte) : 0 <= len bs.
Proof. unfold len. lia. Qed.

Lemma len_app (a b : list byte) : len (a ++ b) = len a + len b.
Proof. unfold len. rewrite length_app. lia. Qed.

Lemma len_repeat (n : nat) : len (repeat x00 n) = Z.of_nat n.
Proof. unfold len. by rewrite repeat_length. Qed.

Lemma len_take (n : Z) (bs : list byte) :
  len (take (Z.to_nat n) bs) = Z.max 0 (Z.min n (len bs)).
Proof. unfold len. rewrite length_take. lia. Qed.

Lemma len_drop (n : Z) (bs : list byte) :
  len (drop (Z.to_nat n) bs) = Z.max 0 (len bs - Z.max 0 n).
Proof. unfold len. rewrite length_drop. lia. Qed.

Lemma len_zero_nil (bs : list byte) : len bs = 0 -> bs = [].
Proof. unfold len. destruct bs; [done|cbn; lia]. Qed.

Lemma write_at_nonempty (data : list byte) (pos : Z) (bs : list byte) :
  bs <> [] ->
  write_at data pos bs
  = (take (Z.to_nat pos) data
     ++ repeat x00 (Z.to_nat pos - length data))
    ++ bs ++ drop (Z.to_nat pos + length bs) data.
Proof.
  destruct bs; [done|]. intros _. unfold write_at. by rewrite app_assoc.
Qed.

(** Writing [a] and then [b] right after it is writing [a ++ b]. *)
Lemma write_at_app (data : list byte) (pos : Z) (a b : list byte) :
  0 <= pos ->
  write_at (write_at data pos a) (pos + len a) b = write_at data pos (a ++ b).
Proof.
  intros Hpos.
  destruct (decide (a = [])) as [->|Ha]; [cbn; by rewrite Z.add_0_r|].
  destruct (decide (b = [])) as [->|Hb]; [by rewrite app_nil_r|].
  rewrite (write_at_nonempty data pos a Ha).
  rewrite (write_at_nonempty _ (pos + len a) b Hb).
  rewrite (write_at_nonempty data pos (a ++ b))
    by (intros [? _]%app_eq_nil; done).
  set (p := Z.to_nat pos).
  set (X := take p data ++ repeat x00 (p - length data)).
  assert (length X = p) as HX.
  { unfold X. rewrite length_app, length_take, repeat_length. lia. }
  replace (Z.to_nat (pos + len a)) with (length (X ++ a))
    by (rewrite length_app; unfold len, p in *; lia).
  rewrite (app_assoc X a). rewrite take_app_length.
  replace (length (X ++ a)
           - length ((X ++ a) ++ drop (p + length a) data))%nat
    with O by (rewrite (length_app (X ++ a)); lia).
  rewrite <- drop_drop, drop_app_length.
  rewrite drop_drop. cbn [repeat app]. rewrite app_nil_r.
  rewrite <- !app_assoc. do 3 f_equal. f_equal.
  rewrite length_app. lia.
Qed.

(** *** Reading and writing files that are not damaged *)

Lemma written_to_nil (f : MemFile) : written_to f [] = f.
Proof. destruct f. unfold written_to. cbn. by rewrite Z.add_0_r. Qed.

Lemma mem_Read_healthy (f : MemFile) (n : Z) :
  fault f = None ->
  mem_Read f n
  = let bs := bytes_at f (position f) n in
    (set_position f (position f + len bs),
     (bs, if n <=? len bs then None else Some io_EOF)).
Proof.
  intros Hf. unfold mem_Read, reachable, fault_before, bytes_at, set_position.
  rewrite Hf.
  rewrite (take_ge (drop _ _)) by (rewrite length_drop; unfold len; lia).
  cbn zeta. by destruct (_ <=? _).
Qed.

Lemma mem_Write_healthy (f : MemFile) (bs : list byte) :
  fault f = None -> mem_Write f bs = (written_to f bs, (len bs, None)).
Proof.
  intros Hf. unfold mem_Write. rewrite Hf.
  rewrite take_ge by (unfold len; lia).
  destruct (Z.ltb_spec (len bs) (len bs)); [lia|].
  unfold written_to. by rewrite Hf.
Qed.

Lemma write_unless_nil_healthy (dst : MemFile) (bs : list byte) :
  fault dst = None ->
  match bs with
  | [] => (dst, (0, None))
  | _ :: _ => ws_Write dst bs
  end = (written_to dst bs, (len bs, None)).
Proof.
  intros Hd. destruct bs eqn:Hbs; [by rewrite written_to_nil|].
  rewrite <- Hbs. by apply mem_Write_healthy.
Qed.

Lemma CopyN_healthy (dst src : MemFile) (n : Z) :
  fault dst = None -> fault src = None ->
  CopyN dst src n
  = let bs := bytes_at src (position src) n in
    (written_to dst bs, set_position src (position src + len bs),
     (len bs, if len bs =? n then None else
              if len bs <? n then Some io_EOF else None)).
Proof.
  intros Hd Hs. unfold CopyN. cbn [rs_Read MemFile_ReadSeeker].
  rewrite (mem_Read_healthy src n Hs). cbn beta iota zeta.
  rewrite (write_unless_nil_healthy dst _ Hd). cbn beta iota zeta.
  rewrite Z.eqb_refl. cbn [negb].
  destruct (Z.leb_spec n (len (bytes_at src (position src) n)))
    as [Hle|Hlt]; cbn [is_EOF].
  - destruct (Z.eqb_spec (len (bytes_at src (position src) n)) n)
      as [->|Hne]; [done|].
    destruct (Z.ltb_spec (len (bytes_at src (position src) n)) n); [lia|].
    done.
  - destruct (Z.eqb_spec (len (bytes_at src (position src) n)) n); [lia|].
    destruct (Z.ltb_spec (len (bytes_at src (position src) n)) n); [|lia].
    done.
Qed.

Lemma len_bytes_at (f : MemFile) (pos n : Z) :
  0 <= pos -> 0 <= n ->
  len (bytes_at f pos n) = Z.min n (Z.max 0 (len (contents f) - pos)).
Proof.
  intros Hp Hn. unfold bytes_at. rewrite len_take, len_drop. lia.
Qed.

Lemma position_set (f : MemFile) (p : Z) : position (set_position f p) = p.
Proof. reflexivity. Qed.

Lemma bytes_at_set (f : MemFile) (p q n : Z) :
  bytes_at (set_position f p) q n = bytes_at f q n.
Proof. reflexivity. Qed.

(** On healthy files [WriteChunk] succeeds: the target gets, at the
    chunk's target offset, the bytes of the source from the chunk's source
    offset on, followed by zeros up to [Size] bytes in all. *)
Lemma WriteChunk_healthy (source target : MemFile) (chunk : ChunkInfo) :
  fault source = None -> fault target = None ->
  0 <= SourceOffset chunk -> 0 <= TargetOffset chunk ->
  0 <= Size chunk <= Int64.max_int ->
  let got := bytes_at source (SourceOffset chunk) (Size chunk) in
  let zeros := repeat x00 (Z.to_nat (Size chunk - len got)) in
  ZSync.WriteChunk source target chunk
  = (set_position source (SourceOffset chunk + len got),
     {| contents :=
          write_at (contents target) (TargetOffset chunk) (got ++ zeros);
        position := TargetOffset chunk + Size chunk;
        fault := None |},
     None).
Proof.
  intros Hs Ht HS HT HN got zeros. unfold ZSync.WriteChunk.
  cbn [rs_Seek ws_Seek ws_Write MemFile_ReadSeeker MemFile_WriteSeeker].
  rewrite !mem_Seek_start by done.
  rewrite CopyN_healthy by done. cbn beta iota zeta.
  rewrite !position_set, !bytes_at_set. fold got.
  pose proof (len_bytes_at source (SourceOffset chunk) (Size chunk) HS
                ltac:(lia)) as Hlen. fold got in Hlen.
  destruct (Z.eqb_spec (len got) (Size chunk)) as [Hfull|Hshort].
  - cbn [is_EOF andb]. unfold written_to, set_position. cbn.
    unfold zeros. rewrite Hfull, Z.sub_diag. cbn [Z.to_nat repeat].
    rewrite app_nil_r, Ht. done.
  - destruct (Z.ltb_spec (len got) (Size chunk)); [|lia].
    cbn [is_EOF andb].
    rewrite sub_exact by int64. fold zeros.
    rewrite mem_Write_healthy by done.
    unfold written_to, set_position. cbn.
    rewrite write_at_app by done. rewrite Ht. do 3 f_equal.
    unfold zeros. rewrite len_repeat. lia.
Qed.

Lemma mem_Write_result (f : MemFile) (bs : list byte) :
  let '(f', (w, err)) := mem_Write f bs in
  fault f' = fault f /\ position f' = position f + w /\ 0 <= w <= len bs /\
  (err = None ->
   w = len bs /\
   forall k, fault f = Some k -> 0 <= position f -> bs <> [] ->
             position f + len bs <= k) /\
  (forall e, err = Some e -> e = io_error /\ w < len bs).
Proof.
  unfold mem_Write.
  remember (match fault f with
            | Some k => Z.max 0 (k - position f)
            | None => len bs
            end) as room eqn:Hdef.
  pose proof (len_nonneg bs) as Hbs.
  assert (0 <= room) as Hroom by (rewrite Hdef; destruct (fault f); lia).
  pose proof (len_take room bs) as Hl.
  assert (bs <> [] -> len bs <> 0) as Hne0 by (intros ? ?%len_zero_nil; done).
  remember (len (take (Z.to_nat room) bs)) as w eqn:Hw.
  remember (len bs) as n eqn:Hn.
  destruct (Z.ltb_spec w n) as [Hlt|Hge]; cbn [fault position].
  - split; [done|]. split; [done|]. split; [lia|]. split; [done|].
    intros e [= <-]. split; [done|lia].
  - split; [done|]. split; [done|]. split; [lia|]. split; [|done].
    intros _. split; [lia|]. intros k Hk Hp Hne.
    rewrite Hk in Hdef. specialize (Hne0 Hne). lia.
Qed.

Lemma mem_Read_result (f : MemFile) (n : Z) :
  0 <= n ->
  let '(f', (bs, err)) := mem_Read f n in
  len bs <= n /\
  (err = None -> len bs = n) /\
  (forall e, err = Some e -> len bs < n /\ (e = io_EOF \/ e = io_error)) /\
  (forall k, fault f = Some k -> k < len (contents f) ->
             0 <= position f -> k < position f + n -> 0 < n ->
             err = Some io_error).
Proof.
  intros Hn. unfold mem_Read.
  pose proof (len_take n (reachable f (position f))) as Hl.
  pose proof (len_nonneg (reachable f (position f))) as Hr.
  assert (forall k, fault f = Some k -> k < len (contents f) ->
                    0 <= position f ->
                    len (reachable f (position f)) = Z.max 0 (k - position f))
    as Hreach.
  { intros k Hk Hkl Hp. unfold reachable. rewrite Hk.
    rewrite len_take, len_drop.
    pose proof (len_nonneg (contents f)). lia. }
  remember (len (take (Z.to_nat n) (reachable f (position f)))) as w eqn:Hw.
  remember (len (reachable f (position f))) as r eqn:Hrdef.
  destruct (Z.leb_spec n w) as [Hle|Hlt].
  - split; [lia|]. split; [lia|]. split; [done|].
    intros k Hk Hkl Hp Hkn Hn0. exfalso.
    specialize (Hreach k Hk Hkl Hp). lia.
  - destruct (fault_before f (len (contents f))) eqn:Hfb.
    + split; [lia|]. split; [done|]. split; [|done].
      intros e [= <-]. split; [lia|auto].
    + split; [lia|]. split; [done|]. split.
      * intros e [= <-]. split; [lia|auto].
      * intros k Hk Hkl _ _ _. unfold fault_before in Hfb. rewrite Hk in Hfb.
        destruct (Z.ltb_spec k (len (contents f))); [done|lia].
Qed.

Lemma CopyN_mem_result (dst src : MemFile) (n : Z) :
  0 < n ->
  let '(dst', src', (w, err)) := CopyN dst src n in
  fault dst' = fault dst /\ position dst' = position dst + w /\
  0 <= w <= n /\
  (err = None ->
   forall k, fault dst = Some k -> 0 <= position dst ->
             position dst + n <= k) /\
  (forall k, fault src = Some k -> k < len (contents src) ->
             0 <= position src -> k < position src + n ->
             exists e, err = Some e /\ e <> io_EOF).
Proof.
  intros Hn. unfold CopyN. cbn [rs_Read ws_Write MemFile_ReadSeeker
                                MemFile_WriteSeeker].
  pose proof (mem_Read_result src n ltac:(lia)) as Hread.
  destruct (mem_Read src n) as [src' [bs rerr]].
  destruct Hread as (Hbs & Hrnone & Hrsome & Hrfault).
  assert (exists dst' nw werr,
            match bs with
            | [] => (dst, (0, None))
            | _ :: _ => mem_Write dst bs
            end = (dst', (nw, werr)) /\
            fault dst' = fault dst /\ position dst' = position dst + nw /\
            0 <= nw <= len bs /\
            (werr = None ->
             nw = len bs /\
             forall k, fault dst = Some k -> 0 <= position dst -> bs <> [] ->
                       position dst + len bs <= k) /\
            (forall e, werr = Some e -> e = io_error /\ nw < len bs))
    as (dst' & nw & werr & -> & Hf & Hp & Hnw & Hwnone & Hwsome).
  { destruct bs as [|b bs'] eqn:Hbseq.
    - exists dst, 0, None. cbn. repeat split; try done; lia.
    - rewrite <- Hbseq. pose proof (mem_Write_result dst bs) as Hw.
      destruct (mem_Write dst bs) as [dst' [nw werr]].
      by exists dst', nw, werr. }
  pose proof (len_nonneg bs) as Hlen.
  assert (bs = [] -> len bs = 0) as Hnil by (by intros ->).
  remember (len bs) as m eqn:Hm.
  destruct werr as [we|].
  - (* the write failed *)
    destruct (Hwsome we eq_refl) as [-> Hshort].
    destruct (Z.eqb_spec nw n); [lia|].
    destruct (Z.ltb_spec nw n); [|lia]. cbn.
    repeat split; try done; try lia.
    intros k _ _ _ _. by exists io_error.
  - destruct (Hwnone eq_refl) as [-> Hroom]. rewrite Z.eqb_refl. cbn [negb].
    destruct (Z.eqb_spec m n) as [->|Hne].
    + (* everything was copied *)
      repeat split; try done; try lia.
      * intros _ k Hk Hpos. apply Hroom; [done..|].
        intros Hb. specialize (Hnil Hb). lia.
      * intros k Hk Hkl Hpos Hkn.
        specialize (Hrfault k Hk Hkl Hpos Hkn Hn).
        destruct (Hrsome _ Hrfault). lia.
    + destruct (Z.ltb_spec m n); [|lia].
      destruct rerr as [[|msg]|]; cbn.
      * repeat split; try done; try lia.
        intros k Hk Hkl Hpos Hkn.
        by specialize (Hrfault k Hk Hkl Hpos Hkn Hn).
      * repeat split; try done; try lia.
        intros k _ _ _ _. by eexists.
      * specialize (Hrnone eq_refl). lia.
Qed.

Lemma WriteChunk_seek_errors (source target : MemFile) (chunk : ChunkInfo) :
  SourceOffset chunk < 0 \/ TargetOffset chunk < 0 ->
  is_Some (ZSync.WriteChunk source target chunk).2.
Proof.
  intros Hneg. unfold ZSync.WriteChunk.
  cbn [rs_Seek ws_Seek MemFile_ReadSeeker MemFile_WriteSeeker].
  destruct (Z.lt_ge_cases (SourceOffset chunk) 0) as [HS|HS].
  - pose proof (mem_Seek_start_negative source _ HS) as [e He].
    destruct (mem_Seek source (SourceOffset chunk) io_SeekStart)
      as [s1 [r1 e1]]. cbn in He. subst e1. by eexists.
  - rewrite mem_Seek_start by lia.
    destruct Hneg as [?|HT]; [lia|].
    pose proof (mem_Seek_start_negative target _ HT) as [e He].
    destruct (mem_Seek target (TargetOffset chunk) io_SeekStart)
      as [t1 [r1 e1]]. cbn in He. subst e1. by eexists.
Qed.

Lemma WriteChunk_io_errors (source target : MemFile) (chunk : ChunkInfo) :
  0 <= SourceOffset chunk -> 0 <= TargetOffset chunk ->
  0 < Size chunk <= Int64.max_int ->
  unreadable source (SourceOffset chunk) (Size chunk) \/
  unwritable target (TargetOffset chunk) (Size chunk) ->
  is_Some (ZSync.WriteChunk source target chunk).2.
Proof.
  intros HS HT HN Hbad. unfold ZSync.WriteChunk.
  cbn [rs_Seek ws_Seek ws_Write MemFile_ReadSeeker MemFile_WriteSeeker].
  rewrite !mem_Seek_start by done.
  pose proof (CopyN_mem_result (set_position target (TargetOffset chunk))
                (set_position source (SourceOffset chunk)) (Size chunk)
                ltac:(lia)) as Hcopy.
  destruct (CopyN _ _ _) as [[dst' src'] [w err]].
  destruct Hcopy as (Hf & Hp & Hw & Hnone & Hsrc).
  rewrite position_set in Hp, Hnone.
  destruct Hbad as [(k & Hk & Hkl & Hkn)|(k & Hk & Hkn)].
  - destruct (Hsrc k Hk Hkl HS Hkn) as (e & -> & He).
    destruct e; [done|]. cbn. by eexists.
  - destruct err as [[|msg]|]; cbn [is_EOF andb].
    + destruct (Z.ltb_spec w (Size chunk)) as [Hlt|Hge]; [|by eexists].
      rewrite sub_exact by int64.
      pose proof (mem_Write_result dst'
                    (repeat x00 (Z.to_nat (Size chunk - w)))) as Hz.
      destruct (mem_Write dst' _) as [t2 [w2 e2]].
      destruct Hz as (_ & _ & _ & Hznone & _).
      destruct e2 as [e2|]; [by eexists|exfalso].
      destruct (Hznone eq_refl) as [_ Hroom].
      specialize (Hroom k). rewrite Hf in Hroom.
      specialize (Hroom Hk ltac:(lia)). rewrite len_repeat in Hroom.
      assert (repeat x00 (Z.to_nat (Size chunk - w)) <> []) as Hne.
      { destruct (Z.to_nat (Size chunk - w)) eqn:Hz; [lia|done]. }
      specialize (Hroom Hne). lia.
    + by eexists.
    + exfalso. specialize (Hnone eq_refl k Hk HT). lia.
Qed.

(** What was written at [pos] is what one reads there afterwards. *)
Lemma write_at_read_back (data : list byte) (pos : Z) (bs : list byte) :
  0 <= pos ->
  take (length bs) (drop (Z.to_nat pos) (write_at data pos bs)) = bs.
Proof.
  intros Hpos. destruct (decide (bs = [])) as [->|Hne]; [done|].
  rewrite write_at_nonempty by done.
  set (X := take (Z.to_nat pos) data
            ++ repeat x00 (Z.to_nat pos - length data)).
  assert (length X = Z.to_nat pos) as <-.
  { unfold X. rewrite length_app, length_take, repeat_length. lia. }
  by rewrite drop_app_length, take_app_length.
Qed.

(** C6.  [WriteChunk] between files in memory, for a chunk of [Size]
    bytes.  With both offsets non-negative and both files healthy it
    returns [nil]; the source was read from [SourceOffset] on, the target
    written from [TargetOffset] on, and the [Size] bytes now at
    [TargetOffset] in the target are the [n] bytes the source had from
    [SourceOffset] on ([n < Size] when the source ends early) followed by
    [Size - n] zeros.  A negative offset (a seek that fails), a source
    damaged within the bytes to read or a target that cannot take the
    bytes makes it return an error. *)
Theorem WriteChunk_copies_and_pads (source target : MemFile)
    (chunk : ChunkInfo) :
  0 <= Size chunk <= Int64.max_int ->
  let got := bytes_at source (SourceOffset chunk) (Size chunk) in
  let zeros := repeat x00 (Z.to_nat (Size chunk - len got)) in
  let '(source', target', err) := ZSync.WriteChunk source target chunk in
  (0 <= SourceOffset chunk -> 0 <= TargetOffset chunk ->
   fault source = None -> fault target = None ->
   err = None /\
   len got
   = Z.min (Size chunk)
           (Z.max 0 (len (contents source) - SourceOffset chunk)) /\
   position source' = SourceOffset chunk + len got /\
   position target' = TargetOffset chunk + Size chunk /\
   contents target'
   = write_at (contents target) (TargetOffset chunk) (got ++ zeros) /\
   bytes_at target' (TargetOffset chunk) (Size chunk) = got ++ zeros) /\
  (SourceOffset chunk < 0 \/ TargetOffset chunk < 0 -> is_Some err) /\
  (0 <= SourceOffset chunk -> 0 <= TargetOffset chunk -> 0 < Size chunk ->
   unreadable source (SourceOffset chunk) (Size chunk) \/
   unwritable target (TargetOffset chunk) (Size chunk) ->
   is_Some err).
Proof.
  intros HN got zeros.
  pose proof (WriteChunk_seek_errors source target chunk) as Hseek.
  pose proof (WriteChunk_io_errors source target chunk) as Hio.
  pose proof (WriteChunk_healthy source target chunk) as Hok.
  destruct (ZSync.WriteChunk source target chunk) as [[source' target'] err].
  cbn [snd] in Hseek, Hio. split; [|split; [done|]].
  - intros HS HT Hs Ht. specialize (Hok Hs Ht HS HT HN).
    cbn zeta in Hok. fold got in Hok. fold zeros in Hok.
    injection Hok as -> -> ->.
    pose proof (len_bytes_at source (SourceOffset chunk) (Size chunk) HS
                  ltac:(lia)) as Hlen. fold got in Hlen.
    repeat split; try done.
    unfold bytes_at at 1. cbn [contents].
    replace (Z.to_nat (Size chunk)) with (length (got ++ zeros)).
    + by apply write_at_read_back.
    + rewrite length_app. unfold zeros. rewrite repeat_length.
      unfold len in *. lia.
  - intros HS HT HN0 Hbad. apply Hio; [done..|lia|done].
Qed.

Lemma WriteChunk_copies_and_pads_witness :
  (ZSync.WriteChunk local_file output_file (reuse 5 64 6)).2 = None /\
  bytes_at (ZSync.WriteChunk local_file output_file (reuse 5 64 6)).1.2 64 6
  = [x06; x07; x08; x00; x00; x00].
Proof.
  pose proof (WriteChunk_copies_and_pads local_file output_file
                (reuse 5 64 6)) as H.
  destruct (ZSync.WriteChunk local_file output_file (reuse 5 64 6))
    as [[source' target'] err].
  destruct H as [Hok _]; [cbn; int64|].
  destruct Hok as (-> & _ & _ & _ & _ & Hbytes); [cbn; lia ..|done|done|].
  split; [reflexivity|exact Hbytes].
Defined.

(* ===================================================================== *)
(** * Further properties *)
(* ===================================================================== *)

(** ** The mapper keeps one chunk per target offset *)

Lemma FillChunksMap_snoc (m : ChunksMapper.t) (cs : list ChunkInfo)
    (c : ChunkInfo) :
  ChunksMapper.FillChunksMap m (cs ++ [c])
  = ChunksMapper.Add (ChunksMapper.FillChunksMap m cs) c.
Proof. unfold ChunksMapper.FillChunksMap. by rewrite fold_left_app. Qed.

Lemma FillChunksMap_keyed (cs : list ChunkInfo) (m : ChunksMapper.t) :
  keyed_by_target (ChunksMapper.chunksMap m) ->
  keyed_by_target (ChunksMapper.chunksMap (ChunksMapper.FillChunksMap m cs)).
Proof.
  revert m. induction cs as [|c cs IH]; intros m Hm; [done|].
  apply IH. cbn. by apply map_Forall_insert_2.
Qed.

Lemma GetMappedChunks_elem (m : ChunksMapper.t) (c : ChunkInfo) :
  keyed_by_target (ChunksMapper.chunksMap m) ->
  c ∈ ChunksMapper.GetMappedChunks m
  <-> ChunksMapper.chunksMap m !! TargetOffset c = Some c.
Proof.
  intros Hm. unfold ChunksMapper.GetMappedChunks,
    ChunksMapper.GetMappedChunksFrom.
  rewrite SliceStable_perm, list_elem_of_fmap. split.
  - intros ([k d] & -> & Hkd%elem_of_map_to_list). cbn.
    by rewrite (Hm k d Hkd).
  - intros Hc. exists (TargetOffset c, c). split; [done|].
    by apply elem_of_map_to_list.
Qed.

Lemma GetMappedChunks_targets_NoDup (m : ChunksMapper.t) :
  keyed_by_target (ChunksMapper.chunksMap m) ->
  NoDup (TargetOffset <$> ChunksMapper.GetMappedChunks m).
Proof.
  intros Hm. unfold ChunksMapper.GetMappedChunks,
    ChunksMapper.GetMappedChunksFrom.
  rewrite SliceStable_perm.
  replace (TargetOffset <$> (snd <$> map_to_list (ChunksMapper.chunksMap m)))
    with (fst <$> map_to_list (ChunksMapper.chunksMap m)).
  - apply NoDup_fst_map_to_list.
  - rewrite <- list_fmap_compose. apply list_fmap_ext.
    intros i [k d] Hkd%list_elem_of_lookup_2%elem_of_map_to_list. cbn.
    by rewrite (Hm k d Hkd).
Qed.

Lemma sorted_distinct_strict (ms : list ChunkInfo) :
  StronglySorted (fun c d => TargetOffset c <= TargetOffset d) ms ->
  NoDup (TargetOffset <$> ms) ->
  ChunksMapper.sorted_by_target ms.
Proof.
  induction 1 as [|c ms Hs IH Hc]; intros Hnd; constructor.
  - apply IH. by apply NoDup_cons in Hnd as [_ ?].
  - cbn in Hnd. apply NoDup_cons in Hnd as [Hnc _].
    apply Forall_forall. intros d Hd.
    pose proof (proj1 (Forall_forall _ _) Hc d Hd) as Hle. cbn in Hle.
    assert (TargetOffset c <> TargetOffset d); [|lia].
    intros Heq. apply Hnc. rewrite Heq. by apply list_elem_of_fmap_2.
Qed.

Lemma last_with_target_snoc (cs : list ChunkInfo) (x c : ChunkInfo) :
  last_with_target (cs ++ [x]) c
  <-> c = x \/ (TargetOffset x <> TargetOffset c /\ last_with_target cs c).
Proof.
  split.
  - intros (i & Hi & Hlast).
    destruct (decide (i < length cs)%nat) as [Hlt|Hge].
    + right. rewrite lookup_app_l in Hi by done. split.
      * apply (Hlast (length cs)); [done|].
        by rewrite lookup_app_r, Nat.sub_diag.
      * exists i. split; [done|]. intros j d Hij Hj.
        apply (Hlast j d Hij). rewrite lookup_app_l; [done|].
        by eapply lookup_lt_Some.
    + left. pose proof (lookup_lt_Some _ _ _ Hi) as Hlen.
      rewrite length_app in Hlen. cbn in Hlen.
      replace i with (length cs) in Hi by lia.
      rewrite lookup_app_r, Nat.sub_diag in Hi by done. cbn in Hi.
      congruence.
  - intros [->|(Hne & i & Hi & Hlast)].
    + exists (length cs). split; [by rewrite lookup_app_r, Nat.sub_diag|].
      intros j d Hj Hd. apply lookup_lt_Some in Hd.
      rewrite length_app in Hd. cbn in Hd. lia.
    + exists i. split.
      * rewrite lookup_app_l; [done|]. by eapply lookup_lt_Some.
      * intros j d Hij Hj.
        destruct (decide (j < length cs)%nat) as [Hlt|Hge].
        -- rewrite lookup_app_l in Hj by done. by eapply Hlast.
        -- pose proof (lookup_lt_Some _ _ _ Hj) as Hlen.
           rewrite length_app in Hlen. cbn in Hlen.
           replace j with (length cs) in Hj by lia.
           rewrite lookup_app_r, Nat.sub_diag in Hj by done. cbn in Hj.
           congruence.
Qed.

Lemma FillChunksMap_lookup_last (R : Z) (cs : list ChunkInfo) (c : ChunkInfo) :
  ChunksMapper.chunksMap
    (ChunksMapper.FillChunksMap (ChunksMapper.NewFileChunksMapper R) cs)
  !! TargetOffset c = Some c
  <-> last_with_target cs c.
Proof.
  induction cs as [|x cs IH] using rev_ind.
  - cbn. rewrite lookup_empty. split; [done|].
    intros (i & Hi & _). by rewrite lookup_nil in Hi.
  - rewrite FillChunksMap_snoc, last_with_target_snoc. cbn.
    destruct (decide (TargetOffset x = TargetOffset c)) as [Heq|Hne].
    + rewrite Heq, lookup_insert_eq. split.
      * intros [= ->]. by left.
      * intros [->|[? _]]; [done|congruence].
    + rewrite lookup_insert_ne by done. rewrite IH. split.
      * intros ?. by right.
      * intros [->|[_ ?]]; [done|done].
Qed.

(** X1.  Whatever chunks were added, in whatever order and with whatever
    repetitions, [GetMappedChunks] is strictly ascending by target offset,
    and holds, for each target offset, the chunk that was added last with
    it, and nothing else. *)
Theorem GetMappedChunks_last_wins (R : Z) (cs : list ChunkInfo) :
  let mapper :=
    ChunksMapper.FillChunksMap (ChunksMapper.NewFileChunksMapper R) cs in
  ChunksMapper.sorted_by_target (ChunksMapper.GetMappedChunks mapper) /\
  forall c, c ∈ ChunksMapper.GetMappedChunks mapper <-> last_with_target cs c.
Proof.
  intros mapper.
  assert (keyed_by_target (ChunksMapper.chunksMap mapper)) as Hkey.
  { apply FillChunksMap_keyed. cbn. apply map_Forall_empty. }
  split.
  - apply sorted_distinct_strict.
    + apply SliceStable_sorted.
    + by apply GetMappedChunks_targets_NoDup.
  - intros c. rewrite (GetMappedChunks_elem mapper c Hkey).
    apply FillChunksMap_lookup_last.
Qed.

(** ** The plan when the scan sends a block more than once *)

(** The mapped chunks, when chunks for the same block may have been added
    several times. *)
Lemma GetMappedChunks_chain_repeats (R : Z) (cs : list ChunkInfo) :
  0 <= R ->
  Forall (fun c => 0 < Size c /\ 0 <= TargetOffset c /\ TargetEnd c <= R) cs ->
  (forall c d, c ∈ cs -> d ∈ cs -> same_or_disjoint c d) ->
  chain 0
    (ChunksMapper.GetMappedChunks
       (ChunksMapper.FillChunksMap (ChunksMapper.NewFileChunksMapper R) cs))
    R.
Proof.
  intros HR Hcs Hsd.
  set (mapper := ChunksMapper.FillChunksMap
                   (ChunksMapper.NewFileChunksMapper R) cs).
  assert (keyed_by_target (ChunksMapper.chunksMap mapper)) as Hkey.
  { apply FillChunksMap_keyed. cbn. apply map_Forall_empty. }
  assert (forall c, c ∈ ChunksMapper.GetMappedChunks mapper ->
                    last_with_target cs c) as Hin.
  { intros c Hc. apply (FillChunksMap_lookup_last R cs c).
    by apply (GetMappedChunks_elem mapper c Hkey). }
  pose proof (GetMappedChunks_targets_NoDup mapper Hkey) as Hnd.
  assert (forall c, c ∈ ChunksMapper.GetMappedChunks mapper -> c ∈ cs)
    as Hsub.
  { intros c (i & Hi & _)%Hin. by eapply list_elem_of_lookup_2. }
  assert (Forall (fun c => 0 < Size c /\ 0 <= TargetOffset c /\
                           TargetEnd c <= R)
                 (ChunksMapper.GetMappedChunks mapper)) as Hb.
  { apply Forall_forall. intros c Hc%Hsub.
    by eapply Forall_forall in Hcs. }
  apply chain_of_sorted; [| |done].
  - apply sorted_disjoint_ends_before.
    + apply SliceStable_sorted.
    + by eapply NoDup_fmap_1.
    + intros c d Hc Hd Hne.
      destruct (Hsd c d (Hsub c Hc) (Hsub d Hd)) as [[Heq _]|?]; [|done].
      exfalso. apply Hne.
      by apply (NoDup_fmap_eq TargetOffset
                  (ChunksMapper.GetMappedChunks mapper)).
    + eapply Forall_impl; [exact Hb|]. cbn. tauto.
  - eapply Forall_impl; [exact Hb|]. cbn. tauto.
Qed.

Lemma tiles_partitions (R : Z) (plan : list ChunkInfo) :
  ChunksMapper.tiles 0 plan R -> partitions R plan.
Proof.
  intros Htiles. split; [by eapply tiles_sorted|].
  split; [by eapply ends_before_disjoint, tiles_ends_before|].
  split; [|intros x; by apply tiles_covers].
  apply tiles_bounds in Htiles as [_ Hb].
  eapply Forall_impl; [exact Hb|]. cbn. tauto.
Qed.

Lemma PlannedChunks_tiles_repeats (R : Z) (cs : list ChunkInfo) :
  0 <= R <= Int64.max_int ->
  Forall (fun c => 0 < Size c /\ 0 <= TargetOffset c /\ TargetEnd c <= R) cs ->
  (forall c d, c ∈ cs -> d ∈ cs -> same_or_disjoint c d) ->
  ChunksMapper.tiles 0
    (ChunksMapper.PlannedChunks
       (ChunksMapper.FillChunksMap (ChunksMapper.NewFileChunksMapper R) cs))
    R.
Proof.
  intros HR Hcs Hsd.
  pose proof (GetMappedChunks_chain_repeats R cs ltac:(lia) Hcs Hsd) as Hchain.
  unfold ChunksMapper.PlannedChunks, ChunksMapper.GetMissingChunks,
    ChunksMapper.GetMissingChunksFrom.
  rewrite FillChunksMap_fileSize. cbn [ChunksMapper.fileSize
    ChunksMapper.NewFileChunksMapper].
  apply merge_missing_tiles; [lia|lia|done].
Qed.

(** What [createChunk] makes of a block that starts inside the remote
    file. *)
Lemma scanned_bounds (zsync : ZSync.t) (c : ChunkInfo) :
  0 < ZSync.BlockSize zsync ->
  0 <= ZSync.RemoteFileSize zsync ->
  ZSync.RemoteFileSize zsync + ZSync.BlockSize zsync <= Int64.max_int ->
  scanned zsync c ->
  exists i : Z,
    0 <= i /\ TargetOffset c = i * ZSync.BlockSize zsync /\
    Size c = Z.min (ZSync.BlockSize zsync)
                   (ZSync.RemoteFileSize zsync - TargetOffset c) /\
    0 < Size c /\ TargetEnd c <= ZSync.RemoteFileSize zsync.
Proof.
  intros HB HR Hfit (offset & m & -> & Hm & Hin).
  exists (ZSync.ChunkOffset m).
  destruct (createChunk_fields zsync offset m Hm HB ltac:(lia) ltac:(lia))
    as (_ & HT & Hfull & Hcut & Hend).
  unfold TargetEnd. rewrite HT in *.
  destruct (Z.le_gt_cases
              (ZSync.ChunkOffset m * ZSync.BlockSize zsync
               + ZSync.BlockSize zsync) (ZSync.RemoteFileSize zsync)).
  - rewrite (Hfull ltac:(lia)). repeat split; lia.
  - rewrite (Hcut ltac:(lia)). repeat split; lia.
Qed.

(** Chunks of the scan lie inside the remote file, and two of them are for
    the same block or do not overlap. *)
Lemma scanned_well_placed (zsync : ZSync.t) (cs : list ChunkInfo) :
  0 < ZSync.BlockSize zsync ->
  0 <= ZSync.RemoteFileSize zsync ->
  ZSync.RemoteFileSize zsync + ZSync.BlockSize zsync <= Int64.max_int ->
  Forall (scanned zsync) cs ->
  Forall (fun c => 0 < Size c /\ 0 <= TargetOffset c /\
                   TargetEnd c <= ZSync.RemoteFileSize zsync) cs /\
  forall c d, c ∈ cs -> d ∈ cs -> same_or_disjoint c d.
Proof.
  intros HB HR Hfit Hcs. split.
  - eapply Forall_impl; [exact Hcs|]. cbn. intros c Hc.
    destruct (scanned_bounds zsync c HB HR Hfit Hc)
      as (i & Hi & HT & _ & Hpos & Hend).
    repeat split; [done|nia|done].
  - intros c d Hc Hd.
    destruct (scanned_bounds zsync c HB HR Hfit
                (proj1 (Forall_forall _ _) Hcs c Hc))
      as (i & Hi & HTc & HSc & Hpc & Hec).
    destruct (scanned_bounds zsync d HB HR Hfit
                (proj1 (Forall_forall _ _) Hcs d Hd))
      as (j & Hj & HTd & HSd & Hpd & Hed).
    unfold same_or_disjoint, ChunksMapper.disjoint, TargetEnd in *.
    destruct (Z.lt_trichotomy i j) as [Hlt|[->|Hgt]].
    + right. left. nia.
    + left. split; [congruence|]. rewrite HSc, HSd. congruence.
    + right. right. nia.
Qed.

(** X2.  The chunks that [createChunks] makes for blocks inside the remote
    file, added to a mapper in any order and any number of times, give a
    plan (mapped and missing chunks merged) that is ascending by target
    offset, without overlap and without empty chunk, and covers exactly
    [[0, RemoteFileSize)]. *)
Theorem scanned_plan_partitions (zsync : ZSync.t) (cs : list ChunkInfo) :
  0 < ZSync.BlockSize zsync ->
  0 <= ZSync.RemoteFileSize zsync ->
  ZSync.RemoteFileSize zsync + ZSync.BlockSize zsync <= Int64.max_int ->
  Forall (scanned zsync) cs ->
  partitions (ZSync.RemoteFileSize zsync)
    (ChunksMapper.PlannedChunks
       (ChunksMapper.FillChunksMap
          (ChunksMapper.NewFileChunksMapper (ZSync.RemoteFileSize zsync))
          cs)).
Proof.
  intros HB HR Hfit Hcs. apply tiles_partitions.
  destruct (scanned_well_placed zsync cs HB HR Hfit Hcs) as [Hb Hsd].
  by apply PlannedChunks_tiles_repeats; [lia| |].
Qed.

Lemma scanned_plan_partitions_witness :
  partitions 70
    (ChunksMapper.PlannedChunks
       (ChunksMapper.FillChunksMap (ChunksMapper.NewFileChunksMapper 70)
          sample_scan)) /\
  SourceOffset <$> ChunksMapper.GetMappedChunks
    (ChunksMapper.FillChunksMap (ChunksMapper.NewFileChunksMapper 70)
       sample_scan)
  = [0; 5].
Proof.
  split; [|reflexivity].
  apply (scanned_plan_partitions sample_zsync sample_scan).
  - reflexivity.
  - cbn. lia.
  - cbn. int64.
  - unfold sample_scan, scanned.
    repeat (apply Forall_cons_2;
            [eexists _, _; split; [reflexivity|cbn; lia]|]).
    apply Forall_nil_2.
Defined.

(** ** Nothing is missing exactly when the reuse chunks fill the file *)

Lemma missing_loop_nil_iff (R p : Z) (ms : list ChunkInfo) :
  R <= Int64.max_int -> 0 <= p -> chain p ms R ->
  ChunksMapper.missing_loop R p ms = [] <-> ChunksMapper.tiles p ms R.
Proof.
  intros HR. revert p. induction ms as [|c ms IH]; intros p Hp Hch.
  - cbn. destruct (Z.eqb_spec p R); cbn; split; done.
  - destruct Hch as (Hpc & Hsz & Hch).
    pose proof (chain_le _ _ _ Hch) as Hend. unfold TargetEnd in *.
    cbn [ChunksMapper.missing_loop ChunksMapper.tiles].
    rewrite add_exact by int64.
    specialize (IH (TargetOffset c + Size c) ltac:(lia) Hch).
    unfold TargetEnd.
    destruct (Z.eqb_spec p (TargetOffset c)) as [->|Hne]; cbn [negb app].
    + rewrite IH. tauto.
    + split; [done|]. intros (? & _). congruence.
Qed.

(** X3.  For reuse chunks as the scan makes them, [GetMissingChunks] is
    empty if and only if the mapped chunks follow one another from offset
    0 to the end of the remote file without a gap. *)
Theorem GetMissingChunks_nil_iff (zsync : ZSync.t) (cs : list ChunkInfo) :
  0 < ZSync.BlockSize zsync ->
  0 <= ZSync.RemoteFileSize zsync ->
  ZSync.RemoteFileSize zsync + ZSync.BlockSize zsync <= Int64.max_int ->
  Forall (scanned zsync) cs ->
  let mapper :=
    ChunksMapper.FillChunksMap
      (ChunksMapper.NewFileChunksMapper (ZSync.RemoteFileSize zsync)) cs in
  ChunksMapper.GetMissingChunks mapper = []
  <-> ChunksMapper.tiles 0 (ChunksMapper.GetMappedChunks mapper)
        (ZSync.RemoteFileSize zsync).
Proof.
  intros HB HR Hfit Hcs mapper.
  unfold ChunksMapper.GetMissingChunks, ChunksMapper.GetMissingChunksFrom.
  unfold mapper at 1. rewrite FillChunksMap_fileSize.
  cbn [ChunksMapper.fileSize ChunksMapper.NewFileChunksMapper].
  apply missing_loop_nil_iff; [lia|lia|].
  destruct (scanned_well_placed zsync cs HB HR Hfit Hcs) as [Hb Hsd].
  by apply GetMappedChunks_chain_repeats.
Qed.

Lemma GetMissingChunks_nil_iff_witness :
  ChunksMapper.GetMissingChunks
    (ChunksMapper.FillChunksMap (ChunksMapper.NewFileChunksMapper 70)
       sample_full_scan)
  = [] /\
  ChunksMapper.tiles 0
    (ChunksMapper.GetMappedChunks
       (ChunksMapper.FillChunksMap (ChunksMapper.NewFileChunksMapper 70)
          sample_full_scan)) 70.
Proof.
  split; [reflexivity|].
  apply (GetMissingChunks_nil_iff sample_zsync sample_full_scan);
    [reflexivity|cbn; lia|cbn; int64| |reflexivity].
  unfold sample_full_scan, scanned.
  repeat (apply Forall_cons_2;
          [eexists _, _; split; [reflexivity|cbn; lia]|]).
  apply Forall_nil_2.
Defined.

(* ===================================================================== *)
(** ** More on OptimizeChunks *)
(* ===================================================================== *)

Lemma coalesce_spec_apart (g : Z) (c : ChunkInfo) (rest : list ChunkInfo) :
  ChunksMapper.gaps_at_least g (c :: rest) ->
  ChunksMapper.coalesce_spec g c rest = c :: rest.
Proof.
  revert c. induction rest as [|d rest IH]; intros c; [done|].
  intros [Hgap Hrest]. cbn [ChunksMapper.coalesce_spec].
  destruct (Z.ltb_spec (SourceOffset d - SourceEnd c) g); [lia|].
  by rewrite IH.
Qed.

(** X4.  Fetch chunks that are already at least [minGap] bytes apart come
    out of [OptimizeChunks] as they went in (sorted input, no overflow). *)
Theorem OptimizeChunks_apart_unchanged (chunkList : list ChunkInfo)
    (minGap : Z) :
  0 <= minGap ->
  ChunksMapper.sorted_by_source chunkList ->
  Forall (fetch_in_range minGap) chunkList ->
  ChunksMapper.gaps_at_least minGap chunkList ->
  ChunksMapper.OptimizeChunks chunkList minGap = chunkList.
Proof.
  intros Hg Hs%sorted_by_source_strongly Hfit Hgaps.
  rewrite (OptimizeChunks_run chunkList minGap Hs).
  destruct (run_is_coalesce_spec minGap chunkList Hg Hs Hfit) as [-> _].
  destruct chunkList as [|c rest]; [done|]. by apply coalesce_spec_apart.
Qed.

Lemma OptimizeChunks_apart_unchanged_witness :
  ChunksMapper.OptimizeChunks [fetch 0 10; fetch 200 100] 190
  = [fetch 0 10; fetch 200 100].
Proof.
  apply (OptimizeChunks_apart_unchanged [fetch 0 10; fetch 200 100] 190).
  - lia.
  - repeat constructor; cbn; lia.
  - unfold fetch_in_range.
    repeat (apply Forall_cons_2; [cbn; int64|]). apply Forall_nil_2.
  - cbn. unfold SourceEnd. cbn. lia.
Defined.

(** *** Nothing to fetch is lost *)

Lemma in_a_row_sorted (l : list ChunkInfo) :
  Forall (fun c => 0 <= Size c) l -> in_a_row l ->
  ChunksMapper.sorted_by_source l.
Proof.
  induction l as [|c l IH]; intros Hsz Hrow; [constructor|].
  apply Forall_cons in Hsz as [Hc Hsz]. destruct l as [|d l].
  - repeat constructor.
  - destruct Hrow as [Hcd Hrow].
    constructor; [by apply IH|]. constructor. unfold SourceEnd in Hcd. lia.
Qed.

Lemma inside_weaken (out : list ChunkInfo) (x c : ChunkInfo) :
  inside out c -> inside (x :: out) c.
Proof.
  intros (c' & Hin & Hc'). exists c'. split; [by right|done].
Qed.

Lemma coalesce_spec_covers (g : Z) (cur : ChunkInfo) (rest : list ChunkInfo) :
  0 <= Size cur -> Forall (fun c => 0 <= Size c) rest ->
  in_a_row (cur :: rest) ->
  exists hd tl,
    ChunksMapper.coalesce_spec g cur rest = hd :: tl /\
    SourceOffset hd = SourceOffset cur /\
    SourceEnd cur <= SourceEnd hd /\
    Forall (inside (hd :: tl)) rest /\
    in_a_row (hd :: tl) /\
    Forall (fun c => 0 <= Size c) (hd :: tl).
Proof.
  revert cur. induction rest as [|next rest IH]; intros cur Hcur Hsz Hrow.
  - exists cur, []. cbn. repeat split; try done; try lia.
    by repeat constructor.
  - apply Forall_cons in Hsz as [Hnext Hsz]. destruct Hrow as [Hcn Hrow].
    cbn [ChunksMapper.coalesce_spec]. unfold SourceEnd in *.
    destruct (_ <? g).
    + destruct (IH (with_Size cur (SourceOffset next + Size next
                                   - SourceOffset cur)))
        as (hd & tl & -> & Hb & He & Hin & Hr & Hs);
        [cbn; lia|done| |].
      { destruct rest as [|d rest]; [done|]. destruct Hrow as [Hnd Hrow].
        split; [|done]. unfold SourceEnd in *. cbn. lia. }
      cbn in Hb, He. exists hd, tl. repeat split; try done; try lia.
      constructor; [|done].
      exists hd. split; [by left|]. unfold SourceEnd. lia.
    + destruct (IH next Hnext Hsz Hrow)
        as (hd & tl & -> & Hb & He & Hin & Hr & Hs).
      exists cur, (hd :: tl). repeat split; try done; try lia.
      * constructor.
        -- exists hd. split; [right; by left|]. unfold SourceEnd. lia.
        -- eapply Forall_impl; [exact Hin|]. intros c. apply inside_weaken.
      * unfold SourceEnd. lia.
      * by constructor.
Qed.

Lemma coalesce_spec_within (g lo hi : Z) (cur : ChunkInfo)
    (rest : list ChunkInfo) :
  lo <= SourceOffset cur -> SourceEnd cur <= hi ->
  Forall (fun c => lo <= SourceOffset c /\ SourceEnd c <= hi) rest ->
  Forall (fun c => lo <= SourceOffset c /\ SourceEnd c <= hi)
         (ChunksMapper.coalesce_spec g cur rest).
Proof.
  revert cur. induction rest as [|next rest IH]; intros cur Hlo Hhi Hrest.
  - cbn. by repeat constructor.
  - apply Forall_cons in Hrest as [[Hnl Hnh] Hrest].
    cbn [ChunksMapper.coalesce_spec]. destruct (_ <? g).
    + apply IH; [done| |done]. unfold SourceEnd in *. cbn. lia.
    + constructor; [done|]. by apply IH.
Qed.

(** X5.  Fetch chunks in a row (each ends before the next starts, none of
    negative size, no overflow), inside [[lo, hi)].  After
    [OptimizeChunks] every input chunk lies inside some output chunk, and
    the output chunks are still in a row and inside [[lo, hi)]: merging
    loses no byte to fetch and asks for none outside the range. *)
Theorem OptimizeChunks_covers (chunkList : list ChunkInfo)
    (minGap lo hi : Z) :
  0 <= minGap ->
  Forall (fetch_in_range minGap) chunkList ->
  in_a_row chunkList ->
  Forall (fun c => lo <= SourceOffset c /\ SourceEnd c <= hi) chunkList ->
  let out := ChunksMapper.OptimizeChunks chunkList minGap in
  Forall (inside out) chunkList /\
  in_a_row out /\
  Forall (fun c => lo <= SourceOffset c /\ SourceEnd c <= hi) out.
Proof.
  intros Hg Hfit Hrow Hin out.
  assert (Forall (fun c => 0 <= Size c) chunkList) as Hsz.
  { eapply Forall_impl; [exact Hfit|]. unfold fetch_in_range. cbn. tauto. }
  pose proof (sorted_by_source_strongly _
                (in_a_row_sorted _ Hsz Hrow)) as Hs.
  unfold out. rewrite (OptimizeChunks_run chunkList minGap Hs).
  destruct (run_is_coalesce_spec minGap chunkList Hg Hs Hfit) as [-> _].
  destruct chunkList as [|c rest]; [by repeat split|].
  apply Forall_cons in Hsz as [Hc Hsz].
  apply Forall_cons in Hin as [[Hclo Hchi] Hin].
  cbn [ChunksMapper.coalesce_fetches_spec].
  pose proof (coalesce_spec_within minGap lo hi c rest Hclo Hchi Hin) as Hw.
  destruct (coalesce_spec_covers minGap c rest Hc Hsz Hrow)
    as (hd & tl & Heq & Hb & He & Hcov & Hr & _).
  rewrite Heq in Hw |- *. split; [|by split].
  constructor; [|done]. exists hd. split; [by left|lia].
Qed.

Lemma OptimizeChunks_covers_witness :
  Forall (inside (ChunksMapper.OptimizeChunks sample_fetches 1024))
         sample_fetches /\
  Forall (fun c => 0 <= SourceOffset c /\ SourceEnd c <= 2501)
         (ChunksMapper.OptimizeChunks sample_fetches 1024).
Proof.
  destruct (OptimizeChunks_covers sample_fetches 1024 0 2501)
    as (Hin & _ & Hw); [lia| | | |by split].
  - unfold sample_fetches, fetch_in_range.
    repeat (apply Forall_cons_2; [cbn; int64|]). apply Forall_nil_2.
  - cbn. unfold SourceEnd. cbn. lia.
  - unfold sample_fetches, SourceEnd.
    repeat (apply Forall_cons_2; [cbn; lia|]). apply Forall_nil_2.
Defined.

(** *** Only sizes change *)

Lemma run_offsets_sublist (g : Z) (cur : option (Z * ChunkInfo))
    (rest : list ChunkInfo) :
  sublist (offsets <$> run g cur rest)
          (offsets <$> (match cur with
                        | Some (_, chunk) => [chunk]
                        | None => []
                        end ++ rest)).
Proof.
  revert cur. induction rest as [|next rest IH]; intros cur.
  - destruct cur as [[e c]|]; cbn; reflexivity.
  - assert (sublist (offsets <$> run g None (next :: rest))
                    (offsets <$> next :: rest)) as Hfresh.
    { rewrite run_cons_none. destruct (absorbs g (src_end next) next).
      - apply (IH (Some (src_end next, extend next next))).
      - cbn. apply sublist_skip, (IH None). }
    destruct cur as [[e c]|]; [|exact Hfresh].
    rewrite run_cons_some. destruct (absorbs g e next).
    + etrans; [apply (IH (Some (src_end next, extend c next)))|].
      cbn. apply sublist_skip, sublist_cons. reflexivity.
    + cbn. apply sublist_skip. exact Hfresh.
Qed.

Lemma run_nil_iff (g : Z) (cur : option (Z * ChunkInfo))
    (rest : list ChunkInfo) :
  run g cur rest = [] <-> cur = None /\ rest = [].
Proof.
  revert cur. induction rest as [|next rest IH]; intros cur.
  - destruct cur as [[e c]|]; cbn; split; try done. by intros [? _].
  - split; [|by intros [_ ?]]. intros Hnil. exfalso.
    assert (run g None (next :: rest) <> []) as Hfresh.
    { rewrite run_cons_none. destruct (absorbs g (src_end next) next);
        [|done]. by intros [? _]%IH. }
    destruct cur as [[e c]|]; [|done].
    rewrite run_cons_some in Hnil. destruct (absorbs g e next); [|done].
    by apply IH in Hnil as [? _].
Qed.

(** X6.  On a list sorted by source offset, with any sizes and any gap
    (overflow included), [OptimizeChunks] only drops chunks and changes
    sizes: the source offset, target offset and source of its chunks are
    those of input chunks, in the same order; the result is sorted by
    source offset, and it is empty only for the empty list. *)
Theorem OptimizeChunks_keeps_offsets (chunkList : list ChunkInfo)
    (minGap : Z) :
  ChunksMapper.sorted_by_source chunkList ->
  let out := ChunksMapper.OptimizeChunks chunkList minGap in
  sublist (offsets <$> out) (offsets <$> chunkList) /\
  ChunksMapper.sorted_by_source out /\
  (length out <= length chunkList)%nat /\
  (out = [] <-> chunkList = []).
Proof.
  intros Hs%sorted_by_source_strongly out. unfold out.
  rewrite (OptimizeChunks_run chunkList minGap Hs).
  pose proof (run_offsets_sublist minGap None chunkList) as Hsub.
  split; [exact Hsub|]. split; [|split].
  - apply StronglySorted_Sorted. by apply (run_sorted minGap None).
  - apply sublist_length in Hsub. by rewrite !length_fmap in Hsub.
  - rewrite run_nil_iff. tauto.
Qed.

Lemma OptimizeChunks_keeps_offsets_witness :
  sublist (offsets <$> ChunksMapper.OptimizeChunks sample_fetches 1024)
          (offsets <$> sample_fetches).
Proof.
  destruct (OptimizeChunks_keeps_offsets sample_fetches 1024) as [H _];
    [|exact H].
  repeat constructor; cbn; lia.
Defined.

(* ===================================================================== *)
(** ** More on SearchReusableChunks *)
(* ===================================================================== *)

Lemma worker_ranges_empty_file (B NumCPU : Z) :
  1 <= NumCPU ->
  ZSync.worker_ranges B NumCPU 0 = Panic "integer divide by zero".
Proof.
  intros HCPU. unfold ZSync.worker_ranges. unfold Int64.div at 1.
  destruct (Z.eqb_spec B 0) as [|HB]; [done|].
  rewrite Z.quot_0_l by done. change (Int64.wrap 0) with 0.
  change (Int64.mul 0 B) with 0. cbn [Z.ltb Z.compare].
  destruct (Z.gtb_spec NumCPU 0); [reflexivity|lia].
Qed.

(** X7.  [SearchReusableChunks] stops with a division by zero when the
    block size is zero, and also, whatever the positive block size and the
    number of processors, when the local file is empty: the number of
    workers is then capped at zero blocks, and divides the block count. *)
Theorem SearchReusableChunks_divide_by_zero (zsync : ZSync.t)
    (NumCPU inputSize : Z) :
  ZSync.BlockSize zsync = 0 \/
  (inputSize = 0 /\ 1 <= NumCPU) ->
  ZSync.SearchReusableChunks zsync NumCPU (inr inputSize)
  = Panic "integer divide by zero".
Proof.
  unfold ZSync.SearchReusableChunks.
  intros [HB|[-> HCPU]].
  - unfold ZSync.worker_ranges. rewrite HB. reflexivity.
  - by rewrite worker_ranges_empty_file.
Qed.

Lemma SearchReusableChunks_divide_by_zero_witness :
  ZSync.SearchReusableChunks sample_zsync 8 (inr 0)
  = Panic "integer divide by zero".
Proof.
  apply (SearchReusableChunks_divide_by_zero sample_zsync 8 0).
  right. split; [reflexivity|lia].
Defined.

Lemma in_some_range_map (f : nat -> Z * Z) (n : nat) (x : Z) :
  in_some_range (map f (seq 0 n)) x
  <-> exists i : nat, (i < n)%nat /\ (f i).1 <= x < (f i).2.
Proof.
  unfold in_some_range. split.
  - intros (r & Hin & Hx). apply list_elem_of_In, in_map_iff in Hin
      as (i & <- & Hi%in_seq). exists i. split; [lia|done].
  - intros (i & Hi & Hx). exists (f i). split; [|done].
    apply list_elem_of_In, in_map. apply in_seq. lia.
Qed.

(** X8.  What the workers scan of a file that is not empty: the ranges
    cover exactly the offsets below [W * k * BlockSize] (and below the file
    size), where [W] is the number of workers and [k] the blocks per worker;
    so every offset of the file is in a range if and only if [W] divides
    the number of blocks, and otherwise the last blocks are left to no
    worker. *)
Theorem SearchReusableChunks_scanned_part (zsync : ZSync.t)
    (NumCPU inputSize : Z) :
  0 < ZSync.BlockSize zsync -> 1 <= NumCPU <= Int64.max_int ->
  0 < inputSize -> inputSize + ZSync.BlockSize zsync <= Int64.max_int ->
  let blocks := block_count (ZSync.BlockSize zsync) inputSize in
  let W := Z.min NumCPU blocks in
  let k := blocks / W in
  exists ranges,
    ZSync.SearchReusableChunks zsync NumCPU (inr inputSize)
    = Ret (inr ranges) /\
    (forall x, in_some_range ranges x
               <-> 0 <= x < Z.min (W * k * ZSync.BlockSize zsync) inputSize) /\
    ((forall x, 0 <= x < inputSize -> in_some_range ranges x)
     <-> blocks mod W = 0).
Proof.
  intros HB HCPU Hn Hfit blocks W k. set (B := ZSync.BlockSize zsync) in *.
  destruct (block_count_bounds B inputSize HB Hn) as [Hc1 Hc2].
  fold blocks in Hc1, Hc2.
  assert (1 <= W) as HW by (unfold W; lia).
  assert (W <= blocks) as HWc by (unfold W; lia).
  pose proof (Z.div_mod blocks W ltac:(lia)) as Hdm.
  pose proof (Z.mod_pos_bound blocks W ltac:(lia)) as Hm.
  fold k in Hdm.
  assert (1 <= k) as Hk by (unfold k; apply Z.div_le_lower_bound; lia).
  unfold ZSync.SearchReusableChunks. fold B.
  rewrite worker_ranges_nonempty by done. fold blocks. fold W. fold k.
  eexists. split; [reflexivity|].
  assert (0 < k * B) as HkB by nia.
  assert (forall x,
            in_some_range
              (map (fun i : nat =>
                      (k * B * Z.of_nat i,
                       Z.min (k * B * Z.of_nat i + k * B) inputSize))
                   (seq 0 (Z.to_nat W))) x
            <-> 0 <= x < Z.min (W * k * B) inputSize) as Hexact.
  { intros x. rewrite in_some_range_map. cbn [fst snd]. split.
    - intros (i & Hi & Hx). nia.
    - intros Hx. exists (Z.to_nat (x / (k * B))).
      pose proof (Z.div_mod x (k * B) ltac:(lia)) as Hxd.
      pose proof (Z.mod_pos_bound x (k * B) HkB) as Hxm.
      assert (0 <= x / (k * B)) as Hq by (apply Z.div_pos; lia).
      assert (x / (k * B) < W) as HqW.
      { apply Z.div_lt_upper_bound; [lia|]. nia. }
      rewrite Z2Nat.id by done. split; [lia|]. nia. }
  split; [exact Hexact|]. split.
  - intros Hall.
    destruct (Z.eq_dec (blocks mod W) 0) as [|Hne]; [done|exfalso].
    assert (W * k * B < inputSize) as Hshort by nia.
    assert (0 <= W * k * B) as Hpos by nia.
    destruct (proj1 (Hexact (W * k * B))
                (Hall (W * k * B) (conj Hpos Hshort))) as [_ Hlt].
    lia.
  - intros Hdiv x Hx. apply Hexact. nia.
Qed.

Lemma SearchReusableChunks_scanned_part_witness :
  exists ranges,
    ZSync.SearchReusableChunks sample_zsync 4 (inr 80) = Ret (inr ranges) /\
    forall x, in_some_range ranges x <-> 0 <= x < 64.
Proof.
  destruct (SearchReusableChunks_scanned_part sample_zsync 4 80)
    as (ranges & Heq & Hx & _); [reflexivity|int64|lia|cbn; int64|].
  exists ranges. split; [exact Heq|exact Hx].
Defined.

(* ===================================================================== *)
(** ** What one worker sends *)
(* ===================================================================== *)

Section Scanner_run.

Variable File : Type.
Variable Buf : Type.
Variable os_Open : string -> error + File.
Variable file_Seek : File -> Z -> File * option error.
Variable NewHashedBuffer : Z -> Buf.
Variable ReadFull : Buf -> File -> Buf * File * option error.
Variable ReadByte : Buf -> File -> Buf * File * option error.
Variable RollingSum : Buf -> list byte.
Variable CheckSum : Buf -> list byte.

Local Abbreviation scan_state := (ZSync.scan_state File Buf).
Local Abbreviation scan_iteration :=
  (ZSync.scan_iteration File Buf ReadFull ReadByte RollingSum CheckSum).
Local Abbreviation scan_loop :=
  (ZSync.scan_loop File Buf ReadFull ReadByte RollingSum CheckSum).
Local Abbreviation off := (ZSync.off File Buf).
Local Abbreviation chunksChan := (ZSync.chunksChan File Buf).

(** A turn sends nothing, or the chunks of one strong match at the current
    offset. *)
Lemma scan_iteration_sends (zsync : ZSync.t) (st : scan_state) :
  match scan_iteration zsync st with
  | ZSync.Break _ _ st' => chunksChan st' = chunksChan st
  | ZSync.Continue _ _ st' =>
      (off st' = Int64.add (off st) 1 /\ chunksChan st' = chunksChan st) \/
      (exists strongSum weakMatches strongMatches,
         ZSync.FindStrongChecksum2 (ZSync.ChecksumsIndex zsync) strongSum
                                   weakMatches = Some strongMatches /\
         off st' = Int64.add (off st) (ZSync.BlockSize zsync) /\
         chunksChan st'
         = chunksChan st
           ++ ZSync.createChunks zsync strongMatches (off st))
  end.
Proof.
  unfold ZSync.scan_iteration, ZSync.scan_body.
  destruct (ZSync.consumeBytes _ _ _ _ _ _ _ _) as [[b i] [e|]]; [done|].
  destruct (ZSync.FindWeakChecksum2 _ _) as [wm|]; [|by left].
  destruct (ZSync.FindStrongChecksum2 _ _ _) as [sm|] eqn:Hsm; [|by left].
  right. by exists (CheckSum b), wm, sm.
Qed.

Lemma scan_loop_sends (zsync : ZSync.t) (begin end_ : Z) (fuel : nat)
    (st st' : scan_state) :
  0 < ZSync.BlockSize zsync ->
  end_ + ZSync.BlockSize zsync <= Int64.max_int ->
  Int64.min_int <= begin ->
  scan_loop fuel zsync end_ st = Some st' ->
  begin <= off st ->
  Forall (sent_by_scan zsync begin end_) (chunksChan st) ->
  Forall (fun c => SourceOffset c + ZSync.BlockSize zsync <= off st)
         (chunksChan st) ->
  StronglySorted (same_or_apart (ZSync.BlockSize zsync)) (chunksChan st) ->
  Forall (sent_by_scan zsync begin end_) (chunksChan st') /\
  StronglySorted (same_or_apart (ZSync.BlockSize zsync)) (chunksChan st').
Proof.
  intros HB Hend Hlo. revert st.
  induction fuel as [|fuel IH]; intros st Hrun Hoff Hsent Hbefore Hsorted;
    cbn [ZSync.scan_loop] in Hrun;
    destruct (Z.ltb_spec (off st) end_) as [Hlt|Hge];
    try (injection Hrun as <-; by split); [done|].
  pose proof (scan_iteration_sends zsync st) as Hturn.
  destruct (scan_iteration zsync st) as [st1|st1].
  { injection Hrun as <-. rewrite Hturn. by split. }
  destruct Hturn as [[Ho Hc]|(sum & wm & sm & Hsm & Ho & Hc)];
    rewrite add_exact in Ho by int64.
  - apply (IH st1 Hrun); rewrite ?Hc, ?Ho; try done; [lia|].
    eapply Forall_impl; [exact Hbefore|]. cbn. lia.
  - destruct (createChunks_at zsync sm (off st)) as [_ Hat].
    apply (IH st1 Hrun); rewrite ?Hc, ?Ho; [lia| | |].
    + apply Forall_app. split; [done|].
      apply Forall_forall. intros c Hin.
      pose proof (proj1 (Forall_forall _ _) Hat c Hin) as Hc_off.
      cbn in Hc_off. split; [lia|].
      apply list_elem_of_In, in_map_iff in Hin as (m & <- & Hm).
      exists m. split; [|by rewrite Hc_off].
      exists sum, wm, sm. split; [done|]. by apply list_elem_of_In.
    + apply Forall_app. split.
      * eapply Forall_impl; [exact Hbefore|]. cbn. lia.
      * eapply Forall_impl; [exact Hat|]. cbn. lia.
    + apply StronglySorted_app_2; [|done|].
      * intros c d Hc_in Hd_in. right.
        pose proof (proj1 (Forall_forall _ _) Hbefore c Hc_in) as H1.
        pose proof (proj1 (Forall_forall _ _) Hat d Hd_in) as H2.
        cbn in H1, H2. lia.
      * clear -Hat. induction Hat as [|c l Hc Hl IHl]; constructor; [done|].
        eapply Forall_impl; [exact Hl|]. intros d Hd. left. congruence.
Qed.

(** The loop of a worker, from its first turn to its return. *)
Lemma scan_loop_run (zsync : ZSync.t) (begin end_ : Z) (input1 : File) :
  0 < ZSync.BlockSize zsync ->
  Int64.min_int <= begin ->
  end_ + ZSync.BlockSize zsync <= Int64.max_int ->
  exists st',
    scan_loop (Z.to_nat (end_ - begin)) zsync end_
      (ZSync.mkScan File Buf begin (ZSync.BlockSize zsync)
         (NewHashedBuffer (ZSync.BlockSize zsync)) input1 [])
    = Some st' /\
    Forall (sent_by_scan zsync begin end_) (chunksChan st') /\
    StronglySorted (same_or_apart (ZSync.BlockSize zsync)) (chunksChan st').
Proof.
  intros HB Hlo Hend.
  set (st0 := ZSync.mkScan File Buf begin (ZSync.BlockSize zsync)
                (NewHashedBuffer (ZSync.BlockSize zsync)) input1 []).
  destruct (scan_loop_terminates File Buf ReadFull ReadByte RollingSum
              CheckSum zsync end_ (Z.to_nat (end_ - begin)) st0 HB Hend)
    as [st' Hrun]; [done|cbn; lia|].
  exists st'. split; [done|].
  apply (scan_loop_sends zsync begin end_ _ st0 st' HB Hend Hlo Hrun);
    cbn; [lia|constructor..].
Qed.

(** X9.  One worker over [[begin, end_)], with a positive block size and
    no overflow: [end_ - begin] turns of the loop are enough for it to
    return; every chunk it sends was made by [createChunk] from a strong
    match of the index, at a source offset within [[begin, end_)]; and the
    chunks come in the order of their source offsets, two of them read
    either from the same window or from windows that do not overlap.  A
    worker that cannot open the file, or cannot seek to [begin], sends
    nothing. *)
Theorem searchReusableChunksAsync_sends (zsync : ZSync.t) (path : string)
    (begin end_ : Z) :
  0 < ZSync.BlockSize zsync ->
  Int64.min_int <= begin ->
  end_ + ZSync.BlockSize zsync <= Int64.max_int ->
  exists sent,
    ZSync.searchReusableChunksAsync File Buf os_Open file_Seek
      NewHashedBuffer ReadFull ReadByte RollingSum CheckSum
      (Z.to_nat (end_ - begin)) zsync path begin end_ = Some sent /\
    Forall (sent_by_scan zsync begin end_) sent /\
    StronglySorted (same_or_apart (ZSync.BlockSize zsync)) sent /\
    (forall err, os_Open path = inl err -> sent = []).
Proof.
  intros HB Hlo Hend. unfold ZSync.searchReusableChunksAsync.
  destruct (os_Open path) as [e|input0].
  { exists []. repeat split; constructor. }
  destruct (file_Seek input0 begin) as [input1 [e|]].
  { exists []. repeat split; constructor. }
  destruct (scan_loop_run zsync begin end_ input1 HB Hlo Hend)
    as (st' & -> & Hsent & Hsorted).
  exists (chunksChan st'). repeat split; try done.
Qed.

(** X10.  The scan of a local file that is not empty, as
    [SearchReusableChunks] starts it: every worker returns, within as many
    turns as its range has bytes, and every chunk that a worker sends has
    its source offset inside the local file and was made by [createChunk]
    from a strong match of the index. *)
Theorem SearchReusableChunks_workers (zsync : ZSync.t) (NumCPU : Z)
    (inputSize : Z) (path : string) :
  0 < ZSync.BlockSize zsync -> 1 <= NumCPU <= Int64.max_int ->
  0 < inputSize -> inputSize + ZSync.BlockSize zsync <= Int64.max_int ->
  exists ranges,
    ZSync.SearchReusableChunks zsync NumCPU (inr inputSize)
    = Ret (inr ranges) /\
    Forall (fun r : Z * Z =>
              exists sent,
                ZSync.searchReusableChunksAsync File Buf os_Open file_Seek
                  NewHashedBuffer ReadFull ReadByte RollingSum CheckSum
                  (Z.to_nat (r.2 - r.1)) zsync path r.1 r.2 = Some sent /\
                Forall (sent_by_scan zsync 0 inputSize) sent)
           ranges.
Proof.
  intros HB HCPU Hn Hfit. set (B := ZSync.BlockSize zsync) in *.
  destruct (block_count_bounds B inputSize HB Hn) as [Hc1 Hc2].
  set (blocks := block_count B inputSize) in *.
  set (W := Z.min NumCPU blocks).
  assert (1 <= W) as HW by (unfold W; lia).
  assert (1 <= blocks / W) as Hk
    by (apply Z.div_le_lower_bound; unfold W; lia).
  unfold ZSync.SearchReusableChunks. fold B.
  rewrite worker_ranges_nonempty by done. fold blocks. fold W.
  eexists. split; [reflexivity|].
  apply Forall_forall. intros r Hr.
  apply list_elem_of_In, in_map_iff in Hr as (i & <- & _). cbn [fst snd].
  set (b := blocks / W * B * Z.of_nat i).
  set (e := Z.min (b + blocks / W * B) inputSize).
  assert (0 <= b) as Hb by (unfold b; nia).
  unfold ZSync.searchReusableChunksAsync.
  destruct (os_Open path) as [err|input0].
  { exists []. split; [done|constructor]. }
  destruct (file_Seek input0 b) as [input1 [err|]].
  { exists []. split; [done|constructor]. }
  destruct (scan_loop_run zsync b e input1 HB)
    as (st' & -> & Hsent & _); [int64|unfold e; lia|].
  exists (chunksChan st'). split; [done|].
  eapply Forall_impl; [exact Hsent|].
  intros c [Hc Hm]. split; [unfold e in Hc; lia|done].
Qed.

End Scanner_run.

Lemma searchReusableChunksAsync_sends_witness :
  exists sent,
    ZSync.searchReusableChunksAsync (list byte) (list byte) list_Open
      list_Seek (fun _ => []) list_ReadFull list_ReadByte id id
      32 hit_zsync "old" 0 32 = Some sent /\
    Forall (sent_by_scan hit_zsync 0 32) sent /\
    StronglySorted (same_or_apart 16) sent.
Proof.
  destruct (searchReusableChunksAsync_sends (list byte) (list byte)
              list_Open list_Seek (fun _ => []) list_ReadFull list_ReadByte
              id id hit_zsync "old" 0 32)
    as (sent & Hrun & Hsent & Hsorted & _).
  - reflexivity.
  - int64.
  - cbn. int64.
  - exists sent. split; [exact Hrun|]. split; [exact Hsent|exact Hsorted].
Defined.

Lemma SearchReusableChunks_workers_witness :
  exists ranges,
    ZSync.SearchReusableChunks hit_zsync 2 (inr 40) = Ret (inr ranges) /\
    Forall (fun r : Z * Z =>
              exists sent,
                ZSync.searchReusableChunksAsync (list byte) (list byte)
                  list_Open list_Seek (fun _ => []) list_ReadFull
                  list_ReadByte id id (Z.to_nat (r.2 - r.1)) hit_zsync
                  "old" r.1 r.2 = Some sent /\
                Forall (sent_by_scan hit_zsync 0 40) sent)
           ranges.
Proof.
  apply (SearchReusableChunks_workers (list byte) (list byte) list_Open
           list_Seek (fun _ => []) list_ReadFull list_ReadByte id id
           hit_zsync 2 40 "old").
  - reflexivity.
  - int64.
  - lia.
  - cbn. int64.
Defined.

(* ===================================================================== *)
(** ** More on WriteChunk *)
(* ===================================================================== *)

Lemma lookup_repeat {A : Type} (x : A) (n i : nat) :
  (i < n)%nat -> repeat x n !! i = Some x.
Proof.
  revert i. induction n as [|n IH]; intros [|i] Hi; cbn; try lia; [done|].
  apply IH. lia.
Qed.

(** The bytes of a file after a write at [pos]. *)
Lemma write_at_lookup (data : list byte) (pos : Z) (bs : list byte)
    (i : nat) :
  0 <= pos -> bs <> [] ->
  write_at data pos bs !! i
  = if Z.of_nat i <? pos
    then (if Z.of_nat i <? len data then data !! i else Some x00)
    else if Z.of_nat i <? pos + len bs
         then bs !! (i - Z.to_nat pos)%nat
         else data !! i.
Proof.
  intros Hpos Hbs. rewrite write_at_nonempty by done. unfold len.
  set (p := Z.to_nat pos).
  set (X := take p data ++ repeat x00 (p - length data)).
  assert (length X = p) as HX.
  { unfold X. rewrite length_app, length_take, repeat_length. lia. }
  destruct (Z.ltb_spec (Z.of_nat i) pos) as [Hlt|Hge].
  - rewrite lookup_app_l by lia. unfold X.
    destruct (Z.ltb_spec (Z.of_nat i) (Z.of_nat (length data))).
    + rewrite lookup_app_l by (rewrite length_take; lia).
      apply lookup_take_lt. lia.
    + rewrite lookup_app_r by (rewrite length_take; lia).
      apply lookup_repeat. rewrite length_take. lia.
  - rewrite lookup_app_r by lia. rewrite HX.
    destruct (Z.ltb_spec (Z.of_nat i) (pos + Z.of_nat (length bs))).
    + apply lookup_app_l. lia.
    + rewrite lookup_app_r by lia. rewrite lookup_drop. f_equal. lia.
Qed.

Lemma write_at_length (data : list byte) (pos : Z) (bs : list byte) :
  0 <= pos -> bs <> [] ->
  len (write_at data pos bs) = Z.max (len data) (pos + len bs).
Proof.
  intros Hpos Hbs. rewrite write_at_nonempty by done. unfold len.
  rewrite !length_app, length_take, repeat_length, length_drop. lia.
Qed.

(** X11.  [WriteChunk] between healthy files in memory, for a chunk of a
    positive size, writes the target only within
    [[TargetOffset, TargetOffset + Size)]: the bytes that the target had
    elsewhere are as they were, a hole between the old end of the target
    and [TargetOffset] reads as zeros, the target ends at the larger of
    its old length and [TargetOffset + Size], and the source keeps its
    bytes. *)
Theorem WriteChunk_elsewhere_untouched (source target : MemFile)
    (chunk : ChunkInfo) :
  fault source = None -> fault target = None ->
  0 <= SourceOffset chunk -> 0 <= TargetOffset chunk ->
  0 < Size chunk <= Int64.max_int ->
  let '(source', target', _) := ZSync.WriteChunk source target chunk in
  contents source' = contents source /\
  len (contents target')
  = Z.max (len (contents target)) (TargetOffset chunk + Size chunk) /\
  forall i : nat,
    Z.of_nat i < TargetOffset chunk \/
    TargetOffset chunk + Size chunk <= Z.of_nat i ->
    (Z.of_nat i < len (contents target) ->
     contents target' !! i = contents target !! i) /\
    (len (contents target) <= Z.of_nat i < TargetOffset chunk ->
     contents target' !! i = Some x00) /\
    (len (contents target) <= Z.of_nat i ->
     TargetOffset chunk + Size chunk <= Z.of_nat i ->
     contents target' !! i = None).
Proof.
  intros Hs Ht HS HT HN.
  rewrite (WriteChunk_healthy source target chunk Hs Ht HS HT ltac:(lia)).
  cbn [contents set_position].
  set (got := bytes_at source (SourceOffset chunk) (Size chunk)).
  set (zeros := repeat x00 (Z.to_nat (Size chunk - len got))).
  pose proof (len_bytes_at source (SourceOffset chunk) (Size chunk) HS
                ltac:(lia)) as Hgot. fold got in Hgot.
  assert (len (got ++ zeros) = Size chunk) as Hlen.
  { rewrite len_app. unfold zeros. rewrite len_repeat. lia. }
  assert (got ++ zeros <> []) as Hne.
  { intros Heq. rewrite Heq in Hlen. unfold len in Hlen. cbn in Hlen. lia. }
  split; [done|]. split.
  { rewrite write_at_length by done. by rewrite Hlen. }
  intros i Hout. rewrite write_at_lookup by done. rewrite Hlen.
  destruct (Z.ltb_spec (Z.of_nat i) (TargetOffset chunk)).
  - destruct (Z.ltb_spec (Z.of_nat i) (len (contents target)));
      repeat split; intros; first [lia|done].
  - destruct (Z.ltb_spec (Z.of_nat i) (TargetOffset chunk + Size chunk));
      [lia|].
    repeat split; intros;
      first [lia|done|apply lookup_ge_None; unfold len in *; lia].
Qed.

Lemma WriteChunk_elsewhere_untouched_witness :
  let '(_, target', _) :=
    ZSync.WriteChunk local_file output_file (reuse 5 64 6) in
  len (contents target') = 70 /\
  contents target' !! 10%nat = contents output_file !! 10%nat.
Proof.
  pose proof (WriteChunk_elsewhere_untouched local_file output_file
                (reuse 5 64 6) eq_refl eq_refl ltac:(cbn; lia)
                ltac:(cbn; lia) ltac:(cbn; int64)) as H.
  destruct (ZSync.WriteChunk local_file output_file (reuse 5 64 6))
    as [[source' target'] err].
  destruct H as (_ & Hlen & Hrest).
  split; [exact Hlen|].
  apply (Hrest 10%nat); [left; cbn; lia|reflexivity].
Defined.

Lemma CopyN_nothing (dst src : MemFile) (n : Z) :
  n <= 0 ->
  CopyN dst src n = (dst, set_position src (position src), (0, None)).
Proof.
  intros Hn. unfold CopyN.
  cbn [rs_Read ws_Write MemFile_ReadSeeker MemFile_WriteSeeker].
  unfold mem_Read. rewrite Z2Nat.nonpos by done. rewrite take_0.
  change (len []) with 0. rewrite Z.add_0_r.
  destruct (Z.leb_spec n 0) as [_|]; [|lia].
  cbn beta iota zeta. fold (set_position src (position src)).
  rewrite Z.eqb_refl. cbn [is_EOF negb].
  destruct (Z.eqb_spec 0 n) as [<-|Hne]; [done|].
  destruct (Z.ltb_spec 0 n); [lia|]. done.
Qed.

(** X12.  The cases in which [WriteChunk] between files in memory writes
    nothing.  A negative source offset: the error names the source offset
    and neither file was touched.  A negative target offset: the error
    names the target offset, the source was positioned and the target was
    not touched.  A size that is not positive, as [createChunks] gives for
    a block that starts at or after the end of the remote file: the result
    is [nil], both files are positioned and hold what they held, damaged
    or not. *)
Theorem WriteChunk_writes_nothing (source target : MemFile)
    (chunk : ChunkInfo) :
  (SourceOffset chunk < 0 ->
   ZSync.WriteChunk source target chunk
   = (source, target,
      Some (Errorf ("unable to seek source offset: "
                    ++ fmt_d (SourceOffset chunk))))) /\
  (0 <= SourceOffset chunk -> TargetOffset chunk < 0 ->
   ZSync.WriteChunk source target chunk
   = (set_position source (SourceOffset chunk), target,
      Some (Errorf ("unable to seek target offset: "
                    ++ fmt_d (TargetOffset chunk))))) /\
  (0 <= SourceOffset chunk -> 0 <= TargetOffset chunk -> Size chunk <= 0 ->
   ZSync.WriteChunk source target chunk
   = (set_position source (SourceOffset chunk),
      set_position target (TargetOffset chunk), None)).
Proof.
  unfold ZSync.WriteChunk.
  cbn [rs_Seek ws_Seek ws_Write MemFile_ReadSeeker MemFile_WriteSeeker].
  split; [|split].
  - intros HS. unfold mem_Seek at 1. cbn.
    destruct (Z.ltb_spec (SourceOffset chunk) 0); [done|lia].
  - intros HS HT. rewrite mem_Seek_start by done. unfold mem_Seek. cbn.
    destruct (Z.ltb_spec (TargetOffset chunk) 0); [done|lia].
  - intros HS HT HN. rewrite !mem_Seek_start by done.
    rewrite CopyN_nothing by done. cbn [is_EOF andb].
    by rewrite !position_set.
Qed.

Lemma WriteChunk_writes_nothing_witness :
  ZSync.WriteChunk local_file output_file (reuse 5 80 (-10))
  = (set_position local_file 5, set_position output_file 80, None).
Proof.
  destruct (WriteChunk_writes_nothing local_file output_file
              (reuse 5 80 (-10))) as (_ & _ & H).
  apply H; cbn; lia.
Defined.

(* ===================================================================== *)
(** ** HttpFileSource.Read *)
(* ===================================================================== *)

Lemma with_client_fields (h : HttpSource.t) :
  HttpSource.URL (with_client h) = HttpSource.URL h /\
  HttpSource.Offset (with_client h) = HttpSource.Offset h /\
  HttpSource.cacheBegin (with_client h) = HttpSource.cacheBegin h /\
  HttpSource.cacheEnd (with_client h) = HttpSource.cacheEnd h /\
  HttpSource.readerCache (with_client h) = HttpSource.readerCache h /\
  HttpSource.Size (with_client h) = HttpSource.Size h.
Proof. unfold with_client. by destruct (HttpSource.client h). Qed.

Lemma Buffer_Read_nonempty (cache : list byte) (k : Z) :
  cache <> [] ->
  HttpSource.Buffer_Read cache k
  = (drop (Z.to_nat k) cache, (take (Z.to_nat k) cache, None)).
Proof. by destruct cache. Qed.

Lemma Seek_current (h : HttpSource.t) (n : Z) :
  HttpSource.Seek h n 1
  = (HttpSource.set_Offset h (Int64.add (HttpSource.Offset h) n), (n, None)).
Proof. reflexivity. Qed.

Lemma doRangeRequest_served (net : HttpSource.Transport) (h : HttpSource.t)
    (sent : list HttpSource.http_Request) (range_start range_end : Z)
    (body : list byte) :
  HttpSource.NewRequest_err net (HttpSource.URL h) = None ->
  serves net (HttpSource.rangedRequest h range_start range_end) body ->
  exists resp,
    HttpSource.doRangeRequest net h sent range_start range_end
    = (with_client h,
       sent ++ [HttpSource.rangedRequest h range_start range_end],
       inr resp) /\
    HttpSource.BodyErr resp = None /\ HttpSource.Body resp = body.
Proof.
  intros Hurl (resp & HDo & H206 & Hgz & Herr & Hbody).
  exists resp. split; [|done].
  unfold HttpSource.doRangeRequest. rewrite Hurl, HDo, H206.
  unfold gzip_coded in Hgz. rewrite Hgz. cbn [Z.eqb Pos.eqb negb].
  unfold with_client. by destruct (HttpSource.client h).
Qed.

(** What [Request] leaves when the server serves the range, whether the
    length of the body is the size asked for or not. *)
Lemma Request_served (net : HttpSource.Transport) (h : HttpSource.t)
    (sent : list HttpSource.http_Request) (size : Z) (body : list byte) :
  HttpSource.NewRequest_err net (HttpSource.URL h) = None ->
  Int64.in_range (HttpSource.Offset h + size) ->
  Int64.in_range (HttpSource.Offset h + size - 1) ->
  serves net (range_request h size) body ->
  HttpSource.Request net h sent size
  = (requested h size body, sent ++ [range_request h size],
     if len body =? size then None
     else Some (HttpSource.size_mismatch (len body) size)).
Proof.
  intros Hurl H1 H2 Hserves. unfold HttpSource.Request.
  rewrite <- (rangedRequest_range h size H1 H2) in Hserves |- *.
  cbn zeta.
  set (h1 := HttpSource.set_cache h (HttpSource.Offset h)
               (Int64.add (HttpSource.Offset h) size)) in *.
  destruct (doRangeRequest_served net h1 sent (HttpSource.cacheBegin h1)
              (HttpSource.cacheEnd h1) body Hurl Hserves)
    as (resp & -> & Herr & Hbody).
  rewrite Herr, Hbody. unfold requested, h1. rewrite add_exact by done.
  destruct (with_client_fields
              (HttpSource.set_cache h (HttpSource.Offset h)
                 (HttpSource.Offset h + size))) as (_ & _ & _ & _ & -> & _).
  by destruct (len body =? size).
Qed.

Lemma Read_cached (net : HttpSource.Transport) (h : HttpSource.t)
    (sent : list HttpSource.http_Request) (k : Z) :
  HttpSource.readerCache h <> [] ->
  HttpSource.cacheBegin h <= HttpSource.Offset h ->
  HttpSource.Offset h + k <= HttpSource.cacheEnd h ->
  0 <= k -> Int64.in_range (HttpSource.Offset h) ->
  Int64.in_range (HttpSource.Offset h + k) ->
  HttpSource.Read net h sent k
  = (HttpSource.set_Offset
       (HttpSource.set_readerCache h
          (drop (Z.to_nat k) (HttpSource.readerCache h)))
       (HttpSource.Offset h
        + len (take (Z.to_nat k) (HttpSource.readerCache h))),
     sent, (take (Z.to_nat k) (HttpSource.readerCache h), None)).
Proof.
  intros Hne Hb He Hk Ho Hok. unfold HttpSource.Read.
  rewrite add_exact by done.
  destruct (Z.ltb_spec (HttpSource.Offset h) (HttpSource.cacheBegin h));
    [lia|].
  destruct (Z.gtb_spec (HttpSource.Offset h + k) (HttpSource.cacheEnd h));
    [lia|].
  rewrite andb_false_r.
  assert ((len (HttpSource.readerCache h) =? 0) = false) as ->.
  { apply Z.eqb_neq. intros ?%len_zero_nil. done. }
  rewrite Buffer_Read_nonempty by done. rewrite Seek_current.
  cbn [HttpSource.set_readerCache HttpSource.Offset].
  pose proof (len_take k (HttpSource.readerCache h)) as Hlen.
  pose proof (len_nonneg (HttpSource.readerCache h)).
  rewrite add_exact by int64.
  done.
Qed.

(** X13.  [Read] into a buffer of [k > 0] bytes when the cache is empty,
    or when the bytes asked for are not within the cached window (the
    cache is then dropped): it sends one request, the GET for the bytes
    [Offset .. Offset + k - 1]; when the server serves these [k] bytes,
    [Read] returns them with no error, moves [Offset] forward by [k], and
    leaves the cache empty with the window set to
    [[Offset, Offset + k)]. *)
Theorem Read_fetches_window (net : HttpSource.Transport) (h : HttpSource.t)
    (sent : list HttpSource.http_Request) (k : Z) (body : list byte) :
  HttpSource.NewRequest_err net (HttpSource.URL h) = None ->
  outside_window h k ->
  0 < k -> Int64.in_range (HttpSource.Offset h - 1) ->
  Int64.in_range (HttpSource.Offset h + k) ->
  serves net (range_request h k) body -> len body = k ->
  exists h',
    HttpSource.Read net h sent k
    = (h', sent ++ [range_request h k], (body, None)) /\
    HttpSource.Offset h' = HttpSource.Offset h + k /\
    HttpSource.readerCache h' = [] /\
    HttpSource.cacheBegin h' = HttpSource.Offset h /\
    HttpSource.cacheEnd h' = HttpSource.Offset h + k.
Proof.
  intros Hurl Hout Hk Hlo Hhi Hserves Hlen. unfold HttpSource.Read.
  rewrite add_exact by done.
  set (h0 := if negb (len (HttpSource.readerCache h) =? 0)
                && ((HttpSource.Offset h <? HttpSource.cacheBegin h)
                    || (HttpSource.Offset h + k >? HttpSource.cacheEnd h))
             then HttpSource.set_readerCache h [] else h).
  assert (HttpSource.readerCache h0 = [] /\
          HttpSource.URL h0 = HttpSource.URL h /\
          HttpSource.Offset h0 = HttpSource.Offset h) as (Hc0 & Hu0 & Ho0).
  { unfold h0. destruct (Z.eqb_spec (len (HttpSource.readerCache h)) 0)
      as [Hz%len_zero_nil|Hnz]; cbn [negb andb]; [done|].
    destruct Hout as [Hnil|[Hb|He]].
    - by rewrite Hnil in Hnz.
    - destruct (Z.ltb_spec (HttpSource.Offset h) (HttpSource.cacheBegin h));
        [done|lia].
    - destruct (Z.gtb_spec (HttpSource.Offset h + k)
                           (HttpSource.cacheEnd h)); [|lia].
      by rewrite orb_true_r. }
  rewrite Hc0. change (len [] =? 0) with true. cbn iota.
  assert (range_request h0 k = range_request h k) as Hreq.
  { unfold range_request. by rewrite Hu0, Ho0. }
  rewrite (Request_served net h0 sent k body); rewrite ?Hu0, ?Ho0, ?Hreq;
    try done; [|int64].
  rewrite Hlen, Z.eqb_refl. unfold requested. rewrite Hc0, Ho0.
  cbn [app HttpSource.readerCache HttpSource.set_readerCache].
  rewrite Buffer_Read_nonempty
    by (intros ->; unfold len in Hlen; cbn in Hlen; lia).
  rewrite take_ge, drop_ge by (unfold len in Hlen; lia).
  rewrite Seek_current.
  eexists. split; [reflexivity|]. cbn.
  destruct (with_client_fields
              (HttpSource.set_cache h0 (HttpSource.Offset h)
                 (HttpSource.Offset h + k))) as (_ & -> & -> & -> & _).
  cbn. rewrite Ho0, Hlen, add_exact by done. done.
Qed.

Lemma Read_fetches_window_witness :
  exists h',
    HttpSource.Read sample_net sample_source [] 50
    = (h', [range_request sample_source 50], (repeat x01 50, None)) /\
    HttpSource.Offset h' = 150.
Proof.
  destruct (Read_fetches_window sample_net sample_source [] 50
              (repeat x01 50))
    as (h' & Hread & Hoff & _).
  - reflexivity.
  - by left.
  - lia.
  - cbn. int64.
  - cbn. int64.
  - exists partial_content. by repeat split.
  - reflexivity.
  - exists h'. by split.
Defined.

(** X14.  [Read] into a buffer of [k] bytes when the cache is not empty
    and [[Offset, Offset + k)] is within the cached window: no request is
    sent, whatever the network; [Read] returns the first [k] bytes of the
    cache (all of it when it holds fewer) with no error, moves [Offset]
    forward by the number of bytes returned, keeps the rest of the cache
    and leaves the window as it was. *)
Theorem Read_inside_window (net : HttpSource.Transport) (h : HttpSource.t)
    (sent : list HttpSource.http_Request) (k : Z) :
  HttpSource.readerCache h <> [] ->
  HttpSource.cacheBegin h <= HttpSource.Offset h ->
  HttpSource.Offset h + k <= HttpSource.cacheEnd h ->
  0 <= k -> Int64.in_range (HttpSource.Offset h) ->
  Int64.in_range (HttpSource.Offset h + k) ->
  exists h',
    HttpSource.Read net h sent k
    = (h', sent, (take (Z.to_nat k) (HttpSource.readerCache h), None)) /\
    HttpSource.Offset h'
    = HttpSource.Offset h + Z.min k (len (HttpSource.readerCache h)) /\
    HttpSource.readerCache h'
    = drop (Z.to_nat k) (HttpSource.readerCache h) /\
    HttpSource.cacheBegin h' = HttpSource.cacheBegin h /\
    HttpSource.cacheEnd h' = HttpSource.cacheEnd h.
Proof.
  intros Hne Hb He Hk Ho Hok.
  rewrite (Read_cached net h sent k) by done.
  eexists. split; [reflexivity|]. cbn. rewrite len_take.
  pose proof (len_nonneg (HttpSource.readerCache h)).
  repeat split. f_equal. lia.
Qed.

Lemma Read_inside_window_witness :
  exists h',
    HttpSource.Read no_net cached_source [] 20
    = (h', [], (repeat x01 20, None)) /\
    HttpSource.Offset h' = 120.
Proof.
  destruct (Read_inside_window no_net cached_source [] 20)
    as (h' & Hread & Hoff & _); [done|cbn; lia|cbn; lia|lia| | |].
  - cbn. int64.
  - cbn. int64.
  - exists h'. split; [exact Hread|exact Hoff].
Defined.

(** X15.  [Read] into a buffer of [k] bytes with an empty cache, when the
    server answers the ranged request with a body that is not empty and
    not [k] bytes long: [Read] returns no byte and the range size mismatch
    error, and leaves [Offset] where it was, but the body stays in the
    cache; the same [Read] once more then sends no request and returns
    bytes of that body (its first [k] bytes at most) with no error. *)
Theorem Read_after_size_mismatch (net : HttpSource.Transport)
    (h : HttpSource.t) (sent : list HttpSource.http_Request) (k : Z)
    (body : list byte) :
  HttpSource.NewRequest_err net (HttpSource.URL h) = None ->
  HttpSource.readerCache h = [] ->
  0 < k -> Int64.in_range (HttpSource.Offset h - 1) ->
  Int64.in_range (HttpSource.Offset h + k) ->
  serves net (range_request h k) body -> body <> [] -> len body <> k ->
  exists h1 h2,
    HttpSource.Read net h sent k
    = (h1, sent ++ [range_request h k],
       ([], Some (HttpSource.size_mismatch (len body) k))) /\
    HttpSource.Offset h1 = HttpSource.Offset h /\
    HttpSource.readerCache h1 = body /\
    HttpSource.Read net h1 (sent ++ [range_request h k]) k
    = (h2, sent ++ [range_request h k], (take (Z.to_nat k) body, None)).
Proof.
  intros Hurl Hnil Hk Hlo Hhi Hserves Hbody Hlen.
  unfold HttpSource.Read at 1. rewrite Hnil.
  change (len [] =? 0) with true. cbn [negb andb]. rewrite Hnil.
  change (len [] =? 0) with true. cbn iota.
  rewrite (Request_served net h sent k body) by (try done; int64).
  destruct (Z.eqb_spec (len body) k) as [|_]; [done|].
  exists (requested h k body).
  destruct (with_client_fields
              (HttpSource.set_cache h (HttpSource.Offset h)
                 (HttpSource.Offset h + k)))
    as (_ & Ho & Hb & He & _).
  assert (HttpSource.readerCache (requested h k body) = body) as Hcache.
  { unfold requested. cbn. by rewrite Hnil. }
  eexists. split; [reflexivity|]. split; [exact Ho|]. split; [exact Hcache|].
  rewrite Read_cached; rewrite ?Hcache; try done.
  - change (HttpSource.cacheBegin (requested h k body))
      with (HttpSource.cacheBegin
              (with_client (HttpSource.set_cache h (HttpSource.Offset h)
                              (HttpSource.Offset h + k)))).
    change (HttpSource.Offset (requested h k body))
      with (HttpSource.Offset
              (with_client (HttpSource.set_cache h (HttpSource.Offset h)
                              (HttpSource.Offset h + k)))).
    rewrite Ho, Hb. cbn. lia.
  - change (HttpSource.cacheEnd (requested h k body))
      with (HttpSource.cacheEnd
              (with_client (HttpSource.set_cache h (HttpSource.Offset h)
                              (HttpSource.Offset h + k)))).
    change (HttpSource.Offset (requested h k body))
      with (HttpSource.Offset
              (with_client (HttpSource.set_cache h (HttpSource.Offset h)
                              (HttpSource.Offset h + k)))).
    rewrite Ho, He. cbn. lia.
  - lia.
  - change (HttpSource.Offset (requested h k body))
      with (HttpSource.Offset
              (with_client (HttpSource.set_cache h (HttpSource.Offset h)
                              (HttpSource.Offset h + k)))).
    rewrite Ho. cbn. int64.
  - change (HttpSource.Offset (requested h k body))
      with (HttpSource.Offset
              (with_client (HttpSource.set_cache h (HttpSource.Offset h)
                              (HttpSource.Offset h + k)))).
    rewrite Ho. cbn. int64.
Qed.

Lemma Read_after_size_mismatch_witness :
  exists h1 h2,
    HttpSource.Read short_net sample_source [] 50
    = (h1, [range_request sample_source 50],
       ([], Some (HttpSource.size_mismatch 20 50))) /\
    HttpSource.Read short_net h1 [range_request sample_source 50] 50
    = (h2, [range_request sample_source 50], (repeat x02 20, None)).
Proof.
  destruct (Read_after_size_mismatch short_net sample_source [] 50
              (repeat x02 20))
    as (h1 & h2 & Hfirst & _ & _ & Hsecond).
  - reflexivity.
  - reflexivity.
  - lia.
  - cbn. int64.
  - cbn. int64.
  - eexists. by repeat split.
  - done.
  - unfold len. cbn. lia.
  - exists h1, h2. split; [exact Hfirst|exact Hsecond].
Defined.

(** X16.  [Read] into a buffer of [k > 0] bytes, whatever the source and
    the network: it returns at least one byte and at most [k], or else an
    error and no byte (never zero bytes with a [nil] error, so a copy loop
    over it cannot spin); and it sends at most one request. *)
Theorem Read_never_stalls (net : HttpSource.Transport) (h : HttpSource.t)
    (sent : list HttpSource.http_Request) (k : Z) :
  0 < k ->
  let '(_, sent', (bs, err)) := HttpSource.Read net h sent k in
  (err = None -> 0 < len bs <= k) /\
  (is_Some err -> bs = []) /\
  (sent' = sent \/ exists req, sent' = sent ++ [req]).
Proof.
  intros Hk. unfold HttpSource.Read. cbn zeta.
  match goal with
  | |- context [if ?b then HttpSource.set_readerCache h [] else h] =>
      set (h0 := if b then HttpSource.set_readerCache h [] else h)
  end.
  destruct (Z.eqb_spec (len (HttpSource.readerCache h0)) 0) as [Hz|Hnz].
  - unfold HttpSource.Request, HttpSource.doRangeRequest.
    cbn [HttpSource.set_cache HttpSource.URL HttpSource.client].
    destruct (HttpSource.NewRequest_err net (HttpSource.URL h0)).
    { split; [done|]. split; [done|]. by left. }
    destruct (HttpSource.Do net _) as [e|resp].
    { split; [done|]. split; [done|]. right. by eexists. }
    destruct (HttpSource.StatusCode resp =? 404).
    { split; [done|]. split; [done|]. right. by eexists. }
    destruct (negb (HttpSource.StatusCode resp =? 206)).
    { split; [done|]. split; [done|]. right. by eexists. }
    destruct (GoStrings.Contains _ _).
    { split; [done|]. split; [done|]. right. by eexists. }
    destruct (HttpSource.BodyErr resp).
    { split; [done|]. split; [done|]. right. by eexists. }
    destruct (Z.eqb_spec (len (HttpSource.Body resp)) k) as [Hlen|];
      cbn [negb].
    2:{ split; [done|]. split; [done|]. right. by eexists. }
    cbn [HttpSource.readerCache HttpSource.set_readerCache].
    assert (HttpSource.Body resp <> []) as Hbody.
    { intros Hnil. rewrite Hnil in Hlen. unfold len in Hlen. cbn in Hlen.
      lia. }
    rewrite Buffer_Read_nonempty by (intros [_ ?]%app_eq_nil; done).
    rewrite Seek_current. split; [|split].
    + intros _. rewrite len_take, len_app.
      match goal with
      | |- context [len ?l + len (HttpSource.Body resp)] =>
          pose proof (len_nonneg l)
      end.
      lia.
    + by intros [? ?].
    + right. by eexists.
  - assert (HttpSource.readerCache h0 <> []) as Hne.
    { intros Hnil. by rewrite Hnil in Hnz. }
    rewrite Buffer_Read_nonempty by done.
    rewrite Seek_current. split; [|split].
    + intros _. rewrite len_take.
      pose proof (len_nonneg (HttpSource.readerCache h0)).
      assert (len (HttpSource.readerCache h0) <> 0) by done. lia.
    + by intros [? ?].
    + by left.
Qed.

Lemma Read_never_stalls_witness :
  (HttpSource.Read no_net sample_source [] 50).2
  = ([], Some (Errorf ("Error executing request for "
                       ++ HttpSource.dquote ++ "http://host/file"
                       ++ HttpSource.dquote ++ ": connection refused"))) /\
  (let '(_, sent', (bs, err)) :=
     HttpSource.Read no_net sample_source [] 50 in
   is_Some err -> bs = []).
Proof.
  split; [reflexivity|].
  pose proof (Read_never_stalls no_net sample_source [] 50 ltac:(lia)) as H.
  destruct (HttpSource.Read no_net sample_source [] 50)
    as [[h' sent'] [bs err]].
  destruct H as (_ & H & _). exact H.
Defined.

(* ===================================================================== *)
(** ** Sync *)
(* ===================================================================== *)

(** *** Copying from the cache of the HTTP source *)

Lemma read_loop_cached (net : HttpSource.Transport) (copy_buffer : Z -> Z)
    (fuel : nat) (h : HttpSource.t) (sent : list HttpSource.http_Request)
    (remaining : Z) (got : list byte) :
  never_empty copy_buffer ->
  0 <= remaining <= len (HttpSource.readerCache h) ->
  remaining <= Z.of_nat fuel ->
  HttpSource.cacheBegin h <= HttpSource.Offset h ->
  HttpSource.Offset h + remaining <= HttpSource.cacheEnd h ->
  Int64.in_range (HttpSource.Offset h) ->
  Int64.in_range (HttpSource.Offset h + remaining) ->
  ZSyncRun.read_loop fuel net copy_buffer h sent remaining got
  = ((HttpSource.set_Offset
        (HttpSource.set_readerCache h
           (drop (Z.to_nat remaining) (HttpSource.readerCache h)))
        (HttpSource.Offset h + remaining), sent),
     (got ++ take (Z.to_nat remaining) (HttpSource.readerCache h), None)).
Proof.
  intros Hbuf. revert h remaining got.
  induction fuel as [|fuel IH]; intros h remaining got Hrem Hfuel Hb He Ho Hok;
    cbn [ZSyncRun.read_loop];
    destruct (Z.leb_spec remaining 0) as [Hz|Hpos].
  1,2,3: assert (remaining = 0) as -> by lia;
         change (Z.to_nat 0) with O; rewrite drop_0, take_0, app_nil_r,
           Z.add_0_r; by destruct h.
  destruct (Hbuf remaining Hpos) as [Hk1 Hk2].
  set (k := copy_buffer remaining) in *.
  assert (HttpSource.readerCache h <> []) as Hne.
  { intros Hnil. rewrite Hnil in Hrem. unfold len in Hrem. cbn in Hrem.
    lia. }
  rewrite (Read_cached net h sent k) by (try done; int64).
  pose proof (len_take k (HttpSource.readerCache h)) as Hlen.
  rewrite Hlen.
  replace (Z.max 0 (Z.min k (len (HttpSource.readerCache h)))) with k by lia.
  rewrite IH; cbn [HttpSource.set_Offset HttpSource.set_readerCache
                   HttpSource.readerCache HttpSource.Offset
                   HttpSource.cacheBegin HttpSource.cacheEnd];
    rewrite ?len_drop; try lia; try int64.
  rewrite drop_drop, <- app_assoc, take_take_drop.
  replace (Z.to_nat k + Z.to_nat (remaining - k))%nat
    with (Z.to_nat remaining) by lia.
  replace (HttpSource.Offset h + k + (remaining - k))
    with (HttpSource.Offset h + remaining) by lia.
  done.
Qed.

(** A [Read] into a buffer that is not empty returns a byte or an
    error. *)
Lemma Read_progress (net : HttpSource.Transport) (h : HttpSource.t)
    (sent : list HttpSource.http_Request) (k : Z) :
  0 < k ->
  (HttpSource.Read net h sent k).2.2 = None ->
  0 < len (HttpSource.Read net h sent k).2.1.
Proof.
  intros Hk. unfold HttpSource.Read. cbn zeta.
  match goal with
  | |- context [if ?b then HttpSource.set_readerCache h [] else h] =>
      set (h0 := if b then HttpSource.set_readerCache h [] else h)
  end.
  destruct (Z.eqb_spec (len (HttpSource.readerCache h0)) 0) as [Hz|Hnz].
  - unfold HttpSource.Request, HttpSource.doRangeRequest.
    cbn [HttpSource.set_cache HttpSource.URL HttpSource.client].
    destruct (HttpSource.NewRequest_err net (HttpSource.URL h0)); [done|].
    destruct (HttpSource.Do net _) as [e|resp]; [done|].
    destruct (HttpSource.StatusCode resp =? 404); [done|].
    destruct (negb (HttpSource.StatusCode resp =? 206)); [done|].
    destruct (GoStrings.Contains _ _); [done|].
    destruct (HttpSource.BodyErr resp); [done|].
    destruct (Z.eqb_spec (len (HttpSource.Body resp)) k) as [Hlen|];
      [|done].
    cbn [negb HttpSource.readerCache HttpSource.set_readerCache].
    assert (HttpSource.Body resp <> []) as Hbody.
    { intros Hnil. rewrite Hnil in Hlen. unfold len in Hlen. cbn in Hlen.
      lia. }
    rewrite Buffer_Read_nonempty by (intros [_ ?]%app_eq_nil; done).
    rewrite Seek_current. cbn [fst snd]. intros _. rewrite len_take, len_app.
    match goal with
    | |- context [len ?l + len (HttpSource.Body resp)] =>
        pose proof (len_nonneg l)
    end.
    lia.
  - assert (HttpSource.readerCache h0 <> []) as Hne.
    { intros Hnil. by rewrite Hnil in Hnz. }
    rewrite Buffer_Read_nonempty by done.
    rewrite Seek_current. cbn [fst snd]. intros _. rewrite len_take.
    pose proof (len_nonneg (HttpSource.readerCache h0)). lia.
Qed.

(** [remaining] turns are enough for the copy. *)
Lemma read_loop_fuel (net : HttpSource.Transport) (copy_buffer : Z -> Z)
    (fuel : nat) (h : HttpSource.t) (sent : list HttpSource.http_Request)
    (remaining : Z) (got : list byte) :
  never_empty copy_buffer ->
  remaining <= Z.of_nat fuel ->
  ZSyncRun.read_loop (S fuel) net copy_buffer h sent remaining got
  = ZSyncRun.read_loop fuel net copy_buffer h sent remaining got.
Proof.
  intros Hbuf. revert h sent remaining got.
  induction fuel as [|fuel IH]; intros h sent remaining got Hfuel.
  - cbn [ZSyncRun.read_loop].
    destruct (Z.leb_spec remaining 0); [done|lia].
  - change (ZSyncRun.read_loop (S (S fuel)) net copy_buffer h sent
              remaining got)
      with (if remaining <=? 0 then ((h, sent), (got, None))
            else
              let '(h1, sent1, (bs, err)) :=
                HttpSource.Read net h sent (copy_buffer remaining) in
              match err with
              | Some e => ((h1, sent1), (got ++ bs, Some e))
              | None =>
                  ZSyncRun.read_loop (S fuel) net copy_buffer h1 sent1
                    (remaining - len bs) (got ++ bs)
              end).
    cbn [ZSyncRun.read_loop].
    destruct (Z.leb_spec remaining 0) as [|Hpos]; [done|].
    destruct (Hbuf remaining Hpos) as [Hk _].
    pose proof (Read_progress net h sent (copy_buffer remaining) Hk)
      as Hprogress.
    destruct (HttpSource.Read net h sent (copy_buffer remaining))
      as [[h1 sent1] [bs [e|]]]; [done|].
    cbn [fst snd] in Hprogress. specialize (Hprogress eq_refl).
    apply IH. lia.
Qed.

(** [io.CopyN] into a healthy file in memory, when the reader delivers the
    [n] bytes asked for. *)
Lemma CopyN_full {S : Type} `{ReadSeeker S} (dst : MemFile) (src src' : S)
    (n : Z) (bs : list byte) :
  fault dst = None -> rs_Read src n = (src', (bs, None)) -> len bs = n ->
  CopyN dst src n = (written_to dst bs, src', (n, None)).
Proof.
  intros Hd Hread Hlen. unfold CopyN. rewrite Hread. cbn beta iota zeta.
  rewrite (write_unless_nil_healthy dst bs Hd). cbn beta iota zeta.
  by rewrite Hlen, Z.eqb_refl.
Qed.

Lemma Seek_start (h : HttpSource.t) (offset : Z) :
  HttpSource.Seek h offset io_SeekStart
  = (HttpSource.set_Offset h offset, (offset, None)).
Proof. reflexivity. Qed.

(** [WriteChunk] from the HTTP source right after [Request] filled the
    cache with the bytes of the chunk: they are written at the target
    offset, and no request is sent. *)
Lemma WriteChunk_from_cache (net : HttpSource.Transport)
    (copy_buffer : Z -> Z) (h : HttpSource.t)
    (sent : list HttpSource.http_Request) (target : MemFile)
    (chunk : ChunkInfo) :
  never_empty copy_buffer ->
  fault target = None ->
  0 <= SourceOffset chunk -> 0 <= TargetOffset chunk -> 0 < Size chunk ->
  SourceOffset chunk + Size chunk <= Int64.max_int ->
  HttpSource.cacheBegin h = SourceOffset chunk ->
  HttpSource.cacheEnd h = SourceOffset chunk + Size chunk ->
  len (HttpSource.readerCache h) = Size chunk ->
  exists h',
    @ZSync.WriteChunk _ _ (ZSyncRun.Http_ReadSeeker net copy_buffer) _
      (h, sent) target chunk
    = ((h', sent),
       {| contents := write_at (contents target) (TargetOffset chunk)
                               (HttpSource.readerCache h);
          position := TargetOffset chunk + Size chunk;
          fault := None |},
       None) /\
    HttpSource.readerCache h' = [] /\
    HttpSource.URL h' = HttpSource.URL h.
Proof.
  intros Hbuf Ht HS HT HN Hmax Hb He Hlen. unfold ZSync.WriteChunk.
  cbn [rs_Seek ZSyncRun.Http_ReadSeeker fst snd].
  rewrite Seek_start. cbn [ws_Seek MemFile_WriteSeeker].
  rewrite mem_Seek_start by done.
  set (h1 := HttpSource.set_Offset h (SourceOffset chunk)).
  assert (@rs_Read _ (ZSyncRun.Http_ReadSeeker net copy_buffer) (h1, sent)
            (Size chunk)
          = ((HttpSource.set_Offset
                (HttpSource.set_readerCache h1
                   (drop (Z.to_nat (Size chunk)) (HttpSource.readerCache h1)))
                (HttpSource.Offset h1 + Size chunk), sent),
             ([] ++ take (Z.to_nat (Size chunk)) (HttpSource.readerCache h1),
              None))) as Hread.
  { cbn [rs_Read ZSyncRun.Http_ReadSeeker fst snd].
    apply read_loop_cached; cbn; try done; try lia; int64. }
  cbn [app] in Hread.
  change (HttpSource.readerCache h1) with (HttpSource.readerCache h) in Hread.
  rewrite take_ge, drop_ge in Hread by (unfold len in Hlen; lia).
  rewrite (CopyN_full (set_position target (TargetOffset chunk)) _ _ _ _
             Ht Hread Hlen).
  cbn [is_EOF andb]. cbn iota. eexists. split.
  - unfold written_to, set_position. cbn. rewrite Ht, Hlen. reflexivity.
  - by split.
Qed.

(** *** The two loops of Sync between files in memory *)

Lemma requested_fields (h : HttpSource.t) (size : Z) (body : list byte) :
  HttpSource.URL (requested h size body) = HttpSource.URL h /\
  HttpSource.cacheBegin (requested h size body) = HttpSource.Offset h /\
  HttpSource.cacheEnd (requested h size body) = HttpSource.Offset h + size /\
  HttpSource.readerCache (requested h size body)
  = HttpSource.readerCache h ++ body.
Proof.
  unfold requested.
  destruct (with_client_fields
              (HttpSource.set_cache h (HttpSource.Offset h)
                 (HttpSource.Offset h + size)))
    as (Hu & _ & Hb & He & _).
  cbn [HttpSource.URL HttpSource.cacheBegin HttpSource.cacheEnd
       HttpSource.readerCache HttpSource.set_readerCache].
  by rewrite Hu, Hb, He.
Qed.

(** The fetch loop when the server serves every chunk: one request per
    chunk, and the bodies written one after the other. *)
Lemma fetch_loop_served (net : HttpSource.Transport) (copy_buffer : Z -> Z)
    (body_of : ChunkInfo -> list byte) (cs : list ChunkInfo)
    (h : HttpSource.t) (sent : list HttpSource.http_Request)
    (output : MemFile) :
  never_empty copy_buffer ->
  HttpSource.NewRequest_err net (HttpSource.URL h) = None ->
  HttpSource.readerCache h = [] -> fault output = None ->
  Forall (fun c => 0 <= SourceOffset c /\ 0 <= TargetOffset c /\
                   0 < Size c /\
                   SourceOffset c + Size c <= Int64.max_int /\
                   serves net (fetch_request (HttpSource.URL h) c)
                          (body_of c) /\
                   len (body_of c) = Size c) cs ->
  exists h' output',
    ZSyncRun.fetch_loop net copy_buffer h sent output cs
    = (h', sent ++ (fetch_request (HttpSource.URL h) <$> cs), output', None)
    /\ fault output' = None /\
    contents output'
    = writes ((fun c => (TargetOffset c, body_of c)) <$> cs)
             (contents output) /\
    HttpSource.URL h' = HttpSource.URL h.
Proof.
  intros Hbuf. revert h sent output.
  induction cs as [|c cs IH]; intros h sent output Hurl Hnil Hout Hcs.
  { exists h, output. cbn. by rewrite app_nil_r. }
  apply Forall_cons in Hcs as [(HS & HT & HN & Hmax & Hserves & Hlen) Hcs].
  cbn [ZSyncRun.fetch_loop]. rewrite Seek_start.
  set (h1 := HttpSource.set_Offset h (SourceOffset c)).
  rewrite (Request_served net h1 sent (Size c) (body_of c));
    [|done|cbn; int64|cbn; int64|exact Hserves].
  rewrite Hlen, Z.eqb_refl.
  destruct (requested_fields h1 (Size c) (body_of c))
    as (Hu2 & Hb2 & He2 & Hc2).
  change (HttpSource.readerCache h1) with (HttpSource.readerCache h) in Hc2.
  rewrite Hnil in Hc2. cbn [app] in Hc2.
  destruct (WriteChunk_from_cache net copy_buffer
              (requested h1 (Size c) (body_of c))
              (sent ++ [range_request h1 (Size c)]) output c
              Hbuf Hout HS HT HN Hmax Hb2 He2)
    as (h3 & -> & Hc3 & Hu3); [by rewrite Hc2|].
  cbn [fst snd]. rewrite Hc2.
  destruct (IH h3 (sent ++ [range_request h1 (Size c)])
              {| contents := write_at (contents output) (TargetOffset c)
                                      (body_of c);
                 position := TargetOffset c + Size c; fault := None |})
    as (h' & output' & -> & Hf & Hcont & Hu').
  - by rewrite Hu3, Hu2.
  - done.
  - done.
  - rewrite Hu3, Hu2. exact Hcs.
  - exists h', output'. rewrite Hu3, Hu2 in *.
    split; [|by repeat split].
    cbn [fmap list_fmap]. rewrite <- app_assoc. reflexivity.
Qed.

(** The reuse loop between healthy files: every chunk is written and
    added to the mapper. *)
Lemma reuse_loop_healthy (cs : list ChunkInfo) (input output : MemFile)
    (m : ChunksMapper.t) :
  fault input = None -> fault output = None ->
  Forall (fun c => 0 <= SourceOffset c /\ 0 <= TargetOffset c /\
                   0 < Size c <= Int64.max_int) cs ->
  exists input' output',
    ZSyncRun.reuse_loop input output m cs
    = (input', output', ChunksMapper.FillChunksMap m cs, None) /\
    fault output' = None /\
    contents output'
    = writes ((fun c => (TargetOffset c, reused (contents input) c)) <$> cs)
             (contents output).
Proof.
  revert input output m.
  induction cs as [|c cs IH]; intros input output m Hin Hout Hcs.
  { by exists input, output. }
  apply Forall_cons in Hcs as [(HS & HT & HN) Hcs].
  cbn [ZSyncRun.reuse_loop].
  rewrite (WriteChunk_healthy input output c Hin Hout HS HT ltac:(lia)).
  cbn zeta.
  destruct (IH (set_position input
                  (SourceOffset c
                   + len (bytes_at input (SourceOffset c) (Size c))))
               {| contents :=
                    write_at (contents output) (TargetOffset c)
                      (bytes_at input (SourceOffset c) (Size c)
                       ++ repeat x00
                            (Z.to_nat
                               (Size c
                                - len (bytes_at input (SourceOffset c)
                                                (Size c)))));
                  position := TargetOffset c + Size c; fault := None |}
               (ChunksMapper.Add m c) Hin eq_refl Hcs)
    as (input' & output' & -> & Hf & Hcont).
  exists input', output'. split; [done|]. split; [done|]. exact Hcont.
Qed.

(** *** What the writes leave in the output *)

Lemma write_at_agrees (remote data : list byte) (pos : Z) (bs : list byte)
    (i : nat) :
  0 <= pos -> bs <> [] -> pos + len bs <= len remote ->
  bs = take (length bs) (drop (Z.to_nat pos) remote) ->
  data !! i = remote !! i \/ pos <= Z.of_nat i < pos + len bs ->
  write_at data pos bs !! i = remote !! i.
Proof.
  intros Hpos Hne Hfit Hbs Hi. rewrite write_at_lookup by done.
  unfold len in *.
  destruct (Z.ltb_spec (Z.of_nat i) pos) as [Hlt|Hge].
  - destruct Hi as [Hi|?]; [|lia].
    destruct (Z.ltb_spec (Z.of_nat i) (Z.of_nat (length data))); [done|].
    rewrite lookup_ge_None_2 in Hi by lia.
    symmetry in Hi. apply lookup_ge_None in Hi. lia.
  - destruct (Z.ltb_spec (Z.of_nat i) (pos + Z.of_nat (length bs)))
      as [Hin|Hout].
    + rewrite Hbs at 1. rewrite lookup_take_lt by lia.
      rewrite lookup_drop. f_equal. lia.
    + destruct Hi as [Hi|?]; [done|lia].
Qed.

Lemma writes_agree (remote : list byte) (ws : list (Z * list byte))
    (data : list byte) (i : nat) :
  Forall (in_place remote) ws ->
  data !! i = remote !! i \/
  (exists w, w ∈ ws /\ w.1 <= Z.of_nat i < w.1 + len w.2) ->
  writes ws data !! i = remote !! i.
Proof.
  revert data. induction ws as [|w ws IH]; intros data Hws Hi.
  - destruct Hi as [Hi|(w & Hw & _)]; [done|]. by apply elem_of_nil in Hw.
  - apply Forall_cons in Hws as [(Hpos & Hne & Hfit & Hbs) Hws].
    cbn [writes fold_left]. apply IH; [done|].
    destruct Hi as [Hi|(w' & [->|Hw']%elem_of_cons & Hcov)].
    + left. apply write_at_agrees; auto.
    + left. apply write_at_agrees; auto.
    + right. by exists w'.
Qed.

Lemma writes_app (ws1 ws2 : list (Z * list byte)) (data : list byte) :
  writes (ws1 ++ ws2) data = writes ws2 (writes ws1 data).
Proof. apply fold_left_app. Qed.

(** Writes of bytes of [remote] at their place that reach every offset
    leave [remote], when the file was no longer than [remote]. *)
Lemma writes_all (remote : list byte) (ws : list (Z * list byte))
    (data : list byte) :
  Forall (in_place remote) ws ->
  len data <= len remote ->
  (forall x, 0 <= x < len remote ->
             exists w, w ∈ ws /\ w.1 <= x < w.1 + len w.2) ->
  writes ws data = remote.
Proof.
  intros Hws Hlen Hcov. apply list_eq. intros i.
  apply writes_agree; [done|].
  destruct (Z.lt_ge_cases (Z.of_nat i) (len remote)) as [Hlt|Hge].
  - right. apply Hcov. lia.
  - left. unfold len in *. rewrite !lookup_ge_None_2 by lia. done.
Qed.

Lemma slice_in_place (remote : list byte) (c : ChunkInfo) :
  0 <= TargetOffset c -> 0 < Size c ->
  TargetOffset c + Size c <= len remote ->
  len (slice remote c) = Size c /\
  in_place remote (TargetOffset c, slice remote c).
Proof.
  intros HT HN Hfit.
  assert (len (slice remote c) = Size c) as Hlen.
  { unfold slice. rewrite len_take, len_drop. lia. }
  split; [done|]. unfold in_place. cbn [fst snd]. rewrite Hlen.
  repeat split; try lia.
  - intros Hnil. rewrite Hnil in Hlen. unfold len in Hlen. cbn in Hlen. lia.
  - unfold len in Hlen.
    replace (length (slice remote c)) with (Z.to_nat (Size c)) by lia.
    reflexivity.
Qed.

(** *** The chunks that Sync fetches *)

Lemma in_a_row_cons (x : ChunkInfo) (l : list ChunkInfo) :
  Forall (fun y => SourceEnd x <= SourceOffset y) l -> in_a_row l ->
  in_a_row (x :: l).
Proof.
  destruct l as [|y l]; [done|]. intros [Hy _]%Forall_cons Hl. by split.
Qed.

Lemma missing_loop_in_a_row (R p : Z) (ms : list ChunkInfo) :
  R <= Int64.max_int -> 0 <= p -> chain p ms R ->
  in_a_row (ChunksMapper.missing_loop R p ms).
Proof.
  intros HR. revert p. induction ms as [|c ms IH]; intros p Hp Hch.
  - cbn. by destruct (negb _).
  - destruct Hch as (Hpc & Hsz & Hch).
    pose proof (chain_le _ _ _ Hch) as Hend. unfold TargetEnd in *.
    cbn [ChunksMapper.missing_loop]. rewrite add_exact by int64.
    destruct (missing_loop_fetches R (TargetOffset c + Size c) ms HR
                ltac:(lia) Hch) as [_ Hb].
    specialize (IH (TargetOffset c + Size c) ltac:(lia) Hch).
    destruct (negb _); cbn [app]; [|done].
    apply in_a_row_cons; [|done].
    eapply Forall_impl; [exact Hb|]. intros y (Hy & _).
    unfold SourceEnd, ChunksMapper.missing. cbn.
    rewrite sub_exact by int64. lia.
Qed.

Lemma coalesce_spec_positive (g : Z) (cur : ChunkInfo)
    (rest : list ChunkInfo) :
  0 < Size cur -> Forall (fun c => 0 < Size c) rest ->
  in_a_row (cur :: rest) ->
  Forall (fun c => 0 < Size c) (ChunksMapper.coalesce_spec g cur rest).
Proof.
  revert cur. induction rest as [|next rest IH]; intros cur Hcur Hsz Hrow.
  - cbn. by repeat constructor.
  - apply Forall_cons in Hsz as [Hnext Hsz]. destruct Hrow as [Hcn Hrow].
    cbn [ChunksMapper.coalesce_spec]. unfold SourceEnd in *.
    destruct (_ <? g).
    + apply IH; [cbn; lia|done|].
      destruct rest as [|d rest]; [done|]. destruct Hrow as [Hnd Hrow].
      split; [|done]. unfold SourceEnd in *. cbn. lia.
    + constructor; [done|]. by apply IH.
Qed.

Lemma merge_by_target_elem (xs ys : list ChunkInfo) (c : ChunkInfo) :
  c ∈ ChunksMapper.merge_by_target xs ys -> c ∈ xs \/ c ∈ ys.
Proof.
  revert ys. induction xs as [|x xs IHx]; intros ys.
  { rewrite merge_nil_l. by right. }
  induction ys as [|y ys IHy].
  { rewrite merge_nil_r. by left. }
  rewrite merge_cons_cons. destruct (_ <=? _).
  - intros [->|Hc]%elem_of_cons; [left; by left|].
    destruct (IHx _ Hc) as [?|?]; [left; by right|by right].
  - intros [->|Hc]%elem_of_cons; [right; by left|].
    destruct (IHy Hc) as [?|?]; [by left|right; by right].
Qed.

(** The chunks that [Sync] fetches, for reuse chunks as the scan makes
    them: they lie inside the remote file, and with the reuse chunks they
    reach every offset of it. *)
Lemma Sync_fetches_facts (zsync : ZSync.t) (cs : list ChunkInfo) :
  0 < ZSync.BlockSize zsync ->
  0 <= ZSync.RemoteFileSize zsync ->
  ZSync.RemoteFileSize zsync + 64 * ZSync.BlockSize zsync
  <= Int64.max_int ->
  Forall (scanned zsync) cs ->
  Forall (fun c => 0 <= SourceOffset c /\
                   SourceOffset c = TargetOffset c /\ 0 < Size c /\
                   SourceOffset c + Size c <= ZSync.RemoteFileSize zsync)
         (ZSync.Sync_fetches zsync cs) /\
  forall x, 0 <= x < ZSync.RemoteFileSize zsync ->
            exists c, (c ∈ cs \/ c ∈ ZSync.Sync_fetches zsync cs) /\
                      ChunksMapper.covers c x.
Proof.
  intros HB HR Hfit Hcs. set (R := ZSync.RemoteFileSize zsync) in *.
  destruct (scanned_well_placed zsync cs HB HR ltac:(lia) Hcs) as [Hb Hsd].
  fold R in Hb.
  pose proof (GetMappedChunks_chain_repeats R cs HR Hb Hsd) as Hchain.
  pose proof (PlannedChunks_tiles_repeats R cs ltac:(lia) Hb Hsd) as Htiles.
  unfold ChunksMapper.PlannedChunks in Htiles.
  unfold ZSync.Sync_fetches. cbn zeta. fold R.
  change (fold_left ChunksMapper.Add cs ?m)
    with (ChunksMapper.FillChunksMap m cs).
  set (mapper := ChunksMapper.FillChunksMap
                   (ChunksMapper.NewFileChunksMapper R) cs) in *.
  assert (ChunksMapper.GetMissingChunks mapper
          = ChunksMapper.missing_loop R 0
              (ChunksMapper.GetMappedChunks mapper)) as Hmiss.
  { unfold ChunksMapper.GetMissingChunks, ChunksMapper.GetMissingChunksFrom.
    unfold mapper at 1. by rewrite FillChunksMap_fileSize. }
  rewrite Hmiss in *.
  set (missing := ChunksMapper.missing_loop R 0
                    (ChunksMapper.GetMappedChunks mapper)) in *.
  destruct (missing_loop_fetches R 0 _ ltac:(lia) ltac:(lia) Hchain)
    as [Hs Hmb]. fold missing in Hs, Hmb.
  pose proof (missing_loop_in_a_row R 0 _ ltac:(lia) ltac:(lia) Hchain)
    as Hrow. fold missing in Hrow.
  pose proof (missing_source_is_target R 0
                (ChunksMapper.GetMappedChunks mapper)) as Hst.
  fold missing in Hst.
  rewrite mul_exact by int64. rewrite (Z.mul_comm _ 64).
  rewrite (OptimizeChunks_run _ _ Hs).
  destruct (run_is_coalesce_spec (64 * ZSync.BlockSize zsync) missing
              ltac:(lia) Hs) as [-> _].
  { eapply Forall_impl; [exact Hmb|]. unfold fetch_in_range. cbn. int64. }
  assert (forall c, c ∈ ChunksMapper.GetMappedChunks mapper -> c ∈ cs)
    as Hsub.
  { intros c Hc.
    assert (keyed_by_target (ChunksMapper.chunksMap mapper)) as Hkey.
    { apply FillChunksMap_keyed. cbn. apply map_Forall_empty. }
    apply (GetMappedChunks_elem mapper c Hkey) in Hc.
    apply (FillChunksMap_lookup_last R cs c) in Hc as (i & Hi & _).
    by eapply list_elem_of_lookup_2. }
  destruct missing as [|m0 rest] eqn:Hm.
  { split; [constructor|]. intros x Hx.
    destruct (proj1 (tiles_covers 0 R _ x Htiles) Hx) as (c & Hc & Hcx).
    rewrite merge_nil_r in Hc. exists c. split; [left; auto|done]. }
  cbn [ChunksMapper.coalesce_fetches_spec].
  apply Forall_cons in Hmb as [(Hm0 & Hm0s & Hm0e) Hmb].
  apply Forall_cons in Hst as [Hst0 Hst].
  assert (Forall (fun c => 0 <= Size c) rest) as Hnn.
  { eapply Forall_impl; [exact Hmb|]. cbn. lia. }
  assert (Forall (fun c => 0 < Size c) rest) as Hpos.
  { eapply Forall_impl; [exact Hmb|]. cbn. tauto. }
  destruct (coalesce_spec_covers (64 * ZSync.BlockSize zsync) m0 rest
              ltac:(lia) Hnn Hrow)
    as (hd & tl & Heq & Hhd & Hend & Hcov & _ & _).
  pose proof (coalesce_spec_within (64 * ZSync.BlockSize zsync) 0 R m0 rest
                Hm0 ltac:(unfold SourceEnd; lia)) as Hwithin.
  pose proof (coalesce_spec_positive (64 * ZSync.BlockSize zsync) m0 rest
                Hm0s Hpos Hrow) as Hpositive.
  pose proof (coalesce_spec_preserves
                (fun c => SourceOffset c = TargetOffset c)
                (64 * ZSync.BlockSize zsync) m0 rest
                ltac:(by intros [] ?) Hst0 Hst) as Hsame.
  split.
  - assert (Forall (fun c => 0 <= SourceOffset c /\ SourceEnd c <= R)
                   (ChunksMapper.coalesce_spec (64 * ZSync.BlockSize zsync)
                      m0 rest)) as Hw.
    { apply Hwithin. eapply Forall_impl; [exact Hmb|].
      unfold SourceEnd. cbn. lia. }
    apply Forall_forall. intros c Hc.
    pose proof (proj1 (Forall_forall _ _) Hw c Hc) as [? ?].
    pose proof (proj1 (Forall_forall _ _) Hpositive c Hc).
    pose proof (proj1 (Forall_forall _ _) Hsame c Hc).
    unfold SourceEnd in *. cbn in *. auto.
  - intros x Hx.
    destruct (proj1 (tiles_covers 0 R _ x Htiles) Hx) as (c & Hc & Hcx).
    apply merge_by_target_elem in Hc as [Hc|Hc].
    { exists c. split; [left; auto|done]. }
    assert (inside (ChunksMapper.coalesce_spec
                      (64 * ZSync.BlockSize zsync) m0 rest) c
            /\ SourceOffset c = TargetOffset c)
      as [(c' & Hc' & Hlo & Hhi) Hcst].
    { apply elem_of_cons in Hc as [->|Hc].
      - split; [|done]. rewrite Heq. exists hd.
        split; [by left|]. lia.
      - split.
        + rewrite Heq. by eapply Forall_forall in Hcov.
        + by eapply Forall_forall in Hst. }
    exists c'. split; [by right|].
    pose proof (proj1 (Forall_forall _ _) Hsame c' Hc') as Hc'st.
    cbn in Hc'st.
    unfold ChunksMapper.covers, TargetEnd, SourceEnd in *. lia.
Qed.

(** *** Sync as a whole *)

(** X17.  [Sync] between healthy files in memory, for a local file that is
    not empty, an output no longer than the remote file, reuse chunks as
    the scan makes them (in any order, with repetitions) whose local bytes,
    padded with zeros, are the bytes of the remote file at the target
    offset, and a server that serves the range of every chunk to fetch:
    [Sync] returns [nil]; it has sent one ranged GET per chunk of
    [OptimizeChunks] of the missing chunks, in their order, and nothing
    else; and the output holds the remote file, byte for byte.  The copier
    may hand [Read] buffers of any size that is not zero. *)
Theorem Sync_reconstructs (net : HttpSource.Transport)
    (copy_buffer : Z -> Z) (zsync : ZSync.t) (NumCPU : Z)
    (received : list ChunkInfo) (local output : MemFile)
    (remote : list byte) :
  0 < ZSync.BlockSize zsync ->
  len remote = ZSync.RemoteFileSize zsync ->
  ZSync.RemoteFileSize zsync + 64 * ZSync.BlockSize zsync
  <= Int64.max_int ->
  1 <= NumCPU <= Int64.max_int ->
  0 < len (contents local) ->
  len (contents local) + ZSync.BlockSize zsync <= Int64.max_int ->
  fault local = None -> fault output = None ->
  len (contents output) <= len remote ->
  never_empty copy_buffer ->
  Forall (scanned zsync) received ->
  Forall (fun c => 0 <= SourceOffset c /\
                   reused (contents local) c = slice remote c) received ->
  HttpSource.NewRequest_err net (ZSync.RemoteFileUrl zsync) = None ->
  Forall (fun c => serves net (fetch_request (ZSync.RemoteFileUrl zsync) c)
                          (slice remote c))
         (ZSync.Sync_fetches zsync received) ->
  exists output',
    ZSyncRun.Sync net copy_buffer zsync NumCPU
      (inr (len (contents local))) received (inr local) output
    = Ret (output',
           fetch_request (ZSync.RemoteFileUrl zsync)
             <$> ZSync.Sync_fetches zsync received,
           None) /\
    contents output' = remote.
Proof.
  intros HB Hremote Hfit HCPU Hn Hnfit Hlocal Hout Hshort Hbuf Hscan Hmatch
    Hurl Hserved.
  pose proof (len_nonneg remote) as HR. rewrite Hremote in HR.
  destruct (scanned_well_placed zsync received HB HR ltac:(lia) Hscan)
    as [Hplaced _].
  destruct (Sync_fetches_facts zsync received HB HR Hfit Hscan)
    as [Hfetch Hcover].
  unfold ZSyncRun.Sync, ZSync.SearchReusableChunks.
  rewrite worker_ranges_nonempty by done. cbn iota zeta.
  destruct (reuse_loop_healthy received local output
              (ChunksMapper.NewFileChunksMapper (ZSync.RemoteFileSize zsync))
              Hlocal Hout)
    as (input' & output1 & -> & Hf1 & Hc1).
  { apply Forall_forall. intros c Hc.
    pose proof (proj1 (Forall_forall _ _) Hplaced c Hc) as (? & ? & ?).
    pose proof (proj1 (Forall_forall _ _) Hmatch c Hc) as (? & _).
    unfold TargetEnd in *. repeat split; int64. }
  change (ChunksMapper.OptimizeChunks
            (ChunksMapper.GetMissingChunks
               (ChunksMapper.FillChunksMap
                  (ChunksMapper.NewFileChunksMapper
                     (ZSync.RemoteFileSize zsync)) received))
            (Int64.mul (ZSync.BlockSize zsync) 64))
    with (ZSync.Sync_fetches zsync received).
  set (source0 := HttpSource.mk (ZSync.RemoteFileUrl zsync) 0
                    (ZSync.RemoteFileSize zsync) 0 0 [] None).
  destruct (fetch_loop_served net copy_buffer (slice remote)
              (ZSync.Sync_fetches zsync received) source0 [] output1
              Hbuf Hurl eq_refl Hf1)
    as (h' & output' & -> & _ & Hc2 & _).
  { apply Forall_forall. intros c Hc.
    pose proof (proj1 (Forall_forall _ _) Hfetch c Hc) as (? & Hst & ? & ?).
    pose proof (proj1 (Forall_forall _ _) Hserved c Hc) as Hs.
    destruct (slice_in_place remote c) as [Hlen _]; [lia..|].
    repeat split; try done; int64. }
  exists output'. split; [done|].
  rewrite Hc2, Hc1, <- writes_app.
  assert ((fun c => (TargetOffset c, reused (contents local) c))
            <$> received
          = (fun c => (TargetOffset c, slice remote c)) <$> received)
    as ->.
  { apply list_fmap_ext. intros i c Hc.
    apply list_elem_of_lookup_2 in Hc.
    pose proof (proj1 (Forall_forall _ _) Hmatch c Hc) as (_ & ->). done. }
  rewrite <- fmap_app. apply writes_all; [|done|].
  - apply Forall_fmap, Forall_app. split; apply Forall_forall; intros c Hc.
    + pose proof (proj1 (Forall_forall _ _) Hplaced c Hc) as (? & ? & ?).
      unfold TargetEnd in *. apply slice_in_place; lia.
    + pose proof (proj1 (Forall_forall _ _) Hfetch c Hc) as (? & ? & ? & ?).
      apply slice_in_place; lia.
  - intros x Hx.
    destruct (Hcover x ltac:(lia)) as (c & Hc & Hcx).
    exists (TargetOffset c, slice remote c). split.
    + apply (list_elem_of_fmap_2
               (fun c => (TargetOffset c, slice remote c))).
      apply elem_of_app. exact Hc.
    + cbn [fst snd].
      assert (len (slice remote c) = Size c) as ->.
      { destruct Hc as [Hc|Hc].
        - pose proof (proj1 (Forall_forall _ _) Hplaced c Hc)
            as (? & ? & ?).
          unfold TargetEnd in *. apply slice_in_place; lia.
        - pose proof (proj1 (Forall_forall _ _) Hfetch c Hc)
            as (? & ? & ? & ?).
          apply slice_in_place; lia. }
      exact Hcx.
Qed.

Lemma Sync_reconstructs_witness :
  exists output',
    ZSyncRun.Sync whole_file_net ZSyncRun.io_Copy_buffer sample_zsync 4
      (inr 40) [ZSync.createChunk sample_zsync 0 (block 1)] (inr old_file)
      new_file
    = Ret (output', [fetch_request "http://host/dir/file.bin" (fetch 0 70)],
           None) /\
    contents output' = remote_file.
Proof.
  apply (Sync_reconstructs whole_file_net ZSyncRun.io_Copy_buffer
           sample_zsync 4 [ZSync.createChunk sample_zsync 0 (block 1)]
           old_file new_file remote_file).
  - reflexivity.
  - reflexivity.
  - cbn. int64.
  - int64.
  - reflexivity.
  - unfold len. cbn. int64.
  - reflexivity.
  - reflexivity.
  - unfold len. cbn. lia.
  - intros r Hr. unfold ZSyncRun.io_Copy_buffer. lia.
  - apply Forall_cons_2; [|apply Forall_nil_2].
    eexists _, _. split; [reflexivity|cbn; lia].
  - apply Forall_cons_2; [|apply Forall_nil_2].
    split; [by vm_compute|reflexivity].
  - reflexivity.
  - apply Forall_cons_2; [|apply Forall_nil_2].
    eexists. by repeat split.
Defined.

(** X18.  The ways in which [Sync] stops before it reads or writes
    anything, whatever the files and the network.  When the size of the
    local file cannot be read, or the file cannot be opened, [Sync] returns
    that error, with the output untouched and no request sent.  When the
    local file is empty, [Sync] does not return: it panics with the
    division by zero of [SearchReusableChunks]. *)
Theorem Sync_stops_early {S T : Type} `{ReadSeeker S} `{WriteSeeker T}
    (net : HttpSource.Transport) (copy_buffer : Z -> Z) (zsync : ZSync.t)
    (NumCPU : Z) (received : list ChunkInfo) (os_Open : error + S)
    (output : T) :
  (forall err,
     ZSyncRun.Sync net copy_buffer zsync NumCPU (inl err) received os_Open
                   output
     = Ret (output, [], Some err)) /\
  (1 <= NumCPU ->
   ZSyncRun.Sync net copy_buffer zsync NumCPU (inr 0) received os_Open
                 output
   = Panic "integer divide by zero") /\
  (forall inputSize err,
     0 < ZSync.BlockSize zsync -> 1 <= NumCPU <= Int64.max_int ->
     0 < inputSize -> inputSize + ZSync.BlockSize zsync <= Int64.max_int ->
     os_Open = inl err ->
     ZSyncRun.Sync net copy_buffer zsync NumCPU (inr inputSize) received
                   os_Open output
     = Ret (output, [], Some err)).
Proof.
  split; [done|]. split.
  - intros HCPU. unfold ZSyncRun.Sync, ZSync.SearchReusableChunks.
    by rewrite worker_ranges_empty_file.
  - intros inputSize err HB HCPU Hn Hfit ->.
    unfold ZSyncRun.Sync, ZSync.SearchReusableChunks.
    by rewrite worker_ranges_nonempty.
Qed.

Lemma Sync_stops_early_witness :
  ZSyncRun.Sync whole_file_net ZSyncRun.io_Copy_buffer sample_zsync 4
    (inr 0) [] (inr old_file) new_file
  = Panic "integer divide by zero" /\
  ZSyncRun.Sync whole_file_net ZSyncRun.io_Copy_buffer sample_zsync 4
    (inr 40) [] (inl (Errorf "permission denied") : error + MemFile)
    new_file
  = Ret (new_file, [], Some (Errorf "permission denied")).
Proof.
  destruct (Sync_stops_early whole_file_net ZSyncRun.io_Copy_buffer
              sample_zsync 4 [] (inr old_file) new_file)
    as (_ & Hempty & _).
  destruct (Sync_stops_early whole_file_net ZSyncRun.io_Copy_buffer
              sample_zsync 4 []
              (inl (Errorf "permission denied") : error + MemFile)
              new_file)
    as (_ & _ & Hopen).
  split.
  - apply Hempty. lia.
  - apply (Hopen 40 (Errorf "permission denied")).
    + reflexivity.
    + int64.
    + lia.
    + cbn. int64.
    + reflexivity.
Defined.

(** *** A request that the server refuses *)

Lemma fetch_loop_app {T : Type} `{WriteSeeker T}
    (net : HttpSource.Transport) (copy_buffer : Z -> Z)
    (pre rest : list ChunkInfo) (h h' : HttpSource.t)
    (sent sent' : list HttpSource.http_Request) (output output' : T) :
  ZSyncRun.fetch_loop net copy_buffer h sent output pre
  = (h', sent', output', None) ->
  ZSyncRun.fetch_loop net copy_buffer h sent output (pre ++ rest)
  = ZSyncRun.fetch_loop net copy_buffer h' sent' output' rest.
Proof.
  revert h sent output.
  induction pre as [|c pre IH]; intros h sent output.
  { by intros [= -> -> ->]. }
  cbn [ZSyncRun.fetch_loop app].
  destruct (HttpSource.Seek h (SourceOffset c) io_SeekStart)
    as [h1 [r [e|]]]; [done|].
  destruct (HttpSource.Request net h1 sent (Size c))
    as [[h2 sent2] [e|]]; [done|].
  destruct (ZSync.WriteChunk (h2, sent2) output c)
    as [[[h3 sent3] output3] [e|]]; [done|].
  apply IH.
Qed.

Lemma Request_refused (net : HttpSource.Transport) (h : HttpSource.t)
    (sent : list HttpSource.http_Request) (size : Z)
    (resp : HttpSource.http_Response) :
  HttpSource.NewRequest_err net (HttpSource.URL h) = None ->
  Int64.in_range (HttpSource.Offset h + size) ->
  Int64.in_range (HttpSource.Offset h + size - 1) ->
  HttpSource.Do net (range_request h size) = inr resp ->
  HttpSource.StatusCode resp <> 206 ->
  exists h',
    HttpSource.Request net h sent size
    = (h', sent ++ [range_request h size],
       Some (refusal (HttpSource.StatusCode resp))).
Proof.
  intros Hurl H1 H2 HDo Hstatus.
  unfold HttpSource.Request, HttpSource.doRangeRequest.
  rewrite (rangedRequest_range h size H1 H2).
  cbn [HttpSource.set_cache HttpSource.URL]. rewrite Hurl, HDo.
  unfold refusal.
  destruct (HttpSource.StatusCode resp =? 404); [by eexists|].
  destruct (Z.eqb_spec (HttpSource.StatusCode resp) 206); [done|].
  by eexists.
Qed.

(** X19.  [Sync] between healthy files in memory when the server serves
    the first chunks to fetch and answers the request for the next one
    with a status that is not 206: [Sync] returns the error
    [URL not found] for status 404 and [ranged request not supported] for
    any other; the requests sent are those for the chunks served and the
    one refused, in order, and no request follows for the chunks that
    remain. *)
Theorem Sync_fetch_refused (net : HttpSource.Transport)
    (copy_buffer : Z -> Z) (zsync : ZSync.t) (NumCPU : Z)
    (received : list ChunkInfo) (local output : MemFile)
    (remote : list byte) (pre post : list ChunkInfo) (c : ChunkInfo)
    (resp : HttpSource.http_Response) :
  0 < ZSync.BlockSize zsync ->
  len remote = ZSync.RemoteFileSize zsync ->
  ZSync.RemoteFileSize zsync + 64 * ZSync.BlockSize zsync
  <= Int64.max_int ->
  1 <= NumCPU <= Int64.max_int ->
  0 < len (contents local) ->
  len (contents local) + ZSync.BlockSize zsync <= Int64.max_int ->
  fault local = None -> fault output = None ->
  never_empty copy_buffer ->
  Forall (scanned zsync) received ->
  Forall (fun c => 0 <= SourceOffset c) received ->
  HttpSource.NewRequest_err net (ZSync.RemoteFileUrl zsync) = None ->
  ZSync.Sync_fetches zsync received = pre ++ c :: post ->
  Forall (fun c => serves net (fetch_request (ZSync.RemoteFileUrl zsync) c)
                          (slice remote c)) pre ->
  HttpSource.Do net (fetch_request (ZSync.RemoteFileUrl zsync) c)
  = inr resp ->
  HttpSource.StatusCode resp <> 206 ->
  exists output',
    ZSyncRun.Sync net copy_buffer zsync NumCPU
      (inr (len (contents local))) received (inr local) output
    = Ret (output',
           fetch_request (ZSync.RemoteFileUrl zsync) <$> (pre ++ [c]),
           Some (refusal (HttpSource.StatusCode resp))).
Proof.
  intros HB Hremote Hfit HCPU Hn Hnfit Hlocal Hout Hbuf Hscan Hsrc Hurl
    Hsplit Hserved HDo Hstatus.
  pose proof (len_nonneg remote) as HR. rewrite Hremote in HR.
  destruct (scanned_well_placed zsync received HB HR ltac:(lia) Hscan)
    as [Hplaced _].
  destruct (Sync_fetches_facts zsync received HB HR Hfit Hscan)
    as [Hfetch _].
  rewrite Hsplit in Hfetch.
  apply Forall_app in Hfetch as [Hpre [Hc _]%Forall_cons].
  unfold ZSyncRun.Sync, ZSync.SearchReusableChunks.
  rewrite worker_ranges_nonempty by done. cbn iota zeta.
  destruct (reuse_loop_healthy received local output
              (ChunksMapper.NewFileChunksMapper (ZSync.RemoteFileSize zsync))
              Hlocal Hout)
    as (input' & output1 & -> & Hf1 & _).
  { apply Forall_forall. intros d Hd.
    pose proof (proj1 (Forall_forall _ _) Hplaced d Hd) as (? & ? & ?).
    pose proof (proj1 (Forall_forall _ _) Hsrc d Hd).
    unfold TargetEnd in *. repeat split; int64. }
  change (ChunksMapper.OptimizeChunks
            (ChunksMapper.GetMissingChunks
               (ChunksMapper.FillChunksMap
                  (ChunksMapper.NewFileChunksMapper
                     (ZSync.RemoteFileSize zsync)) received))
            (Int64.mul (ZSync.BlockSize zsync) 64))
    with (ZSync.Sync_fetches zsync received).
  rewrite Hsplit.
  set (source0 := HttpSource.mk (ZSync.RemoteFileUrl zsync) 0
                    (ZSync.RemoteFileSize zsync) 0 0 [] None).
  destruct (fetch_loop_served net copy_buffer (slice remote) pre source0 []
              output1 Hbuf Hurl eq_refl Hf1)
    as (h1 & output2 & Hloop & _ & _ & Hu1).
  { apply Forall_forall. intros d Hd.
    pose proof (proj1 (Forall_forall _ _) Hpre d Hd) as (? & Hst & ? & ?).
    pose proof (proj1 (Forall_forall _ _) Hserved d Hd) as Hs.
    destruct (slice_in_place remote d) as [Hlen _]; [lia..|].
    repeat split; try done; int64. }
  rewrite (fetch_loop_app net copy_buffer pre (c :: post) _ _ _ _ _ _
             Hloop).
  cbn [ZSyncRun.fetch_loop]. rewrite Seek_start.
  destruct Hc as (HcS & _ & HcN & HcE).
  change (HttpSource.URL source0) with (ZSync.RemoteFileUrl zsync) in *.
  set (h2 := HttpSource.set_Offset h1 (SourceOffset c)).
  assert (range_request h2 (Size c)
          = fetch_request (ZSync.RemoteFileUrl zsync) c) as Hreq.
  { unfold range_request, fetch_request. cbn. by rewrite Hu1. }
  destruct (Request_refused net h2
              ([] ++ (fetch_request (ZSync.RemoteFileUrl zsync) <$> pre))
              (Size c) resp) as (h3 & ->).
  - cbn. by rewrite Hu1.
  - cbn. int64.
  - cbn. int64.
  - by rewrite Hreq.
  - done.
  - exists output2. rewrite Hreq, fmap_app. reflexivity.
Qed.

Lemma Sync_fetch_refused_witness :
  exists output',
    ZSyncRun.Sync not_found_net ZSyncRun.io_Copy_buffer sample_zsync 4
      (inr 40) [ZSync.createChunk sample_zsync 0 (block 1)] (inr old_file)
      new_file
    = Ret (output', [fetch_request "http://host/dir/file.bin" (fetch 0 70)],
           Some (Errorf "URL not found")).
Proof.
  apply (Sync_fetch_refused not_found_net ZSyncRun.io_Copy_buffer
           sample_zsync 4 [ZSync.createChunk sample_zsync 0 (block 1)]
           old_file new_file remote_file [] [] (fetch 0 70)
           (HttpSource.mkResponse 404 ∅ [] None)).
  - reflexivity.
  - reflexivity.
  - cbn. int64.
  - int64.
  - reflexivity.
  - unfold len. cbn. int64.
  - reflexivity.
  - reflexivity.
  - intros r Hr. unfold ZSyncRun.io_Copy_buffer. lia.
  - apply Forall_cons_2; [|apply Forall_nil_2].
    eexists _, _. split; [reflexivity|cbn; lia].
  - apply Forall_cons_2; [|apply Forall_nil_2]. by vm_compute.
  - reflexivity.
  - reflexivity.
  - apply Forall_nil_2.
  - reflexivity.
  - cbn. lia.
Defined.

(** *** An output that cannot take the reuse chunks *)

Lemma mem_Seek_fault (f : MemFile) (offset whence : Z) :
  fault (mem_Seek f offset whence).1 = fault f.
Proof.
  unfold mem_Seek.
  destruct (if whence =? io_SeekStart then _ else _) as [p|]; [|done].
  by destruct (p <? 0).
Qed.

Lemma WriteChunk_keeps_fault (source target : MemFile) (chunk : ChunkInfo) :
  0 < Size chunk ->
  fault (ZSync.WriteChunk source target chunk).1.2 = fault target.
Proof.
  intros HN. unfold ZSync.WriteChunk.
  cbn [rs_Seek ws_Seek ws_Write MemFile_ReadSeeker MemFile_WriteSeeker].
  destruct (mem_Seek source (SourceOffset chunk) io_SeekStart)
    as [s1 [r1 [e1|]]]; [done|].
  pose proof (mem_Seek_fault target (TargetOffset chunk) io_SeekStart) as Ht.
  destruct (mem_Seek target (TargetOffset chunk) io_SeekStart)
    as [t1 [r2 [e2|]]]; cbn [fst] in Ht; [done|].
  pose proof (CopyN_mem_result t1 s1 (Size chunk) HN) as Hcopy.
  destruct (CopyN t1 s1 (Size chunk)) as [[t2 s2] [w err]].
  destruct Hcopy as (Hf & _).
  destruct (is_EOF err && (w <? Size chunk)).
  - pose proof (mem_Write_result t2
                  (repeat x00 (Z.to_nat (Int64.sub (Size chunk) w))))
      as Hwrite.
    destruct (mem_Write t2 _) as [t3 [w3 e3]].
    destruct Hwrite as (Hf3 & _).
    destruct e3; cbn; congruence.
  - destruct err; cbn; congruence.
Qed.

Lemma reuse_loop_unwritable (k : Z) (cs : list ChunkInfo)
    (input output : MemFile) (m : ChunksMapper.t) :
  fault output = Some k ->
  Forall (fun c => 0 <= SourceOffset c /\ 0 <= TargetOffset c /\
                   0 < Size c <= Int64.max_int) cs ->
  (exists c, c ∈ cs /\ k < TargetOffset c + Size c) ->
  exists input' output' m' e,
    ZSyncRun.reuse_loop input output m cs
    = (input', output', m', Some e).
Proof.
  revert input output m.
  induction cs as [|c0 cs IH]; intros input output m Hk Hcs (c & Hc & Hck).
  { by apply elem_of_nil in Hc. }
  apply Forall_cons in Hcs as [(HS & HT & HN) Hcs].
  cbn [ZSyncRun.reuse_loop].
  pose proof (WriteChunk_keeps_fault input output c0 ltac:(lia)) as Hfault.
  pose proof (WriteChunk_io_errors input output c0 HS HT HN) as Herr.
  destruct (ZSync.WriteChunk input output c0) as [[input1 output1] [e|]].
  { by eexists _, _, _, _. }
  cbn [fst snd] in Hfault, Herr.
  apply elem_of_cons in Hc as [->|Hc].
  - destruct Herr as [e He]; [|done]. right. by exists k.
  - apply IH; [congruence|done|by exists c].
Qed.

(** X20.  [Sync] with an output medium that fails from offset [k] on,
    when some reuse chunk received reaches beyond [k]: [Sync] returns an
    error, and it has sent no request.  The server is contacted only once
    every reuse chunk was written. *)
Theorem Sync_unwritable_output (net : HttpSource.Transport)
    (copy_buffer : Z -> Z) (zsync : ZSync.t) (NumCPU : Z)
    (received : list ChunkInfo) (local output : MemFile) (k : Z) :
  0 < ZSync.BlockSize zsync -> 1 <= NumCPU <= Int64.max_int ->
  0 < len (contents local) ->
  len (contents local) + ZSync.BlockSize zsync <= Int64.max_int ->
  Forall (fun c => 0 <= SourceOffset c /\ 0 <= TargetOffset c /\
                   0 < Size c <= Int64.max_int) received ->
  fault output = Some k ->
  (exists c, c ∈ received /\ k < TargetOffset c + Size c) ->
  exists output' e,
    ZSyncRun.Sync net copy_buffer zsync NumCPU
      (inr (len (contents local))) received (inr local) output
    = Ret (output', [], Some e).
Proof.
  intros HB HCPU Hn Hfit Hcs Hk Hc.
  unfold ZSyncRun.Sync, ZSync.SearchReusableChunks.
  rewrite worker_ranges_nonempty by done. cbn iota zeta.
  destruct (reuse_loop_unwritable k received local output
              (ChunksMapper.NewFileChunksMapper (ZSync.RemoteFileSize zsync))
              Hk Hcs Hc)
    as (input' & output' & m' & e & ->).
  by exists output', e.
Qed.

Lemma Sync_unwritable_output_witness :
  exists output' e,
    ZSyncRun.Sync whole_file_net ZSyncRun.io_Copy_buffer sample_zsync 4
      (inr 40) [reuse 0 16 16] (inr old_file) full_disk
    = Ret (output', [], Some e).
Proof.
  apply (Sync_unwritable_output whole_file_net ZSyncRun.io_Copy_buffer
           sample_zsync 4 [reuse 0 16 16] old_file full_disk 20).
  - reflexivity.
  - int64.
  - reflexivity.
  - unfold len. cbn. int64.
  - apply Forall_cons_2; [|apply Forall_nil_2]. cbn. int64.
  - reflexivity.
  - exists (reuse 0 16 16). split; [by left|cbn; lia].
Defined.

(* ===================================================================== *)
(** ** NewZSync: when the slice of the URL is out of bounds *)
(* ===================================================================== *)

Lemma LastIndex_present (s : string) :
  GoStrings.Contains s "/" = true -> 0 <= GoStrings.LastIndex s "/".
Proof.
  induction s as [|c s IH]; [done|].
  cbn [GoStrings.Contains GoStrings.LastIndex].
  destruct (Z.leb_spec 0 (GoStrings.LastIndex s "/")) as [|Hneg]; [lia|].
  intros [Hp|Hs]%orb_true_iff; [by rewrite Hp|].
  specialize (IH Hs). lia.
Qed.

Lemma relative_url_panics_iff (zsyncFileUrl c_URL : string) :
  (exists msg, ZSync.relative_url zsyncFileUrl c_URL = Panic msg)
  <-> GoStrings.Contains zsyncFileUrl "/" = false /\
      GoStrings.HasPrefix c_URL "http" = false /\
      GoStrings.HasPrefix c_URL "ftp" = false.
Proof.
  unfold ZSync.relative_url.
  destruct (GoStrings.HasPrefix c_URL "http"); cbn [orb negb].
  { split; [by intros [? ?]|by intros (_ & ? & _)]. }
  destruct (GoStrings.HasPrefix c_URL "ftp"); cbn [negb].
  { split; [by intros [? ?]|by intros (_ & _ & ?)]. }
  destruct (GoStrings.Contains zsyncFileUrl "/") eqn:Hslash.
  - pose proof (LastIndex_present _ Hslash) as Hlo.
    pose proof (LastIndex_nonneg_bound zsyncFileUrl "/") as [_ Hhi].
    unfold GoStrings.slice_to.
    destruct (Z.ltb_spec (GoStrings.LastIndex zsyncFileUrl "/") 0); [lia|].
    destruct (Z.ltb_spec (Z.of_nat (String.length zsyncFileUrl))
                         (GoStrings.LastIndex zsyncFileUrl "/")); [lia|].
    cbn [orb]. split; [by intros [? ?]|by intros (? & _)].
  - rewrite (LastIndex_absent _ Hslash). cbn.
    split; [done|]. intros _. by eexists.
Qed.

Section NewZSync_outcomes.

Variable Body : Type.
Variable http_Get : string -> error + Body.
Variable ReadControl : Body -> error + ZSync.Control.
Variable Close : Body -> option error.

(** X21.  [NewZSync] panics (the slice [zsyncFileUrl[:baseURL]] is out of
    bounds) exactly when its URL holds no ["/"] while the control file was
    fetched, parsed and closed and names a URL that starts with neither
    ["http"] nor ["ftp"].  For a URL with a ["/"] it always returns: the
    error of the fetch, of the parser or of the close, or a value. *)
Theorem NewZSync_panics_iff (zsyncFileUrl : string) :
  (exists msg,
     ZSync.NewZSync Body http_Get ReadControl Close zsyncFileUrl
     = Panic msg)
  <-> GoStrings.Contains zsyncFileUrl "/" = false /\
      exists body c,
        http_Get zsyncFileUrl = inr body /\ ReadControl body = inr c /\
        Close body = None /\
        GoStrings.HasPrefix (ZSync.c_URL c) "http" = false /\
        GoStrings.HasPrefix (ZSync.c_URL c) "ftp" = false.
Proof.
  unfold ZSync.NewZSync.
  destruct (http_Get zsyncFileUrl) as [e|body].
  { split; [by intros [? ?]|by intros (_ & ? & ? & ? & _)]. }
  destruct (ReadControl body) as [e|c] eqn:Hread.
  { split; [by intros [? ?]|].
    intros (_ & ? & ? & [= <-] & ? & _). congruence. }
  destruct (Close body) as [e|] eqn:Hclose.
  { split; [by intros [? ?]|].
    intros (_ & ? & ? & [= <-] & _ & ? & _). congruence. }
  pose proof (relative_url_panics_iff zsyncFileUrl (ZSync.c_URL c)) as Hrel.
  destruct (ZSync.relative_url zsyncFileUrl (ZSync.c_URL c)) as [url|msg].
  - split; [by intros [? ?]|].
    intros (Hslash & ? & c' & [= <-] & Hc' & _ & Hh & Hf).
    assert (c' = c) as -> by congruence.
    destruct (proj2 Hrel (conj Hslash (conj Hh Hf))) as [? ?]. done.
  - split.
    + intros _. destruct (proj1 Hrel ltac:(by eexists)) as (? & ? & ?).
      split; [done|]. by exists body, c.
    + intros _. by eexists.
Qed.

End NewZSync_outcomes.
